(** * Playwright-Nesto: the test helpers, the province catalog and the
      locale loader, as Rocq functions

    The TypeScript sources embedded here are
    - [tests/utils/test-helpers.ts]: [getRandomValue],
      [verifyResponseBodyValue], [getNestedValue], [generateValidPassword],
      [isValidPassword], [isValidEmail];
    - [tests/types/provinces.types.ts]: [PROVINCE_CODES],
      [getLocalizedProvince], [getAllLocalizedProvinces],
      [getProvinceCodeFromName];
    - [tests/utils/locale-loader.ts]: [loadJsonFile], [loadLocaleConfig].

    A JavaScript string is a sequence of UTF-16 code units, a thrown
    exception is the [Throw] result of the [exn] type, and the JSON payloads
    the helpers inspect are trees of [value]s.  What the engine adds to the
    data, the members that values inherit from the built-in prototypes, is a
    parameter of the development: the class [Realm]. *)

From Stdlib Require Import String Ascii Bool Arith NArith ZArith Lia.
From Stdlib Require Import QArith Qround DecimalString.
From Stdlib Require DecimalFacts DecimalPos DecimalNat DecimalZ.
From Stdlib Require Import List Permutation.
Import ListNotations.

Set Implicit Arguments.
Close Scope Q_scope.
Open Scope nat_scope.
Open Scope list_scope.

(* ================================================================= *)
(** * Part I. Definitions *)
(* ================================================================= *)

(** ** Strings *)

(** A UTF-16 code unit and a JavaScript string. [length] of the list is the
    [.length] of the string. *)
Definition code_unit : Type := N.
Definition jsstring : Type := list code_unit.

Definition cu (a : ascii) : code_unit := N_of_ascii a.

(** A string literal of the source, one code unit per character. *)
Definition js (s : string) : jsstring := map cu (list_ascii_of_string s).
Arguments js s%_string.

Fixpoint jsstring_eqb (a b : jsstring) : bool :=
  match a, b with
  | [], [] => true
  | x :: a', y :: b' => N.eqb x y && jsstring_eqb a' b'
  | _, _ => false
  end.

(** [s.startsWith(p)] *)
Fixpoint startsWith (s p : jsstring) {struct p} : bool :=
  match p, s with
  | [], _ => true
  | x :: p', y :: s' => N.eqb x y && startsWith s' p'
  | _ :: _, [] => false
  end.

(** [s.endsWith(p)] *)
Definition endsWith (s p : jsstring) : bool := startsWith (rev s) (rev p).

(** [s.includes(p)]: [p] starts at some offset of [s]. *)
Fixpoint includes (s p : jsstring) : bool :=
  startsWith s p ||
  match s with
  | [] => false
  | _ :: s' => includes s' p
  end.

(** [s.slice(0, -1)]: all but the last code unit. *)
Definition slice_0_m1 (s : jsstring) : jsstring := removelast s.

(** [s.split(sep)] for a one-code-unit separator: the list is never empty. *)
Fixpoint split_on (sep : code_unit) (s : jsstring) : list jsstring :=
  match s with
  | [] => [[]]
  | c :: s' =>
      if N.eqb c sep then [] :: split_on sep s'
      else match split_on sep s' with
           | [] => [[c]]
           | w :: ws => (c :: w) :: ws
           end
  end.

(** [parts.join(sep)] on strings. *)
Fixpoint join (sep : jsstring) (parts : list jsstring) : jsstring :=
  match parts with
  | [] => []
  | [p] => p
  | p :: rest => p ++ sep ++ join sep rest
  end.

(** ** Regular expressions

    The patterns of the source use literals, character classes, [+],
    sequencing and the anchors [^] and [$]; none carries a flag, so a class
    tests one code unit and [$] is the end of the input. *)

(** [\s]: WhiteSpace and LineTerminator code points, all in the BMP. *)
Definition is_space (c : code_unit) : bool :=
  existsb (N.eqb c)
    [9; 10; 11; 12; 13; 32; 160; 5760; 8232; 8233; 8239; 8287; 12288; 65279]%N
  || (N.leb 8192 c && N.leb c 8202).

Inductive class_atom : Type :=
| CChar (c : code_unit)            (* a single character *)
| CRange (lo hi : code_unit)       (* lo-hi *)
| CSpace.                          (* \s *)

Definition atom_mem (a : class_atom) (c : code_unit) : bool :=
  match a with
  | CChar x => N.eqb c x
  | CRange lo hi => N.leb lo c && N.leb c hi
  | CSpace => is_space c
  end.

(** [[...]] ([negated = false]) and [[^...]] ([negated = true]). *)
Definition class_mem (negated : bool) (atoms : list class_atom)
    (c : code_unit) : bool :=
  xorb negated (existsb (fun a => atom_mem a c) atoms).

Inductive regex : Type :=
| RNone                                         (* no string (derivatives only) *)
| REps                                          (* the empty string *)
| RLit (c : code_unit)                          (* a literal or an escaped one *)
| RSet (negated : bool) (atoms : list class_atom)
| RSeq (r1 r2 : regex)
| RAlt (r1 r2 : regex)
| RStar (r : regex)
| RPlus (r : regex).

(** A pattern: its body and whether it opens with [^] and closes with [$]. *)
Record pattern : Type := mkPattern {
  anchor_start : bool;
  body : regex;
  anchor_end : bool;
}.

(** The set of strings a body matches in full. *)
Inductive Lang : regex -> jsstring -> Prop :=
| LEps : Lang REps []
| LLit c : Lang (RLit c) [c]
| LSet negated atoms c :
    class_mem negated atoms c = true -> Lang (RSet negated atoms) [c]
| LSeq r1 r2 s1 s2 : Lang r1 s1 -> Lang r2 s2 -> Lang (RSeq r1 r2) (s1 ++ s2)
| LAltL r1 r2 s : Lang r1 s -> Lang (RAlt r1 r2) s
| LAltR r1 r2 s : Lang r2 s -> Lang (RAlt r1 r2) s
| LStarNil r : Lang (RStar r) []
| LStarApp r s1 s2 : Lang r s1 -> Lang (RStar r) s2 -> Lang (RStar r) (s1 ++ s2)
| LPlus r s1 s2 : Lang r s1 -> Lang (RStar r) s2 -> Lang (RPlus r) (s1 ++ s2).

(** What [pattern.test(s)] decides: some substring of [s] is matched by the
    body, starting at offset 0 under [^] and ending at the end under [$]. *)
Definition Test (p : pattern) (s : jsstring) : Prop :=
  exists pre m post,
    s = pre ++ m ++ post /\ Lang (body p) m /\
    (anchor_start p = true -> pre = []) /\
    (anchor_end p = true -> post = []).

(** The matcher, by derivatives. *)
Fixpoint nullable (r : regex) : bool :=
  match r with
  | RNone => false
  | REps => true
  | RLit _ => false
  | RSet _ _ => false
  | RSeq r1 r2 => nullable r1 && nullable r2
  | RAlt r1 r2 => nullable r1 || nullable r2
  | RStar _ => true
  | RPlus r1 => nullable r1
  end.

Definition mk_seq (r1 r2 : regex) : regex :=
  match r1 with
  | RNone => RNone
  | REps => r2
  | _ => RSeq r1 r2
  end.

Definition mk_alt (r1 r2 : regex) : regex :=
  match r1, r2 with
  | RNone, _ => r2
  | _, RNone => r1
  | _, _ => RAlt r1 r2
  end.

Fixpoint der (c : code_unit) (r : regex) : regex :=
  match r with
  | RNone => RNone
  | REps => RNone
  | RLit x => if N.eqb c x then REps else RNone
  | RSet negated atoms => if class_mem negated atoms c then REps else RNone
  | RSeq r1 r2 =>
      if nullable r1 then mk_alt (mk_seq (der c r1) r2) (der c r2)
      else mk_seq (der c r1) r2
  | RAlt r1 r2 => mk_alt (der c r1) (der c r2)
  | RStar r1 => mk_seq (der c r1) (RStar r1)
  | RPlus r1 => mk_seq (der c r1) (RStar r1)
  end.

Definition matchb (r : regex) (s : jsstring) : bool :=
  nullable (fold_left (fun r c => der c r) s r).

(** Any code unit, [[^]]. *)
Definition any_unit : regex := RSet true [].

(** The body with the unanchored sides opened to any surrounding text. *)
Definition search_form (p : pattern) : regex :=
  RSeq (if anchor_start p then REps else RStar any_unit)
       (RSeq (body p) (if anchor_end p then REps else RStar any_unit)).

(** [p.test(s)] *)
Definition regex_test (p : pattern) (s : jsstring) : bool :=
  matchb (search_form p) s.

(** ** [isValidEmail] and [isValidPassword] (test-helpers.ts) *)

(** [[^\s@]] *)
Definition not_space_at : regex := RSet true [CSpace; CChar (cu "@")].

(** [/^[^\s@]+@[^\s@]+\.[^\s@]+$/] *)
Definition emailRegex : pattern :=
  mkPattern true
    (RSeq (RPlus not_space_at)
       (RSeq (RLit (cu "@"))
          (RSeq (RPlus not_space_at)
             (RSeq (RLit (cu ".")) (RPlus not_space_at)))))
    true.

Definition isValidEmail (email : jsstring) : bool :=
  regex_test emailRegex email.

(** [/[A-Z]/], [/[a-z]/] and [/[0-9]/] *)
Definition upper_class : list class_atom := [CRange (cu "A") (cu "Z")].
Definition lower_class : list class_atom := [CRange (cu "a") (cu "z")].
Definition digit_class : list class_atom := [CRange (cu "0") (cu "9")].

Definition has_upper_re : pattern := mkPattern false (RSet false upper_class) false.
Definition has_lower_re : pattern := mkPattern false (RSet false lower_class) false.
Definition has_digit_re : pattern := mkPattern false (RSet false digit_class) false.

Definition msg_min_length : jsstring := js "Password must be at least 12 characters".
Definition msg_max_length : jsstring := js "Password must be at most 32 characters".
Definition msg_uppercase : jsstring :=
  js "Password must contain at least one uppercase letter".
Definition msg_lowercase : jsstring :=
  js "Password must contain at least one lowercase letter".
Definition msg_number : jsstring := js "Password must contain at least one number".

Record password_check : Type := mkPasswordCheck {
  pw_isValid : bool;
  pw_errors : list jsstring;
}.

(** [errors.push(m)] under a condition. *)
Definition push_if (cond : bool) (m : jsstring) (errors : list jsstring)
    : list jsstring :=
  if cond then errors ++ [m] else errors.

Definition isValidPassword (password : jsstring) : password_check :=
  let errors : list jsstring := [] in
  let errors := push_if (length password <? 12) msg_min_length errors in
  let errors := push_if (32 <? length password) msg_max_length errors in
  let errors := push_if (negb (regex_test has_upper_re password)) msg_uppercase errors in
  let errors := push_if (negb (regex_test has_lower_re password)) msg_lowercase errors in
  let errors := push_if (negb (regex_test has_digit_re password)) msg_number errors in
  mkPasswordCheck (length errors =? 0) errors.

(** The violations, rule by rule, in the order the code tests them. *)
Definition violations (password : jsstring) : list jsstring :=
  (if length password <? 12 then [msg_min_length] else []) ++
  (if 32 <? length password then [msg_max_length] else []) ++
  (if regex_test has_upper_re password then [] else [msg_uppercase]) ++
  (if regex_test has_lower_re password then [] else [msg_lowercase]) ++
  (if regex_test has_digit_re password then [] else [msg_number]).

(** The vocabulary of the validators' contracts. *)
Definition is_upper (c : code_unit) : Prop := (cu "A" <= c <= cu "Z")%N.
Definition is_lower (c : code_unit) : Prop := (cu "a" <= c <= cu "z")%N.
Definition is_digit (c : code_unit) : Prop := (cu "0" <= c <= cu "9")%N.

(** A code unit allowed in the local part and in the domain: neither
    white space nor [@]. *)
Definition plain_unit (c : code_unit) : Prop :=
  is_space c = false /\ c <> cu "@".

(** [local@left.right] with the three parts non-empty and plain. *)
Definition email_shape (email : jsstring) : Prop :=
  exists local left right,
    email = local ++ [cu "@"] ++ left ++ [cu "."] ++ right /\
    local <> [] /\ left <> [] /\ right <> [] /\
    Forall plain_unit local /\ Forall plain_unit left /\ Forall plain_unit right.

(** ** Exceptions *)

Inductive error : Type :=
| TypeError        (* a member of null or undefined, a call of a non-function,
                      an object with no primitive form *)
| SyntaxError      (* JSON.parse on text that is not JSON *)
| ENOENT           (* readFileSync on a missing file *)
| ErrorWith (message : jsstring).    (* throw new Error(message) *)

Inductive exn (A : Type) : Type :=
| Ok (a : A)
| Throw (e : error).
Arguments Ok {A} a.
Arguments Throw {A} e.

Definition exn_bind {A B : Type} (c : exn A) (f : A -> exn B) : exn B :=
  match c with
  | Ok a => f a
  | Throw e => Throw e
  end.

Notation "x <~ c ;; f" := (exn_bind c (fun x => f))
  (at level 61, c at next level, right associativity).


(** ** [generateValidPassword] (test-helpers.ts)

    [Math.random()] is a source of numbers in the interval [0, 1): the
    [k]-th call of a run returns [src k].  A computation that draws from it
    passes along the count of calls made so far.  A draw is a rational and
    [Math.floor(r * n)] is taken exactly; the rounding of the product of
    doubles never reaches [n], so the index it yields stays below [n] as
    here. *)
Definition random_source : Type := nat -> Q.

Definition in_unit_interval (r : Q) : Prop := (0 <= r /\ r < 1)%Q.

Definition Rand (A : Type) : Type := nat -> A * nat.

Definition ret {A : Type} (a : A) : Rand A := fun k => (a, k).

Definition bind {A B : Type} (c : Rand A) (f : A -> Rand B) : Rand B :=
  fun k => let (a, k') := c k in f a k'.

Notation "x <- c ;; f" := (bind c (fun x => f))
  (at level 61, c at next level, right associativity).

(** [Math.random()] *)
Definition Math_random (src : random_source) : Rand Q :=
  fun k => (src k, S k).

(** [Math.floor(r * n)] *)
Definition floor_times (r : Q) (n : nat) : Z :=
  Qfloor (r * inject_Z (Z.of_nat n)).

(** [s[i]]: a one-unit string, or [undefined] ([None]) out of range. *)
Definition char_at (s : jsstring) (i : Z) : option code_unit :=
  if (i <? 0)%Z then None else nth_error s (Z.to_nat i).

(** [s[Math.floor(Math.random() * s.length)]] *)
Definition random_char (src : random_source) (s : jsstring)
    : Rand (option code_unit) :=
  r <- Math_random src ;;
  ret (char_at s (floor_times r (length s))).

(** [array[i]] for a computed index. *)
Definition element_at {T : Type} (array : list T) (i : Z) : option T :=
  if (i <? 0)%Z then None else nth_error array (Z.to_nat i).

(** [getRandomValue] (test-helpers.ts); [None] is the [undefined] an index
    outside the array would give. *)
Definition getRandomValue {T : Type} (src : random_source) (array : list T)
    : Rand (exn (option T)) :=
  if length array =? 0
  then ret (Throw (ErrorWith (js "Cannot get random value from empty array")))
  else
    r <- Math_random src ;;
    ret (Ok (element_at array (floor_times r (length array)))).

(** The operands [+] meets in the function: strings, [undefined], and the
    [NaN] that [undefined + undefined] is. *)
Inductive addend : Type :=
| AStr (s : jsstring)
| AUndefined
| ANaN.

Definition addend_of (c : option code_unit) : addend :=
  match c with
  | Some x => AStr [x]
  | None => AUndefined
  end.

(** The text [+] gives an operand next to a string. *)
Definition addend_text (a : addend) : jsstring :=
  match a with
  | AStr s => s
  | AUndefined => js "undefined"
  | ANaN => js "NaN"
  end.

(** [a + b] *)
Definition js_add (a b : addend) : addend :=
  match a, b with
  | AStr s, _ => AStr (s ++ addend_text b)
  | _, AStr t => AStr (addend_text a ++ t)
  | _, _ => ANaN
  end.

Definition uppercase : jsstring := js "ABCDEFGHIJKLMNOPQRSTUVWXYZ".
Definition lowercase : jsstring := js "abcdefghijklmnopqrstuvwxyz".
Definition numbers : jsstring := js "0123456789".
Definition allChars : jsstring := uppercase ++ lowercase ++ numbers.
Definition remainingLength : nat := 12 - 3.

(** The loop [for (i = 0; i < remainingLength; i++) remaining += allChars[...]],
    with [n] rounds to go. *)
Fixpoint fill_remaining (src : random_source) (n : nat) (remaining : jsstring)
    : Rand jsstring :=
  match n with
  | O => ret remaining
  | S n' =>
      c <- random_char src allChars ;;
      fill_remaining src n' (remaining ++ addend_text (addend_of c))
  end.

(** [Array.prototype.sort] under the comparator [() => Math.random() - 0.5]:
    the order it leaves is the engine's choice, so the engine's sort is an
    argument.  It receives the source, the array and the count of draws made,
    and returns the array it leaves with the new count. *)
Definition shuffle_sort : Type :=
  random_source -> list jsstring -> Rand (list jsstring).

(** What is expected of an engine: the array it leaves is a rearrangement. *)
Definition rearranges (sort : shuffle_sort) : Prop :=
  forall src l k, Permutation l (fst (sort src l k)).

(** [s.split('')]: one string per code unit. *)
Definition split_units (s : jsstring) : list jsstring :=
  map (fun c => [c]) s.

Definition generateValidPassword (sort : shuffle_sort) (src : random_source)
    : Rand jsstring :=
  randomUpper <- random_char src uppercase ;;
  randomLower <- random_char src lowercase ;;
  randomNumber <- random_char src numbers ;;
  remaining <- fill_remaining src remainingLength [] ;;
  let unshuffled :=
    addend_text
      (js_add (js_add (js_add (addend_of randomUpper) (addend_of randomLower))
                 (addend_of randomNumber))
         (AStr remaining)) in
  shuffled <- sort src (split_units unshuffled) ;;
  ret (join [] shuffled).

(** One engine: an insertion sort that asks the comparator at each step
    (a negative answer puts the new element first). *)
Fixpoint insert_random (src : random_source) (x : jsstring) (l : list jsstring)
    : Rand (list jsstring) :=
  match l with
  | [] => ret [x]
  | y :: l' =>
      r <- Math_random src ;;
      if Qlt_le_dec (r - (1 # 2)) 0 then ret (x :: y :: l')
      else (rest <- insert_random src x l' ;; ret (y :: rest))
  end.

Fixpoint insertion_sort (src : random_source) (l : list jsstring)
    : Rand (list jsstring) :=
  match l with
  | [] => ret []
  | x :: l' =>
      sorted <- insertion_sort src l' ;;
      insert_random src x sorted
  end.

(** A source of draws: the multiples of 1/101 in the order 0, 37, 74, 10, ... *)
Definition sample_source : random_source :=
  fun k => (Z.of_nat ((k * 37) mod 101) # 101)%Q.

(** ** Numbers

    The helpers compare numbers, print them and read lengths; they do no
    arithmetic on payload numbers.  What they need of the Number type is
    gathered here, so the results hold for the doubles of an engine as for
    the integers of [integer_numbers]. *)
Class NumberModel : Type := {
  number : Type;
  number_strict_eq : number -> number -> bool;   (* x === y *)
  number_to_string : number -> jsstring;         (* String(x) *)
  number_to_json : number -> jsstring;           (* JSON.stringify(x) *)
  number_of_nat : nat -> number;                 (* a length as a Number *)
}.

Definition decimal (z : Z) : jsstring := js (NilZero.string_of_int (Z.to_int z)).

(** The integers, printed in decimal. *)
#[global] Instance integer_numbers : NumberModel := {|
  number := Z;
  number_strict_eq := Z.eqb;
  number_to_string := decimal;
  number_to_json := decimal;
  number_of_nat := Z.of_nat;
|}.

(** ** Values

    The data a decoded JSON document holds, [undefined], and the built-in
    objects that a member access reaches from them.  An array or an object
    carries the reference that [===] compares; the properties of an object
    are its own enumerable properties in the engine's order, and a lookup
    takes the first entry under a key.  A built-in object (a prototype, or a
    function found on one) is known by the name the language gives it. *)
Definition ref : Type := nat.
Definition intrinsic : Type := jsstring.

(** Names that the documents and payloads of the suite use for their
    fields. *)
Definition suite_names : list jsstring :=
  [js "token"; js "signup"; js "login"; js "termsOfService"].

Definition suite_name (key : jsstring) : bool :=
  existsb (jsstring_eqb key) suite_names.

Set Warnings "-register-all".

Section Values.

Context {NM : NumberModel}.

Inductive value : Type :=
| VUndefined
| VNull
| VBool (b : bool)
| VNum (n : number)
| VStr (s : jsstring)
| VArr (r : ref) (elems : list value)
| VObj (r : ref) (props : list (jsstring * value))
| VBuiltin (b : intrinsic).

(** [v === undefined || v === null] *)
Definition is_nullish (v : value) : bool :=
  match v with
  | VUndefined | VNull => true
  | _ => false
  end.

(** [a === b] *)
Definition strict_equals (a b : value) : bool :=
  match a, b with
  | VUndefined, VUndefined => true
  | VNull, VNull => true
  | VBool x, VBool y => Bool.eqb x y
  | VNum x, VNum y => number_strict_eq x y
  | VStr x, VStr y => jsstring_eqb x y
  | VArr r _, VArr r' _ => Nat.eqb r r'
  | VObj r _, VObj r' _ => Nat.eqb r r'
  | VBuiltin b, VBuiltin b' => jsstring_eqb b b'
  | _, _ => false
  end.

Fixpoint own_property (props : list (jsstring * value)) (key : jsstring)
    : option value :=
  match props with
  | [] => None
  | (k, v) :: rest => if jsstring_eqb k key then Some v else own_property rest key
  end.

(** A key that is a canonical array index: decimal digits, no leading zero. *)
Definition digit_value (c : code_unit) : option nat :=
  if (N.leb (cu "0") c && N.leb c (cu "9"))%bool
  then Some (N.to_nat (c - cu "0")) else None.

Fixpoint digits_value (acc : nat) (s : jsstring) : option nat :=
  match s with
  | [] => Some acc
  | c :: s' =>
      match digit_value c with
      | Some d => digits_value (10 * acc + d) s'
      | None => None
      end
  end.

Definition array_index (key : jsstring) : option nat :=
  match key with
  | [] => None
  | c :: rest =>
      if (N.eqb c (cu "0") && negb (Nat.eqb (length rest) 0))%bool then None
      else digits_value 0 key
  end.

Definition or_undefined (o : option value) : value :=
  match o with
  | Some v => v
  | None => VUndefined
  end.

(** The own members of a value: the properties of an object; [length] and
    the elements of an array; [length] and the code units of a string.  A
    number and a boolean have none, and what a built-in object has is the
    realm's to say. *)
Definition own_member (v : value) (key : jsstring) : option value :=
  match v with
  | VStr s =>
      if jsstring_eqb key (js "length") then Some (VNum (number_of_nat (length s)))
      else option_map (fun c => VStr [c])
             (match array_index key with
              | Some i => nth_error s i
              | None => None
              end)
  | VArr _ elems =>
      if jsstring_eqb key (js "length")
      then Some (VNum (number_of_nat (length elems)))
      else match array_index key with
           | Some i => nth_error elems i
           | None => None
           end
  | VObj _ props => own_property props key
  | _ => None
  end.

(** ** The realm

    What the engine supplies beyond the data.  [inherited v key] is the
    member found under [key] on the prototype chain of [v] (for a built-in
    object: among all its members), [None] when there is none; reading it
    gives a value or, where the member is an accessor whose getter throws,
    an error.  [intrinsic_text] is [String(b)] for a built-in object [b],
    [None] where it has no primitive form and the coercion throws a
    TypeError; [intrinsic_json] is [JSON.stringify(b)], [None] where the
    serializer returns [undefined].

    The two laws hold in every realm whose prototypes the program has not
    extended: no prototype of a data value has a property under an array
    index, nor under one of the field names of the suite. *)
Class Realm : Type := {
  inherited : value -> jsstring -> option (exn value);
  intrinsic_text : intrinsic -> option jsstring;
  intrinsic_json : intrinsic -> option jsstring;
  inherited_index : forall v key i,
    array_index key = Some i -> inherited v key = None;
  inherited_suite_name : forall v key,
    suite_name key = true -> inherited v key = None;
}.

Context {R : Realm}.

(** [v[key]]: a TypeError on [null] and [undefined]; otherwise the own member
    under the key, and without one the member the prototype chain has under
    it, and without that [undefined]. *)
Definition get_member (v : value) (key : jsstring) : exn value :=
  match v with
  | VUndefined | VNull => Throw TypeError
  | _ =>
      match own_member v key with
      | Some member => Ok member
      | None =>
          match inherited v key with
          | Some member => member
          | None => Ok VUndefined
          end
      end
  end.

(** [current?.[key]] *)
Definition optional_get (current : value) (key : jsstring) : exn value :=
  if is_nullish current then Ok VUndefined else get_member current key.

(** [list.reduce(f, init)] with a callback that may throw. *)
Fixpoint reduce {A B : Type} (f : B -> A -> exn B) (l : list A) (init : B)
    : exn B :=
  match l with
  | [] => Ok init
  | x :: l' => acc <~ f init x ;; reduce f l' acc
  end.

Definition getNestedValue (obj : value) (path : jsstring) : exn value :=
  reduce (fun current key => optional_get current key)
    (split_on (cu ".") path) obj.

(** [String(v)] and [`${v}`].  An array joins its elements with commas, an
    empty text standing for [null] and [undefined]; an object answers with
    the inherited [toString] unless an own property of that name, which in
    JSON data is never a function, hides it: no primitive form is found then
    and a TypeError is thrown; so it is for a built-in object to which the
    realm gives no text. *)
Fixpoint to_string (v : value) : exn jsstring :=
  match v with
  | VUndefined => Ok (js "undefined")
  | VNull => Ok (js "null")
  | VBool true => Ok (js "true")
  | VBool false => Ok (js "false")
  | VNum n => Ok (number_to_string n)
  | VStr s => Ok s
  | VArr _ elems =>
      (fix join_elems (l : list value) : exn jsstring :=
         match l with
         | [] => Ok []
         | e :: rest =>
             t <~ (if is_nullish e then Ok [] else to_string e) ;;
             match rest with
             | [] => Ok t
             | _ :: _ => r <~ join_elems rest ;; Ok (t ++ js "," ++ r)
             end
         end) elems
  | VObj _ props =>
      match own_property props (js "toString") with
      | Some _ => Throw TypeError
      | None => Ok (js "[object Object]")
      end
  | VBuiltin b =>
      match intrinsic_text b with
      | Some t => Ok t
      | None => Throw TypeError
      end
  end.

(** ** [JSON.stringify] *)

Definition dquote : code_unit := 34%N.
Definition newline : code_unit := 10%N.

Definition hex_digit (d : N) : code_unit :=
  if N.ltb d 10 then (cu "0" + d)%N else (cu "a" + (d - 10))%N.

(** [\uXXXX] *)
Definition unicode_escape (c : code_unit) : jsstring :=
  js "\u" ++ [hex_digit ((c / 4096) mod 16); hex_digit ((c / 256) mod 16);
              hex_digit ((c / 16) mod 16); hex_digit (c mod 16)]%N.

Definition is_high_surrogate (c : code_unit) : bool :=
  N.leb 55296 c && N.leb c 56319.
Definition is_low_surrogate (c : code_unit) : bool :=
  N.leb 56320 c && N.leb c 57343.

Fixpoint quote_units (s : jsstring) : jsstring :=
  match s with
  | [] => []
  | c :: rest =>
      if N.eqb c 8 then js "\b" ++ quote_units rest
      else if N.eqb c 9 then js "\t" ++ quote_units rest
      else if N.eqb c 10 then js "\n" ++ quote_units rest
      else if N.eqb c 12 then js "\f" ++ quote_units rest
      else if N.eqb c 13 then js "\r" ++ quote_units rest
      else if N.eqb c dquote then [cu "\"; dquote] ++ quote_units rest
      else if N.eqb c (cu "\") then js "\\" ++ quote_units rest
      else if N.ltb c 32 then unicode_escape c ++ quote_units rest
      else if is_high_surrogate c then
        match rest with
        | d :: rest' =>
            if is_low_surrogate d then c :: d :: quote_units rest'
            else unicode_escape c ++ quote_units rest
        | [] => unicode_escape c
        end
      else if is_low_surrogate c then unicode_escape c ++ quote_units rest
      else c :: quote_units rest
  end.

(** QuoteJSONString *)
Definition quote (s : jsstring) : jsstring :=
  [dquote] ++ quote_units s ++ [dquote].

(** The brackets around the serialized members, as SerializeJSONArray and
    SerializeJSONObject lay them out. *)
Definition wrap_members (open close gap stepback : jsstring)
    (partial : list jsstring) : jsstring :=
  match partial with
  | [] => open ++ close
  | _ :: _ =>
      match gap with
      | [] => open ++ join (js ",") partial ++ close
      | _ :: _ =>
          let indent := stepback ++ gap in
          open ++ [newline] ++ indent
            ++ join (js "," ++ [newline] ++ indent) partial
            ++ [newline] ++ stepback ++ close
      end
  end.

(** SerializeJSONProperty: [None] is the [undefined] the serializer returns
    for a value that has no JSON text. *)
Fixpoint serialize (gap stepback : jsstring) (v : value) : option jsstring :=
  match v with
  | VUndefined => None
  | VNull => Some (js "null")
  | VBool true => Some (js "true")
  | VBool false => Some (js "false")
  | VNum n => Some (number_to_json n)
  | VStr s => Some (quote s)
  | VArr _ elems =>
      let indent := stepback ++ gap in
      Some (wrap_members (js "[") (js "]") gap stepback
              (map (fun e =>
                      match serialize gap indent e with
                      | Some t => t
                      | None => js "null"
                      end) elems))
  | VObj _ props =>
      let indent := stepback ++ gap in
      Some (wrap_members (js "{") (js "}") gap stepback
              (flat_map (fun p =>
                           match serialize gap indent (snd p) with
                           | Some t =>
                               [quote (fst p) ++ js ":"
                                  ++ match gap with [] => [] | _ :: _ => js " " end
                                  ++ t]
                           | None => []
                           end) props))
  | VBuiltin b => intrinsic_json b
  end.

(** [JSON.stringify(v)] and [JSON.stringify(v, null, 2)] *)
Definition JSON_stringify (v : value) : option jsstring := serialize [] [] v.
Definition JSON_stringify_2 (v : value) : option jsstring :=
  serialize (js "  ") [] v.

(** [`${x}`] for the string or [undefined] that [JSON.stringify] returns. *)
Definition template_text (x : option jsstring) : jsstring :=
  match x with
  | Some s => s
  | None => js "undefined"
  end.

End Values.

(** ** A realm for the examples

    The built-in prototypes with the methods of ECMAScript 2023 by name.  A
    method is an opaque function of which the sample knows the name, the two
    restricted accessors [caller] and [arguments] that every function
    inherits and whose getters throw, and the members of the prototypes of
    functions and objects; the number of parameters of a function and the
    static methods of the constructors are not part of the sample. *)
Definition Object_prototype_names : list jsstring :=
  [js "constructor"; js "__defineGetter__"; js "__defineSetter__";
   js "hasOwnProperty"; js "__lookupGetter__"; js "__lookupSetter__";
   js "isPrototypeOf"; js "propertyIsEnumerable"; js "toString"; js "valueOf";
   js "__proto__"; js "toLocaleString"].

Definition Function_prototype_names : list jsstring :=
  [js "name"; js "arguments"; js "caller"; js "constructor"; js "apply";
   js "bind"; js "call"; js "toString"].

Definition Array_prototype_names : list jsstring :=
  [js "length"; js "constructor"; js "at"; js "concat"; js "copyWithin";
   js "entries"; js "every"; js "fill"; js "filter"; js "find"; js "findIndex";
   js "findLast"; js "findLastIndex"; js "flat"; js "flatMap"; js "forEach";
   js "includes"; js "indexOf"; js "join"; js "keys"; js "lastIndexOf";
   js "map"; js "pop"; js "push"; js "reduce"; js "reduceRight"; js "reverse";
   js "shift"; js "slice"; js "some"; js "sort"; js "splice";
   js "toLocaleString"; js "toReversed"; js "toSorted"; js "toSpliced";
   js "toString"; js "unshift"; js "values"; js "with"].

Definition String_prototype_names : list jsstring :=
  [js "length"; js "constructor"; js "anchor"; js "at"; js "big"; js "blink";
   js "bold"; js "charAt"; js "charCodeAt"; js "codePointAt"; js "concat";
   js "endsWith"; js "fixed"; js "fontcolor"; js "fontsize"; js "includes";
   js "indexOf"; js "italics"; js "lastIndexOf"; js "link";
   js "localeCompare"; js "match"; js "matchAll"; js "normalize";
   js "padEnd"; js "padStart"; js "repeat"; js "replace"; js "replaceAll";
   js "search"; js "slice"; js "small"; js "split"; js "startsWith";
   js "strike"; js "sub"; js "substr"; js "substring"; js "sup";
   js "toLocaleLowerCase"; js "toLocaleUpperCase"; js "toLowerCase";
   js "toString"; js "toUpperCase"; js "trim"; js "trimEnd"; js "trimLeft";
   js "trimRight"; js "trimStart"; js "valueOf"].

Definition Number_prototype_names : list jsstring :=
  [js "constructor"; js "toExponential"; js "toFixed"; js "toLocaleString";
   js "toPrecision"; js "toString"; js "valueOf"].

Definition Boolean_prototype_names : list jsstring :=
  [js "constructor"; js "toString"; js "valueOf"].

Definition constructor_names : list jsstring :=
  [js "Object"; js "Function"; js "Array"; js "String"; js "Number";
   js "Boolean"].

Definition is_prototype (o : intrinsic) : bool := endsWith o (js ".prototype").

(** The names of the own members of a built-in object. *)
Definition sample_own_names (o : intrinsic) : list jsstring :=
  if jsstring_eqb o (js "Object.prototype") then Object_prototype_names
  else if jsstring_eqb o (js "Function.prototype") then Function_prototype_names
  else if jsstring_eqb o (js "Array.prototype") then Array_prototype_names
  else if jsstring_eqb o (js "String.prototype") then String_prototype_names
  else if jsstring_eqb o (js "Number.prototype") then Number_prototype_names
  else if jsstring_eqb o (js "Boolean.prototype") then Boolean_prototype_names
  else if existsb (jsstring_eqb o) constructor_names
  then [js "name"; js "prototype"]
  else [js "name"].

(** The objects searched for a member: the prototype chain of a data value,
    a built-in object itself and then its prototype chain. *)
Definition sample_chain (v : @value integer_numbers) : list intrinsic :=
  match v with
  | VUndefined | VNull => []
  | VBool _ => [js "Boolean.prototype"; js "Object.prototype"]
  | VNum _ => [js "Number.prototype"; js "Object.prototype"]
  | VStr _ => [js "String.prototype"; js "Object.prototype"]
  | VArr _ _ => [js "Array.prototype"; js "Object.prototype"]
  | VObj _ _ => [js "Object.prototype"]
  | VBuiltin b =>
      if jsstring_eqb b (js "Object.prototype") then [b]
      else if is_prototype b then [b; js "Object.prototype"]
      else [b; js "Function.prototype"; js "Object.prototype"]
  end.

(** The prototype of a value, which the accessor [__proto__] answers with. *)
Definition sample_prototype (v : @value integer_numbers) : @value integer_numbers :=
  match v, sample_chain v with
  | VBuiltin _, _ :: p :: _ => VBuiltin p
  | VBuiltin _, _ => VNull
  | _, p :: _ => VBuiltin p
  | _, [] => VNull
  end.

(** The text after the last dot: the name of a method or of a constructor. *)
Definition simple_name (o : intrinsic) : jsstring :=
  last (split_on (cu ".") o) [].

(** What reading the member [key], found on [holder], gives to [receiver]. *)
Definition sample_member (receiver : @value integer_numbers) (holder : intrinsic)
    (key : jsstring) : exn (@value integer_numbers) :=
  if jsstring_eqb key (js "__proto__") then Ok (sample_prototype receiver)
  else if jsstring_eqb key (js "constructor")
  then Ok (VBuiltin (join (js ".") (removelast (split_on (cu ".") holder))))
  else if jsstring_eqb key (js "caller") || jsstring_eqb key (js "arguments")
  then Throw TypeError
  else if jsstring_eqb key (js "length") then Ok (VNum 0%Z)
  else if jsstring_eqb key (js "name")
  then Ok (VStr (if is_prototype holder then [] else simple_name holder))
  else if jsstring_eqb key (js "prototype")
  then Ok (VBuiltin (holder ++ js ".prototype"))
  else if jsstring_eqb key (js "trimLeft")
  then Ok (VBuiltin (js "String.prototype.trimStart"))
  else if jsstring_eqb key (js "trimRight")
  then Ok (VBuiltin (js "String.prototype.trimEnd"))
  else Ok (VBuiltin (holder ++ js "." ++ key)).

(** The member found for [key]: on the first object of the chain that has
    the name, and nowhere for an array index or a field name of the suite,
    which no built-in object has. *)
Definition sample_inherited (v : @value integer_numbers) (key : jsstring)
    : option (exn (@value integer_numbers)) :=
  if suite_name key then None
  else match array_index key with
       | Some _ => None
       | None =>
           option_map (fun holder => sample_member v holder key)
             (find (fun holder => existsb (jsstring_eqb key) (sample_own_names holder))
                (sample_chain v))
       end.

(** [String(b)] *)
Definition sample_text (b : intrinsic) : option jsstring :=
  if jsstring_eqb b (js "Object.prototype") then Some (js "[object Object]")
  else if jsstring_eqb b (js "Array.prototype") then Some []
  else if jsstring_eqb b (js "String.prototype") then Some []
  else if jsstring_eqb b (js "Number.prototype") then Some (js "0")
  else if jsstring_eqb b (js "Boolean.prototype") then Some (js "false")
  else Some (js "function "
             ++ (if is_prototype b then [] else simple_name b)
             ++ js "() { [native code] }").

(** [JSON.stringify(b)] *)
Definition sample_json (b : intrinsic) : option jsstring :=
  if jsstring_eqb b (js "Object.prototype") then Some (js "{}")
  else if jsstring_eqb b (js "Array.prototype") then Some (js "[]")
  else if jsstring_eqb b (js "String.prototype") then Some [dquote; dquote]
  else if jsstring_eqb b (js "Number.prototype") then Some (js "0")
  else if jsstring_eqb b (js "Boolean.prototype") then Some (js "false")
  else None.

#[global] Instance sample_realm : @Realm integer_numbers.
Proof.
  refine {| inherited := sample_inherited;
            intrinsic_text := sample_text;
            intrinsic_json := sample_json |}.
  - intros v key i H. unfold sample_inherited. rewrite H.
    now destruct (suite_name key).
  - intros v key H. unfold sample_inherited. now rewrite H.
Defined.

(** ** [verifyResponseBodyValue] (test-helpers.ts) *)

(** ['equals' | 'contains' | 'defined'] *)
Inductive comparison : Type :=
| Equals
| Contains
| Defined.

Definition comparison_eqb (a b : comparison) : bool :=
  match a, b with
  | Equals, Equals | Contains, Contains | Defined, Defined => true
  | _, _ => false
  end.

(** [{ isValid: boolean; errorMessage: string }] *)
Record verification : Type := mkVerification {
  isValid : bool;
  errorMessage : jsstring;
}.

(** The verdict of a call that returned. *)
Definition isValid_of (r : exn verification) : option bool :=
  match r with
  | Ok v => Some (isValid v)
  | Throw _ => None
  end.

Section Verifier.

Context {NM : NumberModel} {R : Realm}.

(** [`${fieldPath} is missing or undefined. Full response: ${fullResponse}`] *)
Definition msg_not_defined (fieldPath fullResponse : jsstring) : jsstring :=
  fieldPath ++ js " is missing or undefined. Full response: " ++ fullResponse.

(** [`${fieldPath} is missing. Expected: ${JSON.stringify(expectedValue)}, but
    field is undefined. Full response: ${fullResponse}`] *)
Definition msg_missing (fieldPath expectedJson fullResponse : jsstring)
    : jsstring :=
  fieldPath ++ js " is missing. Expected: " ++ expectedJson
    ++ js ", but field is undefined. Full response: " ++ fullResponse.

(** [`Expected ${fieldPath} to <verb> "${expectedValue}", but got
    "${fieldValue}". Full response: ${fullResponse}`] *)
Definition msg_mismatch (verb fieldPath expectedText fieldText fullResponse
    : jsstring) : jsstring :=
  js "Expected " ++ fieldPath ++ js " to " ++ verb ++ js " " ++ [dquote]
    ++ expectedText ++ [dquote] ++ js ", but got " ++ [dquote] ++ fieldText
    ++ [dquote] ++ js ". Full response: " ++ fullResponse.

(** The fourth argument is [None] when the caller leaves it out. *)
Definition verifyResponseBodyValue (responseBody : value) (fieldPath : jsstring)
    (expectedValue : value) (comparison_arg : option comparison)
    : exn verification :=
  let comparison :=
    match comparison_arg with
    | Some c => c
    | None => Contains
    end in
  fieldValue <~ getNestedValue responseBody fieldPath ;;
  let fullResponse := template_text (JSON_stringify_2 responseBody) in
  if comparison_eqb comparison Defined then
    let isValid :=
      negb (strict_equals fieldValue VUndefined)
      && negb (strict_equals fieldValue VNull) in
    Ok (mkVerification isValid
          (if isValid then [] else msg_not_defined fieldPath fullResponse))
  else if strict_equals fieldValue VUndefined || strict_equals fieldValue VNull
  then
    Ok (mkVerification false
          (msg_missing fieldPath (template_text (JSON_stringify expectedValue))
             fullResponse))
  else if comparison_eqb comparison Equals then
    let isValid := strict_equals fieldValue expectedValue in
    if isValid then Ok (mkVerification isValid [])
    else
      expectedText <~ to_string expectedValue ;;
      fieldText <~ to_string fieldValue ;;
      Ok (mkVerification isValid
            (msg_mismatch (js "equal") fieldPath expectedText fieldText
               fullResponse))
  else
    fieldStr <~ to_string fieldValue ;;
    expectedStr <~ to_string expectedValue ;;
    let isValid := includes fieldStr expectedStr in
    if isValid then Ok (mkVerification isValid [])
    else
      expectedText <~ to_string expectedValue ;;
      fieldText <~ to_string fieldValue ;;
      Ok (mkVerification isValid
            (msg_mismatch (js "contain") fieldPath expectedText fieldText
               fullResponse)).

(** Payloads of the suite. *)
Definition payload_error : value :=
  VObj 0 [(js "error", VStr (js "invalid password"))].

Definition payload_oauth : value :=
  VObj 0 [(js "oauth", VObj 1 [(js "access_token", VStr (js "x"))])].

(** A string field, and an object whose own [toString] is data. *)
Definition payload_name : value :=
  VObj 0 [(js "name", VStr (js "xyz"))].

Definition payload_shadowed : value :=
  VObj 0 [(js "user", VObj 1 [(js "toString", VStr (js "x"))])].

End Verifier.

(** ** The province catalog (provinces.types.ts) *)

(** [keyof typeof PROVINCE_CODES] *)
Inductive ProvinceKey : Type :=
| ONTARIO
| QUEBEC
| ALBERTA
| BRITISH_COLUMBIA
| MANITOBA
| NEW_BRUNSWICK
| NOVA_SCOTIA
| NEWFOUNDLAND
| PRINCE_EDWARD_ISLAND
| SASKATCHEWAN
| NORTHWEST_TERRITORIES
| YUKON
| NUNAVUT.

Definition PROVINCE_CODES (k : ProvinceKey) : jsstring :=
  match k with
  | ONTARIO => js "ON"
  | QUEBEC => js "QC"
  | ALBERTA => js "AB"
  | BRITISH_COLUMBIA => js "BC"
  | MANITOBA => js "MB"
  | NEW_BRUNSWICK => js "NB"
  | NOVA_SCOTIA => js "NS"
  | NEWFOUNDLAND => js "NL"
  | PRINCE_EDWARD_ISLAND => js "PE"
  | SASKATCHEWAN => js "SK"
  | NORTHWEST_TERRITORIES => js "NT"
  | YUKON => js "YT"
  | NUNAVUT => js "NU"
  end.

(** [Object.keys(PROVINCE_CODES)], in the order of the literal. *)
Definition province_keys : list ProvinceKey :=
  [ONTARIO; QUEBEC; ALBERTA; BRITISH_COLUMBIA; MANITOBA; NEW_BRUNSWICK;
   NOVA_SCOTIA; NEWFOUNDLAND; PRINCE_EDWARD_ISLAND; SASKATCHEWAN;
   NORTHWEST_TERRITORIES; YUKON; NUNAVUT].

Record LocalizedProvince : Type := mkLocalizedProvince {
  key : ProvinceKey;
  name : jsstring;
  code : jsstring;
}.

(** [{ provinces: Record<ProvinceKey, string> }]: a name for every key. *)
Record ProvinceNames : Type := mkProvinceNames {
  provinces : ProvinceKey -> jsstring;
}.

Definition getLocalizedProvince (provinceKey : ProvinceKey)
    (localeConfig : ProvinceNames) : LocalizedProvince :=
  mkLocalizedProvince provinceKey
    (provinces localeConfig provinceKey)
    (PROVINCE_CODES provinceKey).

Definition getAllLocalizedProvinces (localeConfig : ProvinceNames)
    : list LocalizedProvince :=
  map (fun key => getLocalizedProvince key localeConfig) province_keys.

(** [s || ''] on a string: the empty string is the only falsy one. *)
Definition or_empty (s : option jsstring) : jsstring :=
  match s with
  | Some (c :: t) => c :: t
  | _ => []
  end.

Definition getProvinceCodeFromName (provinceName : jsstring)
    (localeConfig : ProvinceNames) : jsstring :=
  let province :=
    find (fun p => jsstring_eqb (name p) provinceName)
      (getAllLocalizedProvinces localeConfig) in
  or_empty (option_map code province).

(** The English names, for illustration. *)
Definition english_names : ProvinceNames :=
  mkProvinceNames (fun k =>
    match k with
    | ONTARIO => js "Ontario"
    | QUEBEC => js "Quebec"
    | ALBERTA => js "Alberta"
    | BRITISH_COLUMBIA => js "British Columbia"
    | MANITOBA => js "Manitoba"
    | NEW_BRUNSWICK => js "New Brunswick"
    | NOVA_SCOTIA => js "Nova Scotia"
    | NEWFOUNDLAND => js "Newfoundland and Labrador"
    | PRINCE_EDWARD_ISLAND => js "Prince Edward Island"
    | SASKATCHEWAN => js "Saskatchewan"
    | NORTHWEST_TERRITORIES => js "Northwest Territories"
    | YUKON => js "Yukon"
    | NUNAVUT => js "Nunavut"
    end).

(** ** The locale loader (locale-loader.ts) *)

Inductive locale : Type :=
| en
| fr.

Section Loader.

Context {NM : NumberModel} {R : Realm}.

(** What [readFileSync] followed by [JSON.parse] finds under a path of the
    i18n directory: no file, text that is not JSON, or a document. *)
Inductive stored : Type :=
| Missing
| Malformed
| Document (v : value).

(** The i18n directory, [tests/i18n/{locale}/{filename}]. *)
Definition i18n_store : Type := locale -> jsstring -> stored.

(** A computation that reads the store and may throw. *)
Definition IO (A : Type) : Type := i18n_store -> exn A * i18n_store.

Definition io_bind {A B : Type} (c : IO A) (f : A -> IO B) : IO B :=
  fun fs =>
    match c fs with
    | (Ok a, fs') => f a fs'
    | (Throw e, fs') => (Throw e, fs')
    end.

Definition io_lift {A : Type} (r : exn A) : IO A := fun fs => (r, fs).

Definition loadJsonFile (l : locale) (filename : jsstring) : IO value :=
  fun fs =>
    (match fs l filename with
     | Missing => Throw ENOENT
     | Malformed => Throw SyntaxError
     | Document v => Ok v
     end, fs).

(** [LocaleConfig]; [cfg_urls] holds the properties of the [urls] object. *)
Record LocaleConfig : Type := mkLocaleConfig {
  cfg_signup : value;
  cfg_provinces : value;
  cfg_urls : list (jsstring * value);
}.

Definition index_key (i : nat) : jsstring :=
  js (NilZero.string_of_uint (Nat.to_uint i)).

(** The properties a spread [...v] copies. *)
Definition spread (v : value) : list (jsstring * value) :=
  match v with
  | VObj _ props => props
  | VArr _ elems => combine (map index_key (List.seq 0 (length elems))) elems
  | VStr s =>
      combine (map index_key (List.seq 0 (length s))) (map (fun c => VStr [c]) s)
  | _ => []
  end.

(** A property written after a spread: in place when the key is there, at
    the end otherwise. *)
Fixpoint set_property (props : list (jsstring * value)) (k : jsstring)
    (v : value) : list (jsstring * value) :=
  match props with
  | [] => [(k, v)]
  | (k', v') :: rest =>
      if jsstring_eqb k' k then (k, v) :: rest
      else (k', v') :: set_property rest k v
  end.

(** [v.startsWith(prefix)]: only a string has the method. *)
Definition call_startsWith (v : value) (prefix : jsstring) : exn bool :=
  match v with
  | VStr s => Ok (startsWith s prefix)
  | _ => Throw TypeError
  end.

(** The truthiness of an optional string argument. *)
Definition truthy (baseUrl : option jsstring) : bool :=
  match baseUrl with
  | Some (_ :: _) => true
  | _ => false
  end.

(** [baseUrl.endsWith('/') ? baseUrl.slice(0, -1) : baseUrl] *)
Definition normalize_base (baseUrl : jsstring) : jsstring :=
  if endsWith baseUrl (js "/") then slice_0_m1 baseUrl else baseUrl.

(** The object literal of the branch [if (baseUrl)], property by property. *)
Definition resolve_urls (urls : value) (baseUrl : jsstring)
    : exn (list (jsstring * value)) :=
  let base := normalize_base baseUrl in
  signup_member <~ get_member urls (js "signup") ;;
  signup_text <~ to_string signup_member ;;
  login_member <~ get_member urls (js "login") ;;
  login_text <~ to_string login_member ;;
  terms_member <~ get_member urls (js "termsOfService") ;;
  absolute <~ call_startsWith terms_member (js "http") ;;
  terms <~ (if absolute then Ok terms_member
            else
              terms_text <~ to_string terms_member ;;
              Ok (VStr (js "https://www.nesto.ca" ++ terms_text))) ;;
  Ok [(js "signup", VStr (base ++ signup_text));
      (js "baseUrl", VStr base);
      (js "login", VStr (base ++ login_text));
      (js "termsOfService", terms)].

Definition loadLocaleConfig (l : locale) (baseUrl : option jsstring)
    : IO LocaleConfig :=
  io_bind (loadJsonFile l (js "signup.json")) (fun signup =>
  io_bind (loadJsonFile l (js "provinces.json")) (fun provinces =>
  io_bind (loadJsonFile l (js "urls.json")) (fun urls =>
  let config :=
    mkLocaleConfig signup provinces
      (set_property (spread urls) (js "baseUrl") (VStr (or_empty baseUrl))) in
  match baseUrl with
  | Some (c :: rest) =>
      io_lift
        (resolved <~ resolve_urls urls (c :: rest) ;;
         Ok (mkLocaleConfig (cfg_signup config) (cfg_provinces config) resolved))
  | _ => io_lift (Ok config)
  end))).

(** A field of the [urls] object of a configuration. *)
Definition url_field (config : LocaleConfig) (field : jsstring) : value :=
  or_undefined (own_property (cfg_urls config) field).

(** The same field of the outcome of a load, when it returned. *)
Definition loaded_url (outcome : exn LocaleConfig) (field : jsstring)
    : option value :=
  match outcome with
  | Ok config => Some (url_field config field)
  | Throw _ => None
  end.

(** A store whose [urls.json] holds a relative signup route, an absolute
    login route and a relative terms route. *)
Definition sample_urls : value :=
  VObj 0 [(js "signup", VStr (js "/signup"));
          (js "login", VStr (js "https://auth.nesto.ca/login"));
          (js "termsOfService", VStr (js "/terms"))].

Definition sample_store : i18n_store :=
  fun _ filename =>
    if jsstring_eqb filename (js "urls.json") then Document sample_urls
    else Document (VObj 1 []).

End Loader.

(** ** [generateUniqueEmail] and [generatePhoneNumber] (test-helpers.ts)

    The numbers these functions print are integers the code has just
    computed ([Date.now()], a floored product), far below the size at which
    a Number is printed with an exponent: their text is [decimal]. *)

(** [timestamp] is the reading of [Date.now()]. *)
Definition generateUniqueEmail (src : random_source) (timestamp : Z)
    : Rand jsstring :=
  r <- Math_random src ;;
  let random := Qfloor (r * inject_Z 10000) in
  ret (js "testuser" ++ decimal timestamp ++ decimal random
         ++ js "@example.com").

Definition areaCodes : list jsstring :=
  [js "416"; js "647"; js "437"; js "514"; js "438"; js "450"; js "613";
   js "819"; js "905"; js "289"; js "365"].

(** [Math.floor(1000000 + r * 9000000)] *)
Definition seven_digits (r : Q) : Z :=
  Qfloor (inject_Z 1000000 + r * inject_Z 9000000).

(** [`${x}`] for an array element that may be [undefined]. *)
Definition element_text (x : option jsstring) : jsstring :=
  match x with
  | Some s => s
  | None => js "undefined"
  end.

Definition generatePhoneNumber (src : random_source) : Rand (exn jsstring) :=
  picked <- getRandomValue src areaCodes ;;
  match picked with
  | Throw e => ret (Throw e)
  | Ok areaCode =>
      r <- Math_random src ;;
      let number := seven_digits r in
      ret (Ok (element_text areaCode ++ decimal number))
  end.

(** ** The page object (SignupPage.ts) *)

(** [s.trim()]: white space and line terminators, the code points of [\s],
    are removed at both ends. *)
Fixpoint trimStart (s : jsstring) : jsstring :=
  match s with
  | [] => []
  | c :: s' => if is_space c then trimStart s' else s
  end.

Definition trim (s : jsstring) : jsstring := rev (trimStart (rev (trimStart s))).

(** A code unit that [trim] removes. *)
Definition blank (c : code_unit) : Prop := is_space c = true.

(** The callback of [getSelectedProvince]:
    [selectedOption ? selectedOption.textContent?.trim() || "" : ""], where
    [options] holds the [textContent] of each option ([None] for [null]) and
    [selectedIndex] is -1 when nothing is selected. *)
Definition selectedText (options : list (option jsstring)) (selectedIndex : Z)
    : jsstring :=
  match element_at options selectedIndex with
  | Some textContent => or_empty (option_map trim textContent)
  | None => []
  end.

(** The selectors of [getValidationErrors]. *)
Definition errorSelectors : list jsstring :=
  [js "[role=" ++ [dquote] ++ js "alert" ++ [dquote] ++ js "]";
   js ".error";
   js "[class*=" ++ [dquote] ++ js "error" ++ [dquote] ++ js "]";
   js "[class*=" ++ [dquote] ++ js "invalid" ++ [dquote] ++ js "]"].

(** [if (text && text.trim()) errors.push(text.trim())] *)
Definition push_text (errors : list jsstring) (text : option jsstring)
    : list jsstring :=
  match text with
  | Some (c :: t) =>
      match trim (c :: t) with
      | [] => errors
      | e :: rest => errors ++ [e :: rest]
      end
  | _ => errors
  end.

(** What one element contributes: its trimmed text, unless that is empty. *)
Definition shown_text (text : option jsstring) : list jsstring :=
  match text with
  | Some t =>
      match trim t with
      | [] => []
      | e :: rest => [e :: rest]
      end
  | None => []
  end.

(** [page selector] is the [textContent] of the elements that
    [page.locator(selector).all()] finds, in their order. *)
Definition getValidationErrors (page : jsstring -> list (option jsstring))
    : list jsstring :=
  fold_left
    (fun errors selector => fold_left push_text (page selector) errors)
    errorSelectors [].

(** ** The fixture (base.fixtures.ts) *)

(** [process.env.NAME || fallback]: an unset and an empty variable both give
    the fallback. *)
Definition env_or (variable : option jsstring) (fallback : jsstring) : jsstring :=
  match variable with
  | Some (c :: s) => c :: s
  | _ => fallback
  end.

(** [process.env.ENV || 'dev'] *)
Definition fixture_environment (ENV : option jsstring) : jsstring :=
  env_or ENV (js "dev").

(** [process.env.BASE_URL || `https://app.${environment}.nesto.ca`] *)
Definition fixture_baseUrl (BASE_URL ENV : option jsstring) : jsstring :=
  env_or BASE_URL (js "https://app." ++ fixture_environment ENV ++ js ".nesto.ca").

Section Callers.

Context {NM : NumberModel} {R : Realm}.

(** The [localeConfig] fixture, for the locale key [l] that the [LOCALE]
    variable spells. *)
Definition fixture_localeConfig (l : locale) (BASE_URL ENV : option jsstring)
    : IO LocaleConfig :=
  loadLocaleConfig l (Some (fixture_baseUrl BASE_URL ENV)).

(** ** [setupApiInterception] (api-interceptor.ts) *)

(** A RegExp as the predicate uses it.  [test] reads [lastIndex] and, under
    the flags g and y, moves it: [regexp_test i url] is the answer of
    [test(url)] when [lastIndex] is [i], and the [lastIndex] it leaves. *)
Record RegExp : Type := mkRegExp {
  regexp_test : nat -> jsstring -> bool * nat;
  lastIndex : nat;
}.

(** A pattern without the flags g and y: [test] searches the whole text and
    leaves [lastIndex] as it is. *)
Definition plain_regexp (p : pattern) : RegExp :=
  mkRegExp (fun i url => (regex_test p url, i)) 0.

(** [s.indexOf(text)] *)
Fixpoint indexOf (s text : jsstring) : option nat :=
  if startsWith s text then Some 0
  else match s with
       | [] => None
       | _ :: s' => option_map S (indexOf s' text)
       end.

(** [/text/g] for a text without special characters: the search starts at
    [lastIndex], a match moves [lastIndex] to its end and a failure resets
    it to 0. *)
Definition global_text_regexp (text : jsstring) : RegExp :=
  mkRegExp
    (fun i url =>
       if Nat.leb i (length url)
       then match indexOf (skipn i url) text with
            | Some k => (true, i + k + length text)
            | None => (false, 0)
            end
       else (false, 0))
    0.

(** [string | RegExp] *)
Inductive url_pattern : Type :=
| UrlText (s : jsstring)
| UrlRegExp (re : RegExp).

(** A response the page receives: its URL, the method of its request, its
    status, and what [response.json()] gives ([None] when it rejects). *)
Record Response : Type := mkResponse {
  response_url : jsstring;
  request_method : jsstring;
  response_status : Z;
  response_json : option value;
}.

Record ApiResponse : Type := mkApiResponse {
  api_status : Z;
  api_body : value;
}.

(** The predicate handed to [page.waitForResponse]: its answer, and the
    pattern as the call leaves it. *)
Definition interception_predicate (urlPattern : url_pattern)
    (requestMethod : jsstring) (resp : Response) : bool * url_pattern :=
  let url := response_url resp in
  let method := request_method resp in
  let (urlMatches, urlPattern') :=
    match urlPattern with
    | UrlText s => (includes url s, urlPattern)
    | UrlRegExp re =>
        let (found, i) := regexp_test re (lastIndex re) url in
        (found, UrlRegExp (mkRegExp (regexp_test re) i))
    end in
  (urlMatches && jsstring_eqb method requestMethod, urlPattern').

(** [page.waitForResponse(predicate)]: the predicate is asked about each
    response as it arrives, and the first response it accepts settles the
    wait; [None] is the wait that none of [responses] ends. *)
Fixpoint waitForResponse {S : Type} (predicate : S -> Response -> bool * S)
    (state : S) (responses : list Response) : option Response :=
  match responses with
  | [] => None
  | resp :: rest =>
      let (accepted, state') := predicate state resp in
      if accepted then Some resp else waitForResponse predicate state' rest
  end.

(** [{ status, body }], the body falling back on a new empty object (of
    reference [fresh]) when decoding fails. *)
Definition to_ApiResponse (fresh : ref) (response : Response) : ApiResponse :=
  mkApiResponse (response_status response)
    (match response_json response with
     | Some v => v
     | None => VObj fresh []
     end).

(** [responses] are the responses that arrive after the call, in order. *)
Definition setupApiInterception (responses : list Response) (fresh : ref)
    (urlPattern : url_pattern) (requestMethod_arg : option jsstring)
    : option ApiResponse :=
  let requestMethod :=
    match requestMethod_arg with
    | Some m => m
    | None => js "POST"
    end in
  option_map (to_ApiResponse fresh)
    (waitForResponse
       (fun pattern resp => interception_predicate pattern requestMethod resp)
       urlPattern responses).

(** ** [createTestUser] (signup.spec.ts) *)

(** What the calls of faker return. *)
Record FakerValues : Type := mkFakerValues {
  faker_firstName : jsstring;      (* faker.person.firstName() *)
  faker_lastName : jsstring;       (* faker.person.lastName() *)
  faker_numeric10 : jsstring;      (* faker.string.numeric(10) *)
  faker_email : jsstring;          (* faker.internet.email() *)
}.

(** [{ ...target, ...source }]: the properties of [source] are written over
    [target] one after the other. *)
Definition assign (target : list (jsstring * value)) (source : value)
    : list (jsstring * value) :=
  fold_left (fun acc p => set_property acc (fst p) (snd p)) (spread source) target.

(** The properties of a test user before the overrides are written. *)
Definition default_user (faker : FakerValues) (localeConfig : ProvinceNames)
    (password : jsstring) : list (jsstring * value) :=
  [(js "firstName", VStr (faker_firstName faker));
   (js "lastName", VStr (faker_lastName faker));
   (js "phoneNumber", VStr (faker_numeric10 faker));
   (js "province", VStr (provinces localeConfig ONTARIO));
   (js "email", VStr (faker_email faker));
   (js "password", VStr password);
   (js "confirmPassword", VStr password);
   (js "partnerContact", VBool false)].

(** [overrides] is [VUndefined] when the caller leaves it out; the result is
    the list of properties of the returned object. *)
Definition createTestUser (sort : shuffle_sort) (src : random_source)
    (faker : FakerValues) (localeConfig : ProvinceNames) (overrides : value)
    : Rand (list (jsstring * value)) :=
  password <- generateValidPassword sort src ;;
  let phoneNumber := faker_numeric10 faker in
  let ontarioProvince := getLocalizedProvince ONTARIO localeConfig in
  let defaultUserData :=
    [(js "firstName", VStr (faker_firstName faker));
     (js "lastName", VStr (faker_lastName faker));
     (js "phoneNumber", VStr phoneNumber);
     (js "province", VStr (name ontarioProvince));
     (js "email", VStr (faker_email faker));
     (js "password", VStr password);
     (js "confirmPassword", VStr password);
     (js "partnerContact", VBool false)] in
  ret (assign defaultUserData overrides).

End Callers.

(* ================================================================= *)
(** * Part II. Properties *)
(* ================================================================= *)

(** ** Strings *)

Lemma jsstring_eqb_eq (a b : jsstring) : jsstring_eqb a b = true <-> a = b.
Proof.
  revert b; induction a as [|x a IH]; intros [|y b]; simpl; split;
    try congruence; try reflexivity.
  - intros H. apply andb_true_iff in H as [Hx Hab].
    apply N.eqb_eq in Hx. apply IH in Hab. congruence.
  - intros H. injection H as -> ->. rewrite N.eqb_refl. now apply IH.
Qed.

Lemma jsstring_eqb_refl (a : jsstring) : jsstring_eqb a a = true.
Proof. now apply jsstring_eqb_eq. Qed.

Lemma startsWith_spec (s p : jsstring) :
  startsWith s p = true <-> exists t, s = p ++ t.
Proof.
  revert s; induction p as [|x p IH]; intros s; simpl.
  - split; [intros _; now exists s | reflexivity].
  - destruct s as [|y s].
    + split; [discriminate | intros [t Ht]; discriminate].
    + rewrite andb_true_iff, N.eqb_eq, IH. split.
      * intros [-> [t ->]]. now exists t.
      * intros [t Ht]. injection Ht as -> ->. split; [reflexivity | now exists t].
Qed.

Lemma startsWith_app (p t : jsstring) : startsWith (p ++ t) p = true.
Proof. apply startsWith_spec. now exists t. Qed.

Lemma includes_spec (s p : jsstring) :
  includes s p = true <-> exists a b, s = a ++ p ++ b.
Proof.
  induction s as [|c s IH].
  - simpl. rewrite orb_false_r, startsWith_spec. split.
    + intros [t Ht]. now exists [], t.
    + intros [a [b Hab]]. destruct a; [now exists b | discriminate].
  - change (includes (c :: s) p) with (startsWith (c :: s) p || includes s p).
    rewrite orb_true_iff, startsWith_spec, IH. split.
    + intros [[t Ht] | [a [b Hab]]].
      * now exists [], t.
      * exists (c :: a), b. simpl. now rewrite Hab.
    + intros [[|x a] [b Hab]].
      * left. now exists b.
      * right. injection Hab as _ Hab. now exists a, b.
Qed.

Lemma includes_app (a p b : jsstring) : includes (a ++ p ++ b) p = true.
Proof. apply includes_spec. now exists a, b. Qed.

Lemma includes_refl (s : jsstring) : includes s s = true.
Proof. apply includes_spec. exists [], []. simpl. now rewrite app_nil_r. Qed.

Lemma split_on_not_nil (sep : code_unit) (s : jsstring) : split_on sep s <> [].
Proof.
  induction s as [|c s IH]; simpl; [discriminate|].
  destruct (N.eqb c sep); [discriminate|].
  destruct (split_on sep s); discriminate.
Qed.

(** ** The matcher decides the language of a pattern *)

Ltac inv H := inversion H; subst; clear H.

Lemma lang_none (s : jsstring) : ~ Lang RNone s.
Proof. intros H; inv H. Qed.

Lemma lang_eps (s : jsstring) : Lang REps s <-> s = [].
Proof. split; [intros H; now inv H | intros ->; constructor]. Qed.

Lemma lang_lit (x : code_unit) (s : jsstring) : Lang (RLit x) s <-> s = [x].
Proof. split; [intros H; now inv H | intros ->; constructor]. Qed.

Lemma lang_set negated atoms (s : jsstring) :
  Lang (RSet negated atoms) s <->
  exists c, s = [c] /\ class_mem negated atoms c = true.
Proof.
  split.
  - intros H; inv H. eauto.
  - intros [c [-> Hc]]. now constructor.
Qed.

Lemma lang_seq r1 r2 (s : jsstring) :
  Lang (RSeq r1 r2) s <-> exists s1 s2, s = s1 ++ s2 /\ Lang r1 s1 /\ Lang r2 s2.
Proof.
  split.
  - intros H; inv H. eauto.
  - intros [s1 [s2 [-> [H1 H2]]]]. now constructor.
Qed.

Lemma lang_alt r1 r2 (s : jsstring) :
  Lang (RAlt r1 r2) s <-> Lang r1 s \/ Lang r2 s.
Proof.
  split.
  - intros H; inv H; auto.
  - intros [H | H]; [now apply LAltL | now apply LAltR].
Qed.

Lemma lang_plus r (s : jsstring) :
  Lang (RPlus r) s <-> exists s1 s2, s = s1 ++ s2 /\ Lang r s1 /\ Lang (RStar r) s2.
Proof.
  split.
  - intros H; inv H. eauto.
  - intros [s1 [s2 [-> [H1 H2]]]]. now constructor.
Qed.

Lemma lang_seq_smart r1 r2 (s : jsstring) :
  Lang (mk_seq r1 r2) s <-> Lang (RSeq r1 r2) s.
Proof.
  destruct r1; simpl; try reflexivity.
  - split; intros H; [now apply lang_none in H|].
    apply lang_seq in H as [s1 [s2 [_ [H _]]]]. now apply lang_none in H.
  - rewrite lang_seq. split.
    + intros H. exists [], s. repeat split; [constructor | assumption].
    + intros [s1 [s2 [-> [H1 H2]]]]. apply lang_eps in H1. now subst.
Qed.

Lemma lang_alt_smart r1 r2 (s : jsstring) :
  Lang (mk_alt r1 r2) s <-> Lang (RAlt r1 r2) s.
Proof.
  rewrite lang_alt.
  destruct r1, r2; simpl; rewrite ?lang_alt; try reflexivity;
    split; auto; intros [H | H]; auto; now apply lang_none in H.
Qed.

Lemma nullable_spec r : nullable r = true <-> Lang r [].
Proof.
  induction r; simpl.
  - split; [discriminate | intros H; inv H].
  - split; [constructor | reflexivity].
  - split; [discriminate | intros H; inv H].
  - split; [discriminate | intros H; inv H].
  - rewrite andb_true_iff, IHr1, IHr2, lang_seq. split.
    + intros [H1 H2]. now exists [], [].
    + intros [s1 [s2 [E [H1 H2]]]]. symmetry in E.
      apply app_eq_nil in E as [-> ->]. auto.
  - rewrite orb_true_iff, IHr1, IHr2, lang_alt. reflexivity.
  - split; [constructor | reflexivity].
  - rewrite IHr, lang_plus. split.
    + intros H. exists [], []. repeat split; [assumption | constructor].
    + intros [s1 [s2 [E [H1 H2]]]]. symmetry in E.
      apply app_eq_nil in E as [-> ->]. assumption.
Qed.

(** A non-empty match of [r*] starts with a non-empty match of [r]. *)
Lemma lang_star_cons r c (s : jsstring) :
  Lang (RStar r) (c :: s) <->
  exists s1 s2, s = s1 ++ s2 /\ Lang r (c :: s1) /\ Lang (RStar r) s2.
Proof.
  split.
  - intros H. remember (RStar r) as r' eqn:Er. remember (c :: s) as w eqn:Ew.
    revert Er c s Ew.
    induction H; intros Er c0 s0 Ew; try discriminate.
    injection Er as ->.
    destruct s1 as [|x s1].
    + simpl in Ew. now apply IHLang2.
    + injection Ew as -> <-. now exists s1, s2.
  - intros [s1 [s2 [-> [H1 H2]]]].
    change (c :: s1 ++ s2) with ((c :: s1) ++ s2). now constructor.
Qed.

Lemma lang_seq_cons r1 r2 c (s : jsstring) :
  Lang (RSeq r1 r2) (c :: s) <->
  (exists s1 s2, s = s1 ++ s2 /\ Lang r1 (c :: s1) /\ Lang r2 s2) \/
  (Lang r1 [] /\ Lang r2 (c :: s)).
Proof.
  rewrite lang_seq. split.
  - intros [[|x s1] [s2 [E [H1 H2]]]].
    + simpl in E. subst s2. now right.
    + injection E as <- ->. left. now exists s1, s2.
  - intros [[s1 [s2 [-> [H1 H2]]]] | [H1 H2]].
    + now exists (c :: s1), s2.
    + now exists [], (c :: s).
Qed.

Lemma der_spec r c (s : jsstring) : Lang (der c r) s <-> Lang r (c :: s).
Proof.
  revert s; induction r; intros s; simpl.
  - split; intros H; inv H.
  - split; intros H; inv H.
  - rewrite lang_lit. destruct (N.eqb_spec c c0) as [->|Hne].
    + rewrite lang_eps. split; [now intros -> | congruence].
    + split; [intros H; now apply lang_none in H | congruence].
  - rewrite lang_set. destruct (class_mem negated atoms c) eqn:Hc.
    + rewrite lang_eps. split.
      * intros ->. now exists c.
      * intros [c' [E _]]. congruence.
    + split; [intros H; now apply lang_none in H|].
      intros [c' [E Hc']]. injection E as <- ->. congruence.
  - rewrite lang_seq_cons. destruct (nullable r1) eqn:Hn.
    + rewrite lang_alt_smart, lang_alt, lang_seq_smart, lang_seq.
      apply nullable_spec in Hn. split.
      * intros [[s1 [s2 [-> [H1 H2]]]] | H].
        -- left. exists s1, s2. repeat split; [now apply IHr1 | assumption].
        -- right. split; [assumption | now apply IHr2].
      * intros [[s1 [s2 [-> [H1 H2]]]] | [_ H]].
        -- left. exists s1, s2. repeat split; [now apply IHr1 | assumption].
        -- right. now apply IHr2.
    + rewrite lang_seq_smart, lang_seq. split.
      * intros [s1 [s2 [-> [H1 H2]]]].
        left. exists s1, s2. repeat split; [now apply IHr1 | assumption].
      * intros [[s1 [s2 [-> [H1 H2]]]] | [H _]].
        -- exists s1, s2. repeat split; [now apply IHr1 | assumption].
        -- apply nullable_spec in H. congruence.
  - rewrite lang_alt_smart, !lang_alt, IHr1, IHr2. reflexivity.
  - rewrite lang_seq_smart, lang_seq, lang_star_cons. split.
    + intros [s1 [s2 [-> [H1 H2]]]].
      exists s1, s2. repeat split; [now apply IHr | assumption].
    + intros [s1 [s2 [-> [H1 H2]]]].
      exists s1, s2. repeat split; [now apply IHr | assumption].
  - rewrite lang_seq_smart, lang_seq, lang_plus. split.
    + intros [s1 [s2 [-> [H1 H2]]]].
      exists (c :: s1), s2. repeat split; [now apply IHr | assumption].
    + intros [[|x s1] [s2 [E [H1 H2]]]].
      * simpl in E. subst s2. apply lang_star_cons in H2 as [t1 [t2 [-> [G1 G2]]]].
        exists t1, t2. repeat split; [now apply IHr | assumption].
      * injection E as <- ->.
        exists s1, s2. repeat split; [now apply IHr | assumption].
Qed.

Theorem matchb_spec r (s : jsstring) : matchb r s = true <-> Lang r s.
Proof.
  unfold matchb. revert r; induction s as [|c s IH]; intros r; simpl.
  - apply nullable_spec.
  - rewrite IH. apply der_spec.
Qed.

Lemma lang_star_any (s : jsstring) : Lang (RStar any_unit) s.
Proof.
  induction s as [|c s IH]; [constructor|].
  change (c :: s) with ([c] ++ s). constructor; [|assumption].
  now constructor.
Qed.

(** [regex_test] is the search the engine performs. *)
Theorem regex_test_spec (p : pattern) (s : jsstring) :
  regex_test p s = true <-> Test p s.
Proof.
  unfold regex_test, Test, search_form. rewrite matchb_spec, lang_seq. split.
  - intros [pre [rest [-> [Hpre Hrest]]]].
    apply lang_seq in Hrest as [m [post [-> [Hm Hpost]]]].
    exists pre, m, post. repeat split; try assumption.
    + intros Ha. rewrite Ha in Hpre. now apply lang_eps in Hpre.
    + intros Ha. rewrite Ha in Hpost. now apply lang_eps in Hpost.
  - intros [pre [m [post [-> [Hm [Hs He]]]]]].
    exists pre, (m ++ post). repeat split.
    + destruct (anchor_start p); [rewrite Hs by reflexivity; constructor|].
      apply lang_star_any.
    + apply lang_seq. exists m, post. repeat split; [assumption|].
      destruct (anchor_end p); [rewrite He by reflexivity; constructor|].
      apply lang_star_any.
Qed.

(** An unanchored one-class pattern asks whether some code unit is in the
    class. *)
Lemma regex_test_class negated atoms (s : jsstring) :
  regex_test (mkPattern false (RSet negated atoms) false) s
  = existsb (class_mem negated atoms) s.
Proof.
  apply eq_true_iff_eq. rewrite regex_test_spec, existsb_exists. unfold Test; simpl.
  split.
  - intros [pre [m [post [-> [Hm _]]]]].
    apply lang_set in Hm as [c [-> Hc]]. exists c. split; [|assumption].
    apply in_or_app. right. now left.
  - intros [c [Hin Hc]]. apply in_split in Hin as [pre [post ->]].
    exists pre, [c], post. repeat split; try discriminate. now constructor.
Qed.

(** ** The email validator *)

Lemma not_space_at_mem (c : code_unit) :
  class_mem true [CSpace; CChar (cu "@")] c = true <-> plain_unit c.
Proof.
  unfold class_mem, plain_unit, existsb, atom_mem. rewrite orb_false_r.
  destruct (is_space c); cbn [orb xorb negb].
  - split; [discriminate | intros [H _]; discriminate].
  - destruct (N.eqb_spec c (cu "@")) as [E|E]; cbn [xorb].
    + split; [discriminate | intros [_ H]; contradiction].
    + split; auto.
Qed.

Lemma lang_star_class negated atoms (s : jsstring) :
  Lang (RStar (RSet negated atoms)) s <->
  Forall (fun c => class_mem negated atoms c = true) s.
Proof.
  induction s as [|c s IH].
  - split; constructor.
  - rewrite lang_star_cons. split.
    + intros [s1 [s2 [-> [H1 H2]]]].
      apply lang_set in H1 as [c' [E Hc]]. injection E as <- E.
      symmetry in E; subst s1; simpl in *. constructor; [assumption | now apply IH].
    + intros H. inversion H as [|? ? Hc Hs]; subst.
      exists [], s. repeat split; [now constructor | now apply IH].
Qed.

Lemma lang_plus_class negated atoms (s : jsstring) :
  Lang (RPlus (RSet negated atoms)) s <->
  s <> [] /\ Forall (fun c => class_mem negated atoms c = true) s.
Proof.
  rewrite lang_plus. split.
  - intros [s1 [s2 [-> [H1 H2]]]].
    apply lang_set in H1 as [c [-> Hc]]. split; [discriminate|].
    constructor; [assumption | now apply lang_star_class].
  - intros [Hne H]. destruct s as [|c s]; [contradiction|].
    inversion H as [|? ? Hc Hs]; subst.
    exists [c], s. repeat split; [now constructor | now apply lang_star_class].
Qed.

Lemma lang_plain_run (s : jsstring) :
  Lang (RPlus not_space_at) s <-> s <> [] /\ Forall plain_unit s.
Proof.
  unfold not_space_at. rewrite lang_plus_class.
  split; intros [Hne H]; (split; [assumption|]);
    (eapply Forall_impl; [|exact H]); intros c Hc; now apply not_space_at_mem.
Qed.

(** The pattern accepts exactly the strings of shape [local@left.right]. *)
Lemma isValidEmail_shape (email : jsstring) :
  isValidEmail email = true <-> email_shape email.
Proof.
  unfold isValidEmail, email_shape. rewrite regex_test_spec.
  unfold Test; simpl. split.
  - intros [pre [m [post [-> [Hm [Hpre Hpost]]]]]].
    rewrite (Hpre eq_refl), (Hpost eq_refl), app_nil_r; simpl.
    apply lang_seq in Hm as [local [r1 [-> [Hl Hm]]]].
    apply lang_seq in Hm as [at_ [r2 [-> [Hat Hm]]]].
    apply lang_seq in Hm as [left [r3 [-> [Hd1 Hm]]]].
    apply lang_seq in Hm as [dot [right [-> [Hdot Hd2]]]].
    apply lang_lit in Hat, Hdot. subst at_ dot.
    apply lang_plain_run in Hl as [? ?], Hd1 as [? ?], Hd2 as [? ?].
    exists local, left, right. repeat split; assumption.
  - intros [local [left [right [-> [H1 [H2 [H3 [F1 [F2 F3]]]]]]]]].
    exists [], (local ++ [cu "@"] ++ left ++ [cu "."] ++ right), [].
    rewrite app_nil_r. repeat split; try reflexivity.
    repeat (apply LSeq); try apply LLit; apply lang_plain_run; now split.
Qed.

(** What the claim asks of every accepted address: one [@] between a local
    part and a domain, no white space and no further [@] in either, and a
    dot in the domain. *)
Lemma isValidEmail_only_if (email : jsstring) :
  isValidEmail email = true ->
  exists local domain,
    email = local ++ [cu "@"] ++ domain /\
    Forall plain_unit local /\ Forall plain_unit domain /\ In (cu ".") domain.
Proof.
  intros H. apply isValidEmail_shape in H
    as [local [left [right [-> [H1 [H2 [H3 [F1 [F2 F3]]]]]]]]].
  exists local, (left ++ [cu "."] ++ right). repeat split; try assumption.
  - apply Forall_app. split; [assumption|]. constructor; [|assumption].
    split; [reflexivity | discriminate].
  - apply in_or_app. right. now left.
Qed.

(** C2 (counterexample): the address with two consecutive dots in its local
    part matches the pattern, so the validator accepts it. *)
Lemma C2_double_dot_accepted :
  isValidEmail (js "invalid..email@example.com") = true.
Proof. vm_compute. reflexivity. Qed.

(** C2 (amended): the validator rejects "invalid-email", "invalid@" and
    "@invalid.com", accepts "invalid..email@example.com" and
    "john.doe@example.com", and accepts a string exactly when it reads
    local@left.right with the three parts non-empty and free of white space
    and of [@]; every accepted string therefore has a single [@] separating
    a local part from a domain that contains a dot. *)
Theorem C2_isValidEmail_contract :
  isValidEmail (js "invalid-email") = false /\
  isValidEmail (js "invalid@") = false /\
  isValidEmail (js "@invalid.com") = false /\
  isValidEmail (js "invalid..email@example.com") = true /\
  isValidEmail (js "john.doe@example.com") = true /\
  (forall email, isValidEmail email = true <-> email_shape email) /\
  (forall email, isValidEmail email = true ->
     exists local domain,
       email = local ++ [cu "@"] ++ domain /\
       Forall plain_unit local /\ Forall plain_unit domain /\
       In (cu ".") domain).
Proof.
  repeat split; try (vm_compute; reflexivity);
    try apply isValidEmail_shape; try apply isValidEmail_only_if.
Qed.

Lemma C2_isValidEmail_witness :
  exists local domain,
    js "john.doe@example.com" = local ++ [cu "@"] ++ domain /\
    Forall plain_unit local /\ Forall plain_unit domain /\
    In (cu ".") domain.
Proof.
  apply (proj2 (proj2 (proj2 (proj2 (proj2 (proj2 C2_isValidEmail_contract)))))
           (js "john.doe@example.com")).
  vm_compute. reflexivity.
Defined.

(** ** The password validator *)

Lemma range_mem (lo hi c : code_unit) :
  class_mem false [CRange lo hi] c = true <-> (lo <= c <= hi)%N.
Proof.
  unfold class_mem, existsb, atom_mem. rewrite orb_false_r. cbn [xorb].
  rewrite andb_true_iff, !N.leb_le. reflexivity.
Qed.

Lemma regex_test_range (lo hi : code_unit) (s : jsstring) :
  regex_test (mkPattern false (RSet false [CRange lo hi]) false) s = true <->
  exists c, In c s /\ (lo <= c <= hi)%N.
Proof.
  rewrite regex_test_class, existsb_exists.
  split; intros [c [Hin Hc]]; exists c; (split; [assumption|]);
    now apply range_mem.
Qed.

(** The five messages are distinct, so each names its rule. *)
Lemma jsstring_neq (a b : jsstring) : jsstring_eqb a b = false -> a <> b.
Proof. intros H E. apply jsstring_eqb_eq in E. congruence. Qed.

Lemma isValidPassword_errors (password : jsstring) :
  pw_errors (isValidPassword password) = violations password.
Proof.
  unfold isValidPassword, violations, push_if; cbn [pw_errors].
  destruct (length password <? 12), (32 <? length password),
    (regex_test has_upper_re password), (regex_test has_lower_re password),
    (regex_test has_digit_re password); reflexivity.
Qed.

Lemma isValidPassword_isValid (password : jsstring) :
  pw_isValid (isValidPassword password)
  = (length (pw_errors (isValidPassword password)) =? 0).
Proof. reflexivity. Qed.

Ltac msg_cases :=
  repeat match goal with
  | H : _ \/ _ |- _ => destruct H as [H | H]
  | H : _ /\ _ |- _ => destruct H as [? ?]
  | H : False |- _ => contradiction
  | H : ?a = ?b |- _ =>
      exfalso; revert H; apply jsstring_neq; vm_compute; reflexivity
  end.

Lemma in_violations (password m : jsstring) :
  In m (violations password) <->
  (m = msg_min_length /\ length password < 12) \/
  (m = msg_max_length /\ 32 < length password) \/
  (m = msg_uppercase /\ regex_test has_upper_re password = false) \/
  (m = msg_lowercase /\ regex_test has_lower_re password = false) \/
  (m = msg_number /\ regex_test has_digit_re password = false).
Proof.
  unfold violations. rewrite !in_app_iff.
  destruct (Nat.ltb_spec (length password) 12),
    (Nat.ltb_spec 32 (length password)),
    (regex_test has_upper_re password), (regex_test has_lower_re password),
    (regex_test has_digit_re password); cbn [In];
    intuition (try discriminate; try lia; auto).
Qed.

Lemma violations_nil (password : jsstring) :
  violations password = [] <->
  12 <= length password <= 32 /\
  regex_test has_upper_re password = true /\
  regex_test has_lower_re password = true /\
  regex_test has_digit_re password = true.
Proof.
  unfold violations.
  destruct (Nat.ltb_spec (length password) 12),
    (Nat.ltb_spec 32 (length password)),
    (regex_test has_upper_re password), (regex_test has_lower_re password),
    (regex_test has_digit_re password); cbn [app];
    intuition (try discriminate; try lia; auto).
Qed.

Lemma violations_NoDup (password : jsstring) : NoDup (violations password).
Proof.
  unfold violations.
  destruct (length password <? 12), (32 <? length password),
    (regex_test has_upper_re password), (regex_test has_lower_re password),
    (regex_test has_digit_re password); cbn [app];
    repeat (constructor; [cbn [In]; intros H; msg_cases|]); constructor.
Qed.

Lemma not_true_iff (b : bool) : b = false <-> ~ b = true.
Proof. destruct b; split; congruence. Qed.

(** C3: a password is valid exactly when its length is within 12..32 and it
    has an uppercase letter, a lowercase letter and a digit; the error list
    holds the message of every violated rule (and of no other rule), in the
    order min-length, max-length, uppercase, lowercase, digit; and validity
    is the emptiness of that list. *)
Theorem C3_isValidPassword_contract (password : jsstring) :
  let r := isValidPassword password in
  (pw_isValid r = true <->
     12 <= length password <= 32 /\
     (exists c, In c password /\ is_upper c) /\
     (exists c, In c password /\ is_lower c) /\
     (exists c, In c password /\ is_digit c)) /\
  (pw_isValid r = true <-> pw_errors r = []) /\
  pw_errors r = violations password /\
  (In msg_min_length (pw_errors r) <-> length password < 12) /\
  (In msg_max_length (pw_errors r) <-> 32 < length password) /\
  (In msg_uppercase (pw_errors r) <-> ~ exists c, In c password /\ is_upper c) /\
  (In msg_lowercase (pw_errors r) <-> ~ exists c, In c password /\ is_lower c) /\
  (In msg_number (pw_errors r) <-> ~ exists c, In c password /\ is_digit c) /\
  NoDup (pw_errors r).
Proof.
  cbv zeta. rewrite isValidPassword_isValid, isValidPassword_errors.
  assert (Hu : regex_test has_upper_re password = true <->
               exists c, In c password /\ is_upper c)
    by apply regex_test_range.
  assert (Hl : regex_test has_lower_re password = true <->
               exists c, In c password /\ is_lower c)
    by apply regex_test_range.
  assert (Hd : regex_test has_digit_re password = true <->
               exists c, In c password /\ is_digit c)
    by apply regex_test_range.
  assert (Hnil : (length (violations password) =? 0) = true <->
                 violations password = []).
  { rewrite Nat.eqb_eq. apply length_zero_iff_nil. }
  split; [|split; [|split; [|split; [|split; [|split; [|split; [|split]]]]]]].
  - rewrite Hnil, violations_nil, Hu, Hl, Hd. reflexivity.
  - exact Hnil.
  - reflexivity.
  - rewrite in_violations. split; [intros H; msg_cases; assumption | auto].
  - rewrite in_violations. split; [intros H; msg_cases; assumption | auto].
  - rewrite in_violations, <- Hu, <- not_true_iff.
    split; [intros H; msg_cases; assumption | auto 6].
  - rewrite in_violations, <- Hl, <- not_true_iff.
    split; [intros H; msg_cases; assumption | auto 7].
  - rewrite in_violations, <- Hd, <- not_true_iff.
    split; [intros H; msg_cases; assumption | auto 8].
  - apply violations_NoDup.
Qed.

(** The inputs the suite feeds the signup form, one per rule. *)
Example isValidPassword_samples :
  pw_errors (isValidPassword (js "Short1")) = [msg_min_length] /\
  pw_errors (isValidPassword (repeat (cu "A") 33 ++ js "1"))
    = [msg_max_length; msg_lowercase] /\
  pw_errors (isValidPassword (js "12characters12")) = [msg_uppercase] /\
  pw_errors (isValidPassword (js "12CHARACTERS12")) = [msg_lowercase] /\
  pw_errors (isValidPassword (js "NoNumberinPasswordHere")) = [msg_number].
Proof. repeat split; vm_compute; reflexivity. Qed.

(** ** The password generator *)

Section Generator.

Variable src : random_source.
Hypothesis src_unit : forall k, in_unit_interval (src k).

Variable sort : shuffle_sort.
Hypothesis sort_rearranges : rearranges sort.

(** A draw scaled by [n] and floored is an index below [n]. *)
Lemma floor_times_range (k n : nat) :
  0 < n -> (0 <= floor_times (src k) n < Z.of_nat n)%Z.
Proof.
  intros Hn. destruct (src_unit k) as [H0 H1]. unfold floor_times.
  set (q := inject_Z (Z.of_nat n)).
  assert (Hq : (0 < q)%Q).
  { unfold q. change 0%Q with (inject_Z 0). rewrite <- Zlt_Qlt. lia. }
  split.
  - change 0%Z with (Qfloor 0). apply Qfloor_resp_le.
    apply Qmult_le_0_compat; [assumption | now apply Qlt_le_weak].
  - rewrite Zlt_Qlt. fold q.
    apply Qle_lt_trans with (src k * q)%Q; [apply Qfloor_le|].
    rewrite <- (Qmult_1_l q) at 2. apply Qmult_lt_compat_r; assumption.
Qed.

(** A pick from a non-empty alphabet is one of its characters and costs one
    draw. *)
Lemma random_char_in (s : jsstring) (k : nat) :
  s <> [] ->
  exists c, random_char src s k = (Some c, S k) /\ In c s.
Proof.
  intros Hs. unfold random_char, bind, Math_random, ret, char_at.
  assert (Hlen : 0 < length s) by (destruct s; [contradiction | simpl; lia]).
  destruct (floor_times_range k Hlen) as [Hlo Hhi].
  destruct (Z.ltb_spec (floor_times (src k) (length s)) 0) as [Hneg|_]; [lia|].
  destruct (nth_error s (Z.to_nat (floor_times (src k) (length s)))) as [c|] eqn:E.
  - exists c. split; [reflexivity | eapply nth_error_In; eassumption].
  - apply nth_error_None in E. lia.
Qed.

(** [getRandomValue] throws on the empty array without drawing, and picks
    an element of a non-empty one with one draw. *)
Lemma getRandomValue_spec {T : Type} (array : list T) (k : nat) :
  match array with
  | [] =>
      getRandomValue src array k
      = (Throw (ErrorWith (js "Cannot get random value from empty array")), k)
  | _ :: _ =>
      exists x, getRandomValue src array k = (Ok (Some x), S k) /\ In x array
  end.
Proof.
  destruct array as [|a array]; [reflexivity|].
  unfold getRandomValue, bind, Math_random, ret, element_at.
  change (length (a :: array) =? 0) with false. cbv iota.
  assert (Hlen : 0 < length (a :: array)) by (simpl; lia).
  destruct (floor_times_range k Hlen) as [Hlo Hhi].
  destruct (Z.ltb_spec (floor_times (src k) (length (a :: array))) 0); [lia|].
  destruct (nth_error (a :: array)
              (Z.to_nat (floor_times (src k) (length (a :: array)))))
    as [x|] eqn:E.
  - exists x. split; [reflexivity | eapply nth_error_In; eassumption].
  - apply nth_error_None in E. lia.
Qed.

Lemma fill_remaining_spec (n : nat) (acc : jsstring) (k : nat) :
  exists picked,
    fst (fill_remaining src n acc k) = acc ++ picked /\
    length picked = n /\ Forall (fun c => In c allChars) picked.
Proof.
  revert acc k; induction n as [|n IH]; intros acc k; simpl.
  - exists []. rewrite app_nil_r. repeat split. constructor.
  - unfold bind at 1.
    destruct (@random_char_in allChars k) as [c [-> Hc]]; [discriminate|].
    destruct (IH (acc ++ addend_text (addend_of (Some c))) (S k))
      as [picked [-> [Hlen Hall]]].
    exists (c :: picked). simpl. rewrite <- app_assoc. simpl.
    repeat split; [now rewrite Hlen | now constructor].
Qed.

Lemma join_nil_concat (l : list jsstring) : join [] l = concat l.
Proof.
  induction l as [|a l IH]; [reflexivity|].
  destruct l as [|b l]; [simpl; now rewrite app_nil_r|].
  change (join [] (a :: b :: l)) with (a ++ [] ++ join [] (b :: l)).
  rewrite IH. reflexivity.
Qed.

Lemma concat_split_units (s : jsstring) : concat (split_units s) = s.
Proof.
  unfold split_units. induction s as [|c s IHs]; simpl; [reflexivity|].
  now rewrite IHs.
Qed.

Lemma join_split_units (l : list jsstring) (s : jsstring) :
  Permutation (split_units s) l -> Permutation s (join [] l).
Proof.
  intros H.
  rewrite join_nil_concat.
  rewrite <- (concat_split_units s).
  induction H; simpl.
  - constructor.
  - now apply Permutation_app_head.
  - rewrite !app_assoc. apply Permutation_app_tail, Permutation_app_comm.
  - eapply Permutation_trans; eassumption.
Qed.

(** The generator returns a rearrangement of an uppercase letter, a lowercase
    letter, a digit and nine more picks. *)
Lemma generateValidPassword_shape (k : nat) :
  exists u l d rest,
    In u uppercase /\ In l lowercase /\ In d numbers /\
    length rest = 9 /\
    Permutation (u :: l :: d :: rest) (fst (generateValidPassword sort src k)).
Proof.
  unfold generateValidPassword.
  unfold bind at 1.
  destruct (@random_char_in uppercase k) as [u [-> Hu]]; [discriminate|].
  unfold bind at 1.
  destruct (@random_char_in lowercase (S k)) as [l [-> Hl]]; [discriminate|].
  unfold bind at 1.
  destruct (@random_char_in numbers (S (S k))) as [d [-> Hd]]; [discriminate|].
  unfold bind at 1.
  destruct (fill_remaining_spec remainingLength [] (S (S (S k))))
    as [rest [Hrest [Hlen _]]].
  destruct (fill_remaining src remainingLength [] (S (S (S k))))
    as [remaining k4] eqn:Efill.
  simpl in Hrest. subst remaining.
  exists u, l, d, rest. repeat split; try assumption.
  cbn [addend_of js_add addend_text app].
  unfold bind at 1.
  pose proof (sort_rearranges src (split_units (u :: l :: d :: rest)) k4) as Hp.
  destruct (sort src (split_units (u :: l :: d :: rest)) k4) as [shuffled k5].
  cbn [ret fst] in *. now apply join_split_units.
Qed.

End Generator.

Lemma alphabet_classes :
  Forall is_upper uppercase /\ Forall is_lower lowercase /\ Forall is_digit numbers.
Proof.
  repeat split; repeat constructor; unfold is_upper, is_lower, is_digit;
    vm_compute; repeat split; discriminate.
Qed.

Lemma insert_random_perm (src : random_source) (x : jsstring)
    (l : list jsstring) (k : nat) :
  Permutation (x :: l) (fst (insert_random src x l k)).
Proof.
  revert k; induction l as [|y l IH]; intros k; simpl.
  - apply Permutation_refl.
  - unfold bind, Math_random.
    destruct (Qlt_le_dec (src k - (1 # 2)) 0); simpl.
    + apply Permutation_refl.
    + specialize (IH (S k)).
      destruct (insert_random src x l (S k)) as [rest k']; simpl in *.
      eapply Permutation_trans; [apply perm_swap|]. now apply perm_skip.
Qed.

Lemma insertion_sort_rearranges : rearranges insertion_sort.
Proof.
  intros src l. induction l as [|x l IH]; intros k; simpl.
  - apply Permutation_refl.
  - unfold bind. specialize (IH k).
    destruct (insertion_sort src l k) as [sorted k']; simpl in *.
    eapply Permutation_trans; [apply perm_skip, IH|].
    apply insert_random_perm.
Qed.

(** C4: whatever the draws (each in [0, 1)) and whatever rearrangement the
    engine's sort leaves, the generated password has exactly 12 code units,
    among them an uppercase letter, a lowercase letter and a digit, and the
    validator accepts it with no violation. *)
Theorem C4_generateValidPassword_valid
    (sort : shuffle_sort) (src : random_source) (k : nat) :
  (forall i, in_unit_interval (src i)) ->
  rearranges sort ->
  let password := fst (generateValidPassword sort src k) in
  length password = 12 /\
  (exists c, In c password /\ is_upper c) /\
  (exists c, In c password /\ is_lower c) /\
  (exists c, In c password /\ is_digit c) /\
  isValidPassword password = mkPasswordCheck true [].
Proof.
  intros Hsrc Hsort password.
  destruct (@generateValidPassword_shape src Hsrc sort Hsort k)
    as [u [l [d [rest [Hu [Hl [Hd [Hlen Hperm]]]]]]]].
  fold password in Hperm.
  destruct alphabet_classes as [Aup [Alow Adig]].
  rewrite Forall_forall in Aup, Alow, Adig.
  assert (Hlen12 : length password = 12).
  { rewrite <- (Permutation_length Hperm). simpl. now rewrite Hlen. }
  assert (Hup : exists c, In c password /\ is_upper c).
  { exists u. split; [|now apply Aup].
    eapply Permutation_in; [exact Hperm | now left]. }
  assert (Hlow : exists c, In c password /\ is_lower c).
  { exists l. split; [|now apply Alow].
    eapply Permutation_in; [exact Hperm | right; now left]. }
  assert (Hdig : exists c, In c password /\ is_digit c).
  { exists d. split; [|now apply Adig].
    eapply Permutation_in; [exact Hperm | right; right; now left]. }
  repeat (split; [assumption|]).
  assert (Hv : violations password = []).
  { apply violations_nil. repeat split; try lia; now apply regex_test_range. }
  pose proof (isValidPassword_errors password) as He.
  pose proof (isValidPassword_isValid password) as Hi.
  destruct (isValidPassword password) as [v e]; simpl in *.
  subst v e. rewrite Hv. reflexivity.
Qed.

Lemma sample_source_unit (i : nat) : in_unit_interval (sample_source i).
Proof.
  unfold in_unit_interval, sample_source, Qle, Qlt; cbn [Qnum Qden].
  assert (H : (i * 37) mod 101 < 101) by (apply Nat.mod_upper_bound; discriminate).
  revert H. generalize ((i * 37) mod 101). intros m H. lia.
Qed.

Lemma C4_generateValidPassword_witness :
  let password := fst (generateValidPassword insertion_sort sample_source 0) in
  length password = 12 /\
  (exists c, In c password /\ is_upper c) /\
  (exists c, In c password /\ is_lower c) /\
  (exists c, In c password /\ is_digit c) /\
  isValidPassword password = mkPasswordCheck true [].
Proof.
  exact (@C4_generateValidPassword_valid insertion_sort sample_source 0
           sample_source_unit insertion_sort_rearranges).
Defined.

(** ** The decimal text of an integer *)

Lemma js_length (s : string) : length (js s) = String.length s.
Proof.
  unfold js. rewrite length_map.
  induction s as [|a s IH]; simpl; [reflexivity | now rewrite IH].
Qed.

Lemma cu_inj (a b : ascii) : cu a = cu b -> a = b.
Proof.
  unfold cu. intros H.
  rewrite <- (ascii_N_embedding a), <- (ascii_N_embedding b). now rewrite H.
Qed.

Lemma js_inj (a b : string) : js a = js b -> a = b.
Proof.
  unfold js. revert b; induction a as [|x a IH]; intros [|y b]; simpl;
    try discriminate; [reflexivity|].
  intros H. injection H as Hx Hab. apply cu_inj in Hx. apply IH in Hab.
  congruence.
Qed.

Lemma digit_is_plain (c : code_unit) : is_digit c -> plain_unit c.
Proof.
  unfold is_digit. intros H.
  assert (E : (c = 48 \/ c = 49 \/ c = 50 \/ c = 51 \/ c = 52 \/ c = 53 \/
               c = 54 \/ c = 55 \/ c = 56 \/ c = 57)%N)
    by (change (cu "0") with 48%N in H; change (cu "9") with 57%N in H; lia).
  repeat (destruct E as [-> | E]; [split; [reflexivity | discriminate]|]).
  subst c. split; [reflexivity | discriminate].
Qed.

Lemma uint_text_digits (d : Decimal.uint) :
  Forall is_digit (js (NilEmpty.string_of_uint d)).
Proof.
  induction d; simpl; constructor; try assumption;
    unfold is_digit; vm_compute; split; discriminate.
Qed.

Lemma uint_text_length (d : Decimal.uint) :
  length (js (NilEmpty.string_of_uint d)) = Decimal.nb_digits d.
Proof.
  rewrite js_length.
  induction d; cbn [NilEmpty.string_of_uint String.length Decimal.nb_digits];
    congruence.
Qed.

Lemma decimal_pos (p : positive) :
  decimal (Z.pos p) = js (NilEmpty.string_of_uint (Pos.to_uint p)).
Proof.
  unfold decimal. simpl. unfold NilZero.string_of_uint.
  pose proof (DecimalPos.Unsigned.to_uint_nonnil p) as Hn.
  now destruct (Pos.to_uint p).
Qed.

(** The text of a non-negative integer is made of digits; a negative one has
    a minus sign in front. *)
Lemma decimal_digits (z : Z) : (0 <= z)%Z -> Forall is_digit (decimal z).
Proof.
  destruct z as [|p|p]; intros H; [| |lia].
  - assert (E : decimal 0 = [cu "0"]) by reflexivity. rewrite E.
    constructor; [|constructor]. unfold is_digit; vm_compute; split; discriminate.
  - rewrite decimal_pos. apply uint_text_digits.
Qed.

Lemma decimal_plain (z : Z) : Forall plain_unit (decimal z).
Proof.
  destruct z as [|p|p].
  - eapply Forall_impl; [apply digit_is_plain | now apply decimal_digits].
  - eapply Forall_impl; [apply digit_is_plain | now apply decimal_digits].
  - unfold decimal. simpl. constructor.
    + split; [reflexivity | discriminate].
    + change (Forall plain_unit (js (NilZero.string_of_uint (Pos.to_uint p)))).
      pose proof (decimal_pos p) as E. unfold decimal in E. simpl in E.
      rewrite E. eapply Forall_impl; [apply digit_is_plain|].
      apply uint_text_digits.
Qed.

Lemma decimal_not_nil (z : Z) : decimal z <> [].
Proof.
  destruct z as [|p|p]; try discriminate.
  rewrite decimal_pos. intros E. apply (f_equal (@length _)) in E.
  rewrite uint_text_length in E. simpl in E.
  apply DecimalFacts.nb_digits_0 in E.
  now apply (DecimalPos.Unsigned.to_uint_nonnil p).
Qed.

(** Distinct integers have distinct texts. *)
Lemma decimal_inj (a b : Z) : decimal a = decimal b -> a = b.
Proof.
  unfold decimal. intros H. apply js_inj in H.
  apply DecimalZ.to_int_inj.
  assert (Hnil : forall z, Z.to_int z <> Decimal.Pos Decimal.Nil /\
                           Z.to_int z <> Decimal.Neg Decimal.Nil).
  { intros [|p|p]; simpl; split; try discriminate; intros E; injection E as E;
      now apply (DecimalPos.Unsigned.to_uint_nonnil p). }
  assert (Some (Z.to_int a) = Some (Z.to_int b)) as E.
  { rewrite <- (NilZero.isi (Z.to_int a) (proj1 (Hnil a)) (proj2 (Hnil a))).
    rewrite <- (NilZero.isi (Z.to_int b) (proj1 (Hnil b)) (proj2 (Hnil b))).
    now rewrite H. }
  now injection E.
Qed.

(** The value of a little-endian digit string, against its length. *)
Lemma of_lu_upper (d : Decimal.uint) :
  (DecimalPos.Unsigned.of_lu d < 10 ^ N.of_nat (Decimal.nb_digits d))%N.
Proof.
  induction d; cbn [DecimalPos.Unsigned.of_lu Decimal.nb_digits];
    rewrite ?Nat2N.inj_succ, ?N.pow_succ_r'; simpl N.of_nat; lia.
Qed.

Lemma of_lu_lower (d : Decimal.uint) :
  DecimalFacts.nztail d = d -> d <> Decimal.Nil ->
  (10 ^ N.of_nat (Decimal.nb_digits d) <= 10 * DecimalPos.Unsigned.of_lu d)%N.
Proof.
  induction d; intros Hn Hd; [contradiction|..];
    cbn [DecimalFacts.nztail] in Hn;
    assert (Hx : DecimalFacts.nztail d = d)
      by (destruct (DecimalFacts.nztail d) eqn:E; try discriminate; congruence);
    cbn [DecimalPos.Unsigned.of_lu Decimal.nb_digits];
    rewrite Nat2N.inj_succ, N.pow_succ_r';
    (assert (Hd' : d = Decimal.Nil \/ d <> Decimal.Nil)
       by (destruct d; [left; reflexivity | right; discriminate ..]));
    (destruct Hd' as [-> | Hd'];
     [simpl in *; try discriminate; lia | specialize (IHd Hx Hd'); lia]).
Qed.

(** The number of digits of a positive integer. *)
Lemma decimal_length (z : Z) (k : nat) :
  (10 ^ Z.of_nat k <= z < 10 ^ Z.of_nat (S k))%Z -> length (decimal z) = S k.
Proof.
  intros [Hlo Hhi].
  assert (Hpos : (0 < z)%Z).
  { assert (0 < 10 ^ Z.of_nat k)%Z by (apply Z.pow_pos_nonneg; lia). lia. }
  destruct z as [|p|p]; try lia.
  rewrite decimal_pos, uint_text_length.
  unfold Pos.to_uint. rewrite DecimalFacts.nb_digits_rev.
  set (d := Pos.to_little_uint p).
  assert (Hval : DecimalPos.Unsigned.of_lu d = N.pos p).
  { unfold d. rewrite <- DecimalPos.Unsigned.of_lu_rev.
    apply DecimalPos.Unsigned.of_to. }
  assert (Hnorm : DecimalFacts.nztail d = d /\ d <> Decimal.Nil).
  { pose proof (DecimalPos.Unsigned.to_of_lu d) as E. rewrite Hval in E.
    change (DecimalPos.Unsigned.to_lu (N.pos p)) with d in E.
    unfold DecimalFacts.lnorm in E.
    destruct (DecimalFacts.nztail d) eqn:En.
    - exfalso. rewrite E in Hval. discriminate.
    - split; [now symmetry | rewrite E; discriminate].
    - split; [now symmetry | rewrite E; discriminate].
    - split; [now symmetry | rewrite E; discriminate].
    - split; [now symmetry | rewrite E; discriminate].
    - split; [now symmetry | rewrite E; discriminate].
    - split; [now symmetry | rewrite E; discriminate].
    - split; [now symmetry | rewrite E; discriminate].
    - split; [now symmetry | rewrite E; discriminate].
    - split; [now symmetry | rewrite E; discriminate].
    - split; [now symmetry | rewrite E; discriminate]. }
  destruct Hnorm as [Hnz Hnil].
  pose proof (of_lu_upper d) as Hup.
  pose proof (of_lu_lower Hnz Hnil) as Hlow.
  rewrite Hval in Hup, Hlow.
  set (n := Decimal.nb_digits d) in *.
  assert (Hp : (Z.pos p = Z.of_N (N.pos p))%Z) by reflexivity.
  assert (Hup' : (Z.pos p < 10 ^ Z.of_nat n)%Z).
  { rewrite Hp. apply N2Z.inj_lt in Hup. rewrite N2Z.inj_pow in Hup.
    now rewrite nat_N_Z in Hup. }
  assert (Hlow' : (10 ^ Z.of_nat n <= 10 * Z.pos p)%Z).
  { rewrite Hp. apply N2Z.inj_le in Hlow.
    rewrite N2Z.inj_mul, N2Z.inj_pow, nat_N_Z in Hlow. exact Hlow. }
  destruct (Nat.lt_trichotomy n (S k)) as [Hlt | [Heq | Hgt]]; [|exact Heq|].
  - exfalso.
    assert (10 ^ Z.of_nat n <= 10 ^ Z.of_nat k)%Z
      by (apply Z.pow_le_mono_r; lia).
    lia.
  - exfalso.
    assert (10 * 10 ^ Z.of_nat (S k) <= 10 ^ Z.of_nat n)%Z.
    { rewrite <- Z.pow_succ_r by lia. apply Z.pow_le_mono_r; lia. }
    lia.
Qed.

(** ** Index keys *)

Lemma digits_value_text (d : Decimal.uint) (acc : nat) :
  digits_value acc (js (NilEmpty.string_of_uint d)) = Some (Nat.of_uint_acc d acc).
Proof.
  revert acc; induction d; intros acc;
    cbn [NilEmpty.string_of_uint Nat.of_uint_acc]; [reflexivity|..];
    change (js (String ?a ?s)) with (cu a :: js s);
    cbn [digits_value];
    match goal with
    | |- context [digit_value ?c] =>
        let v := eval vm_compute in (digit_value c) in
        change (digit_value c) with v
    end;
    cbv iota beta; rewrite IHd; f_equal; f_equal;
    rewrite Nat.tail_mul_spec; lia.
Qed.

(** The text of an index reads back as the index. *)
Lemma array_index_index_key (i : nat) : array_index (index_key i) = Some i.
Proof.
  unfold index_key.
  pose proof (DecimalNat.Unsigned.to_of (Nat.to_uint i)) as Hnorm.
  rewrite DecimalNat.Unsigned.of_to in Hnorm.
  pose proof (DecimalNat.Unsigned.of_to i) as Hval.
  set (d := Nat.to_uint i) in *.
  assert (Hd : d = Decimal.zero \/
               (d <> Decimal.Nil /\ forall d', d <> Decimal.D0 d')).
  { rewrite Hnorm. unfold Decimal.unorm.
    pose proof (DecimalFacts.nzhead_nonzero d) as Hnz.
    destruct (Decimal.nzhead d); [left; reflexivity|right; split; [discriminate|]..];
      try (intros d'; discriminate).
    intros d'. apply Hnz. }
  destruct Hd as [Hz | [Hnil Hnz]].
  - rewrite Hz in *. simpl in Hval. subst i. reflexivity.
  - assert (Et : NilZero.string_of_uint d = NilEmpty.string_of_uint d)
      by (destruct d; [contradiction | reflexivity ..]).
    rewrite Et. unfold array_index.
    pose proof (digits_value_text d 0) as Hparse.
    unfold Nat.of_uint in Hval. rewrite Hval in Hparse.
    destruct d; try contradiction; try (now destruct (Hnz d));
      change (js (NilEmpty.string_of_uint (?D d))) with
        (js (NilEmpty.string_of_uint (D d))) in *;
      cbn [NilEmpty.string_of_uint] in *;
      change (js (String ?a ?s)) with (cu a :: js s) in *;
      exact Hparse.
Qed.

Lemma index_key_plain (i : nat) :
  ~ In (cu ".") (index_key i) /\ jsstring_eqb (index_key i) (js "length") = false.
Proof.
  unfold index_key.
  assert (Hd : forall d, Forall is_digit (js (NilZero.string_of_uint d))).
  { intros d. destruct d; try apply uint_text_digits.
    repeat constructor; vm_compute; discriminate. }
  specialize (Hd (Nat.to_uint i)). split.
  - intros Hin. rewrite Forall_forall in Hd. apply Hd in Hin.
    unfold is_digit in Hin. vm_compute in Hin. destruct Hin as [H _]. now apply H.
  - destruct (js (NilZero.string_of_uint (Nat.to_uint i))) as [|c s]; [reflexivity|].
    inversion Hd as [|? ? Hc _]; subst. cbn [jsstring_eqb js].
    change (js "length") with (cu "l" :: js "ength"). cbn [jsstring_eqb].
    destruct (N.eqb_spec c (cu "l")) as [->|_]; [|reflexivity].
    exfalso. unfold is_digit in Hc. vm_compute in Hc. destruct Hc as [_ H].
    now apply H.
Qed.


(** ** Field resolution *)

Section VerifierFacts.

Context {NM : NumberModel} {R : Realm}.

Lemma defined_test (v : value) :
  negb (strict_equals v VUndefined) && negb (strict_equals v VNull)
  = negb (is_nullish v).
Proof. destruct v; reflexivity. Qed.

Lemma missing_test (v : value) :
  strict_equals v VUndefined || strict_equals v VNull = is_nullish v.
Proof. destruct v; reflexivity. Qed.

(** A member access finds the own member first, then the inherited one. *)
Lemma get_member_own (v : value) (key : jsstring) (member : value) :
  is_nullish v = false -> own_member v key = Some member ->
  get_member v key = Ok member.
Proof.
  intros Hn Hown. unfold get_member. rewrite Hown.
  destruct v; try reflexivity; discriminate.
Qed.

Lemma get_member_inherited (v : value) (key : jsstring) :
  is_nullish v = false -> own_member v key = None ->
  get_member v key
  = match inherited v key with
    | Some member => member
    | None => Ok VUndefined
    end.
Proof.
  intros Hn Hown. unfold get_member. rewrite Hown.
  destruct v; try reflexivity; discriminate.
Qed.

(** Only the getter of an inherited accessor makes a member access throw. *)
Lemma get_member_throws (v : value) (key : jsstring) (e : error) :
  is_nullish v = false -> get_member v key = Throw e ->
  inherited v key = Some (Throw e).
Proof.
  intros Hn. unfold get_member.
  assert (H : (match own_member v key with
               | Some member => Ok member
               | None => match inherited v key with
                         | Some member => member
                         | None => Ok VUndefined
                         end
               end) = Throw e -> inherited v key = Some (Throw e)).
  { destruct (own_member v key); [discriminate|].
    destruct (inherited v key) as [[w|e']|]; try discriminate.
    now intros [= ->]. }
  destruct v; try exact H; discriminate.
Qed.

Lemma optional_get_throws (current : value) (key : jsstring) (e : error) :
  optional_get current key = Throw e ->
  is_nullish current = false /\ inherited current key = Some (Throw e).
Proof.
  unfold optional_get. destruct (is_nullish current) eqn:Hn; [discriminate|].
  intros H. split; [reflexivity|]. now apply get_member_throws.
Qed.

Lemma optional_get_nullish (current : value) (key : jsstring) :
  is_nullish current = true -> optional_get current key = Ok VUndefined.
Proof. unfold optional_get. now intros ->. Qed.

Lemma reduce_app {A B : Type} (f : B -> A -> exn B) (l1 l2 : list A) (init : B) :
  reduce f (l1 ++ l2) init = (acc <~ reduce f l1 init ;; reduce f l2 acc).
Proof.
  revert init; induction l1 as [|x l1 IH]; intros init; simpl; [reflexivity|].
  destruct (f init x) as [acc|e]; simpl; [apply IH | reflexivity].
Qed.

Lemma reduce_throws (keys : list jsstring) (init : value) (e : error) :
  reduce (fun current key => optional_get current key) keys init = Throw e ->
  exists v key,
    In key keys /\ is_nullish v = false /\ inherited v key = Some (Throw e).
Proof.
  revert init; induction keys as [|k keys IH]; intros init; simpl; [discriminate|].
  destruct (optional_get init k) as [w|e'] eqn:E; simpl.
  - intros H. destruct (IH w H) as [v [key [Hin Hv]]].
    exists v, key. split; [now right | exact Hv].
  - intros [= ->]. apply optional_get_throws in E.
    exists init, k. split; [now left | exact E].
Qed.

Lemma reduce_undefined (keys : list jsstring) :
  reduce (fun current key => optional_get current key) keys VUndefined
  = Ok VUndefined.
Proof. induction keys as [|k keys IH]; simpl; [reflexivity | exact IH]. Qed.

(** Resolution throws only where the getter of an inherited accessor does,
    on one of the keys of the path. *)
Lemma getNestedValue_throws (obj : value) (path : jsstring) (e : error) :
  getNestedValue obj path = Throw e ->
  exists v key,
    In key (split_on (cu ".") path) /\ is_nullish v = false /\
    inherited v key = Some (Throw e).
Proof. apply reduce_throws. Qed.

(** So resolution returns a value unless a key of the path names an
    inherited accessor whose getter throws. *)
Lemma getNestedValue_returns (obj : value) (path : jsstring) :
  (forall v key e, In key (split_on (cu ".") path) ->
     inherited v key <> Some (Throw e)) ->
  exists fv, getNestedValue obj path = Ok fv.
Proof.
  intros H. destruct (getNestedValue obj path) as [fv|e] eqn:E; [eauto|].
  apply getNestedValue_throws in E as [v [key [Hin [_ Hthrow]]]].
  now destruct (H v key e Hin).
Qed.

(** Under [null] and [undefined] every path resolves to [undefined]. *)
Lemma getNestedValue_nullish (obj : value) (path : jsstring) :
  is_nullish obj = true -> getNestedValue obj path = Ok VUndefined.
Proof.
  intros H. unfold getNestedValue.
  destruct (split_on (cu ".") path) as [|k keys] eqn:E.
  - now apply split_on_not_nil in E.
  - simpl. rewrite (optional_get_nullish obj k H). simpl. apply reduce_undefined.
Qed.

Lemma split_on_app (sep : code_unit) (a b : jsstring) :
  split_on sep (a ++ sep :: b) = split_on sep a ++ split_on sep b.
Proof.
  induction a as [|c a IH]; simpl.
  - now rewrite N.eqb_refl.
  - destruct (N.eqb c sep); [now rewrite IH|].
    rewrite IH. destruct (split_on sep a) as [|w ws] eqn:E; [|reflexivity].
    now apply split_on_not_nil in E.
Qed.

Lemma split_on_no_sep (sep : code_unit) (s : jsstring) :
  ~ In sep s -> split_on sep s = [s].
Proof.
  induction s as [|c s IH]; intros Hn; simpl; [reflexivity|].
  destruct (N.eqb_spec c sep) as [->|_]; [exfalso; apply Hn; now left|].
  rewrite IH; [reflexivity|]. intros Hin. apply Hn. now right.
Qed.

(** A path is resolved segment by segment: what lies after a dot is resolved
    from the value found before it. *)
Lemma getNestedValue_dot (obj : value) (before after : jsstring) :
  getNestedValue obj (before ++ [cu "."] ++ after)
  = (v <~ getNestedValue obj before ;; getNestedValue v after).
Proof. unfold getNestedValue. simpl. now rewrite split_on_app, reduce_app. Qed.

Lemma getNestedValue_key (obj : value) (key : jsstring) :
  ~ In (cu ".") key -> getNestedValue obj key = optional_get obj key.
Proof.
  intros H. unfold getNestedValue. rewrite (split_on_no_sep (cu ".") key H). simpl.
  now destruct (optional_get obj key).
Qed.

(** One key, read from a value that is neither [null] nor [undefined]. *)
Lemma getNestedValue_own (obj : value) (key : jsstring) (member : value) :
  ~ In (cu ".") key -> is_nullish obj = false ->
  own_member obj key = Some member ->
  getNestedValue obj key = Ok member.
Proof.
  intros Hk Hn Hown. rewrite (getNestedValue_key obj key Hk).
  unfold optional_get. rewrite Hn. now apply get_member_own.
Qed.

Lemma getNestedValue_inherited (obj : value) (key : jsstring) :
  ~ In (cu ".") key -> is_nullish obj = false ->
  own_member obj key = None ->
  getNestedValue obj key
  = match inherited obj key with
    | Some member => member
    | None => Ok VUndefined
    end.
Proof.
  intros Hk Hn Hown. rewrite (getNestedValue_key obj key Hk).
  unfold optional_get. rewrite Hn. now apply get_member_inherited.
Qed.

Lemma own_member_string_index (s : jsstring) (i : nat) :
  own_member (VStr s) (index_key i)
  = option_map (fun c => VStr [c]) (nth_error s i).
Proof.
  destruct (index_key_plain i) as [_ Hlen]. unfold own_member.
  now rewrite Hlen, array_index_index_key.
Qed.

Lemma own_member_array_index (r : ref) (elems : list value) (i : nat) :
  own_member (VArr r elems) (index_key i) = nth_error elems i.
Proof.
  destruct (index_key_plain i) as [_ Hlen]. unfold own_member.
  now rewrite Hlen, array_index_index_key.
Qed.

(** The coercion to a string throws nothing but a TypeError. *)
Lemma to_string_throws_TypeError (v : value) :
  (exists t, to_string v = Ok t) \/ to_string v = Throw TypeError.
Proof.
  revert v. fix IH 1. intros [| |[]| | |r elems|r props|b]; simpl; eauto.
  - induction elems as [|e rest IHrest]; [eauto|].
    assert (He : (exists t, (if is_nullish e then Ok [] else to_string e) = Ok t)
                 \/ (if is_nullish e then Ok [] else to_string e)
                    = Throw TypeError).
    { destruct (is_nullish e); [eauto | apply IH]. }
    destruct He as [[t ->] | ->]; simpl; [|now right].
    destruct rest as [|e' rest']; [eauto|].
    destruct IHrest as [[t' ->] | ->]; simpl; eauto.
  - destruct (own_property props (js "toString")); eauto.
  - destruct (intrinsic_text b); eauto.
Qed.

Lemma to_string_error (v : value) (e : error) :
  to_string v = Throw e -> e = TypeError.
Proof.
  destruct (to_string_throws_TypeError v) as [[t ->] | ->]; congruence.
Qed.

(** A field name of the suite is read from the own properties alone. *)
Lemma get_member_suite_name (r : ref) (props : list (jsstring * value))
    (key : jsstring) :
  suite_name key = true ->
  get_member (VObj r props) key = Ok (or_undefined (own_property props key)).
Proof.
  intros H. unfold get_member. cbn [own_member].
  destruct (own_property props key); [reflexivity|].
  now rewrite (inherited_suite_name _ _ H).
Qed.

(** An object has a text unless an own [toString] property hides the
    inherited method. *)
Lemma to_string_object (r : ref) (props : list (jsstring * value)) :
  to_string (VObj r props) = Throw TypeError
  <-> own_property props (js "toString") <> None.
Proof.
  simpl. destruct (own_property props (js "toString")); split;
    try discriminate; congruence.
Qed.

(** ** The verifier, mode by mode *)

Lemma verify_defined (payload : value) (path : jsstring) (expected fv : value) :
  getNestedValue payload path = Ok fv ->
  verifyResponseBodyValue payload path expected (Some Defined)
  = Ok (mkVerification (negb (is_nullish fv))
          (if is_nullish fv
           then msg_not_defined path (template_text (JSON_stringify_2 payload))
           else [])).
Proof.
  intros H. unfold verifyResponseBodyValue. rewrite H. simpl.
  rewrite defined_test. now destruct (is_nullish fv).
Qed.

Lemma verify_missing (payload : value) (path : jsstring) (expected fv : value)
    (mode : comparison) :
  getNestedValue payload path = Ok fv ->
  is_nullish fv = true -> mode <> Defined ->
  verifyResponseBodyValue payload path expected (Some mode)
  = Ok (mkVerification false
          (msg_missing path (template_text (JSON_stringify expected))
             (template_text (JSON_stringify_2 payload)))).
Proof.
  intros H Hn Hm. unfold verifyResponseBodyValue. rewrite H. simpl.
  rewrite missing_test, Hn. destruct mode; [reflexivity | reflexivity | congruence].
Qed.

Lemma verify_equals (payload : value) (path : jsstring) (expected fv : value) :
  getNestedValue payload path = Ok fv -> is_nullish fv = false ->
  verifyResponseBodyValue payload path expected (Some Equals)
  = if strict_equals fv expected then Ok (mkVerification true [])
    else
      expectedText <~ to_string expected ;;
      fieldText <~ to_string fv ;;
      Ok (mkVerification false
            (msg_mismatch (js "equal") path expectedText fieldText
               (template_text (JSON_stringify_2 payload)))).
Proof.
  intros H Hn. unfold verifyResponseBodyValue. rewrite H. simpl.
  rewrite missing_test, Hn. now destruct (strict_equals fv expected).
Qed.

Lemma verify_contains (payload : value) (path : jsstring) (expected fv : value) :
  getNestedValue payload path = Ok fv -> is_nullish fv = false ->
  verifyResponseBodyValue payload path expected (Some Contains)
  = (fieldStr <~ to_string fv ;;
     expectedStr <~ to_string expected ;;
     if includes fieldStr expectedStr then Ok (mkVerification true [])
     else Ok (mkVerification false
                (msg_mismatch (js "contain") path expectedStr fieldStr
                   (template_text (JSON_stringify_2 payload))))).
Proof.
  intros H Hn. unfold verifyResponseBodyValue. rewrite H. simpl.
  rewrite missing_test, Hn.
  destruct (to_string fv) as [ft|]; simpl; [|reflexivity].
  destruct (to_string expected) as [et|]; simpl; [|reflexivity].
  now destruct (includes ft et).
Qed.

(** An error of the resolution is the error of the check. *)
Lemma verify_throws (payload : value) (path : jsstring) (expected : value)
    (mode : option comparison) (e : error) :
  getNestedValue payload path = Throw e ->
  verifyResponseBodyValue payload path expected mode = Throw e.
Proof. intros H. unfold verifyResponseBodyValue. now rewrite H. Qed.

(** A verdict of validity always comes with the empty message. *)
Lemma verify_valid_message (payload : value) (path : jsstring) (expected : value)
    (mode : option comparison) (r : verification) :
  verifyResponseBodyValue payload path expected mode = Ok r ->
  isValid r = true -> errorMessage r = [].
Proof.
  unfold verifyResponseBodyValue.
  destruct (getNestedValue payload path) as [fv|]; simpl; [|discriminate].
  destruct (comparison_eqb _ Defined).
  - intros E; injection E as <-. simpl. now intros ->.
  - destruct (strict_equals fv VUndefined || strict_equals fv VNull).
    + intros E; injection E as <-. discriminate.
    + destruct (comparison_eqb _ Equals).
      * destruct (strict_equals fv expected).
        -- intros E; injection E as <-. reflexivity.
        -- destruct (to_string expected); simpl; [|discriminate].
           destruct (to_string fv); simpl; [|discriminate].
           intros E; injection E as <-. discriminate.
      * destruct (to_string fv) as [ft|]; simpl; [|discriminate].
        destruct (to_string expected) as [et|]; simpl; [|discriminate].
        destruct (includes ft et).
        -- intros E; injection E as <-. reflexivity.
        -- intros E; injection E as <-. discriminate.
Qed.

(** When the check returns a verdict. *)
Lemma verify_returns (payload : value) (path : jsstring) (expected : value)
    (mode : option comparison) :
  (exists verdict,
     verifyResponseBodyValue payload path expected mode = Ok verdict) <->
  exists fv,
    getNestedValue payload path = Ok fv /\
    (mode = Some Defined \/ is_nullish fv = true \/
     (mode = Some Equals /\ strict_equals fv expected = true) \/
     ((exists t, to_string fv = Ok t) /\ (exists t, to_string expected = Ok t))).
Proof.
  assert (Hmode : exists m,
             verifyResponseBodyValue payload path expected mode
             = verifyResponseBodyValue payload path expected (Some m) /\
             (mode = Some Defined <-> m = Defined) /\
             (mode = Some Equals <-> m = Equals)).
  { destruct mode as [m|].
    - exists m. split; [reflexivity|]. split; split; congruence.
    - exists Contains. split; [reflexivity|]. split; split; discriminate. }
  destruct Hmode as [m [-> [HD HE]]].
  destruct (getNestedValue payload path) as [fv|e] eqn:Hfv.
  2: { rewrite (verify_throws payload path expected (Some m) Hfv).
       split; [intros [? ?]; discriminate | intros [? [? _]]; discriminate]. }
  split.
  - intros [verdict Hv]. exists fv. split; [reflexivity|].
    destruct m; [| |left; now apply HD].
    + destruct (is_nullish fv) eqn:Hn; [right; now left|].
      rewrite (verify_equals payload path expected Hfv Hn) in Hv.
      destruct (strict_equals fv expected);
        [right; right; left; split; [now apply HE | reflexivity]|].
      right; right; right.
      destruct (to_string expected); simpl in Hv; [|discriminate].
      destruct (to_string fv); simpl in Hv; [|discriminate]. eauto.
    + destruct (is_nullish fv) eqn:Hn; [right; now left|].
      rewrite (verify_contains payload path expected Hfv Hn) in Hv.
      right; right; right.
      destruct (to_string fv); simpl in Hv; [|discriminate].
      destruct (to_string expected); simpl in Hv; [|discriminate]. eauto.
  - intros [fv' [E Hcase]]. injection E as <-.
    destruct m; [| |rewrite (verify_defined payload path expected Hfv); eauto].
    + destruct (is_nullish fv) eqn:Hn.
      { rewrite (@verify_missing payload path expected fv Equals Hfv Hn)
          by discriminate. eauto. }
      rewrite (verify_equals payload path expected Hfv Hn).
      destruct Hcase as [Hd | [? | [[_ Heq] | [[ft Hft] [et Het]]]]].
      * apply HD in Hd. discriminate.
      * discriminate.
      * rewrite Heq. eauto.
      * rewrite Het, Hft. simpl. destruct (strict_equals fv expected); eauto.
    + destruct (is_nullish fv) eqn:Hn.
      { rewrite (@verify_missing payload path expected fv Contains Hfv Hn)
          by discriminate. eauto. }
      rewrite (verify_contains payload path expected Hfv Hn).
      destruct Hcase as [Hd | [? | [[He _] | [[ft Hft] [et Het]]]]].
      * apply HD in Hd. discriminate.
      * discriminate.
      * apply HE in He. discriminate.
      * rewrite Hft, Het. simpl. destruct (includes ft et); eauto.
Qed.

(** The error of a check that throws is that of the resolution, or the
    TypeError of the coercion of one of the two values to a string. *)
Lemma verify_error (payload : value) (path : jsstring) (expected : value)
    (mode : option comparison) (e : error) :
  verifyResponseBodyValue payload path expected mode = Throw e ->
  getNestedValue payload path = Throw e \/
  e = TypeError /\
  exists fv,
    getNestedValue payload path = Ok fv /\
    (to_string fv = Throw TypeError \/ to_string expected = Throw TypeError).
Proof.
  unfold verifyResponseBodyValue.
  destruct (getNestedValue payload path) as [fv|e']; simpl;
    [|intros [= ->]; now left].
  intros H. right.
  assert (Hc : to_string fv = Throw e \/ to_string expected = Throw e).
  { revert H.
    destruct (comparison_eqb _ Defined); [discriminate|].
    destruct (strict_equals fv VUndefined || strict_equals fv VNull);
      [discriminate|].
    destruct (comparison_eqb _ Equals).
    - destruct (strict_equals fv expected); [discriminate|].
      destruct (to_string expected) as [et|e1]; simpl; [|intros [= ->]; now right].
      destruct (to_string fv) as [ft|e2]; simpl; [discriminate|].
      intros [= ->]; now left.
    - destruct (to_string fv) as [ft|e2]; simpl; [|intros [= ->]; now left].
      destruct (to_string expected) as [et|e1]; simpl; [|intros [= ->]; now right].
      destruct (includes ft et); discriminate. }
  assert (He : e = TypeError)
    by (destruct Hc as [Hc | Hc]; exact (to_string_error _ Hc)).
  subst e. split; [reflexivity|]. exists fv. split; [reflexivity | exact Hc].
Qed.

End VerifierFacts.

Section VerifierClaims.

Context {NM : NumberModel} {R : Realm}.

(** C5: for the value [fv] the path resolves to, the 'equals' check
    succeeds (valid, empty message) exactly when [fv] is neither [undefined]
    nor [null] and [fv === expected]; the 'contains' check succeeds exactly
    when [fv] is neither [undefined] nor [null] and the text of [expected] is
    a substring of the text of [fv]; in both modes a [fv] that is
    [undefined] or [null] gives an invalid verdict whose message says that
    the field is missing and shows the expected value as JSON; the path
    does resolve to a value unless one of its keys names an inherited
    accessor whose getter throws, and then every mode throws the same
    error; and the payload {error: "invalid password"}, field "error",
    expected "invalid password" under 'contains' gives (true, ""). *)
Theorem C5_equals_contains (payload : value) (path : jsstring) (expected : value) :
  (forall fv, getNestedValue payload path = Ok fv ->
    (verifyResponseBodyValue payload path expected (Some Equals)
       = Ok (mkVerification true []) <->
     is_nullish fv = false /\ strict_equals fv expected = true) /\
    (verifyResponseBodyValue payload path expected (Some Contains)
       = Ok (mkVerification true []) <->
     is_nullish fv = false /\
     exists fieldStr expectedStr,
       to_string fv = Ok fieldStr /\ to_string expected = Ok expectedStr /\
       exists a b, fieldStr = a ++ expectedStr ++ b) /\
    (is_nullish fv = true ->
     forall mode, mode = Equals \/ mode = Contains ->
       let message :=
         msg_missing path (template_text (JSON_stringify expected))
           (template_text (JSON_stringify_2 payload)) in
       verifyResponseBodyValue payload path expected (Some mode)
         = Ok (mkVerification false message) /\
       startsWith message (path ++ js " is missing. Expected: "
                             ++ template_text (JSON_stringify expected)) = true)) /\
  ((forall v key e, In key (split_on (cu ".") path) ->
      inherited v key <> Some (Throw e)) ->
   exists fv, getNestedValue payload path = Ok fv) /\
  (forall e, getNestedValue payload path = Throw e ->
     forall mode, verifyResponseBodyValue payload path expected mode = Throw e) /\
  verifyResponseBodyValue payload_error (js "error")
    (VStr (js "invalid password")) (Some Contains)
    = Ok (mkVerification true []).
Proof.
  split; [|split; [|split]].
  2: { apply getNestedValue_returns. }
  2: { intros e He mode. now apply verify_throws. }
  2: { reflexivity. }
  intros fv Hfv. split; [|split].
  - destruct (is_nullish fv) eqn:Hn.
    + rewrite (@verify_missing _ _ payload path expected fv Equals Hfv Hn)
        by discriminate.
      split; [discriminate | intros [? _]; discriminate].
    + rewrite (@verify_equals _ _ payload path expected fv Hfv Hn).
      destruct (strict_equals fv expected).
      * split; auto.
      * split; [|intros [_ ?]; discriminate].
        destruct (to_string expected); simpl; [|discriminate].
        destruct (to_string fv); simpl; discriminate.
  - destruct (is_nullish fv) eqn:Hn.
    + rewrite (@verify_missing _ _ payload path expected fv Contains Hfv Hn)
        by discriminate.
      split; [discriminate | intros [? _]; discriminate].
    + rewrite (@verify_contains _ _ payload path expected fv Hfv Hn).
      destruct (to_string fv) as [ft|]; simpl.
      * destruct (to_string expected) as [et|]; simpl.
        -- destruct (includes ft et) eqn:Hi.
           ++ split; [|reflexivity]. intros _. split; [reflexivity|].
              exists ft, et. repeat split. now apply includes_spec.
           ++ split; [discriminate|].
              intros [_ [ft' [et' [E1 [E2 Hab]]]]].
              injection E1 as <-. injection E2 as <-.
              apply includes_spec in Hab. congruence.
        -- split; [discriminate|].
           intros [_ [ft' [et' [_ [E2 _]]]]]. discriminate.
      * split; [discriminate|].
        intros [_ [ft' [et' [E1 _]]]]. discriminate.
  - intros Hn mode Hmode message. split.
    + apply (@verify_missing _ _ payload path expected fv mode Hfv Hn).
      destruct Hmode as [-> | ->]; discriminate.
    + apply startsWith_spec. eexists. unfold message, msg_missing.
      rewrite <- !app_assoc. reflexivity.
Qed.

(** C6: in 'defined' mode the verdict is valid exactly when the value the
    path resolves to is neither [undefined] nor [null] (the path does
    resolve to a value unless one of its keys names an inherited accessor
    whose getter throws, and then the check throws the same error); the
    expected value
    plays no part; a valid verdict has the empty message; an invalid one has
    the message [<path> is missing or undefined. Full response: <dump>],
    which starts with the field path and ends with the JSON text of the
    whole payload; field "oauth.access_token" of {oauth: {access_token: "x"}}
    gives (true, ""), and field "token" of {error: "invalid password"} gives
    an invalid verdict whose message contains "token" and the dump. *)
Theorem C6_defined_mode (payload : value) (path : jsstring) (expected : value) :
  let dump := template_text (JSON_stringify_2 payload) in
  let message := path ++ js " is missing or undefined. Full response: " ++ dump in
  (forall fv, getNestedValue payload path = Ok fv ->
     verifyResponseBodyValue payload path expected (Some Defined)
     = Ok (mkVerification (negb (is_nullish fv))
             (if is_nullish fv then message else []))) /\
  ((forall v key e, In key (split_on (cu ".") path) ->
      inherited v key <> Some (Throw e)) ->
   exists fv, getNestedValue payload path = Ok fv) /\
  (forall e, getNestedValue payload path = Throw e ->
     verifyResponseBodyValue payload path expected (Some Defined) = Throw e) /\
  (forall other,
     verifyResponseBodyValue payload path other (Some Defined)
     = verifyResponseBodyValue payload path expected (Some Defined)) /\
  startsWith message path = true /\
  includes message path = true /\
  includes message dump = true /\
  verifyResponseBodyValue payload_oauth (js "oauth.access_token") expected
    (Some Defined) = Ok (mkVerification true []) /\
  verifyResponseBodyValue payload_error (js "token") expected (Some Defined)
    = Ok (mkVerification false
            (js "token is missing or undefined. Full response: "
               ++ template_text (JSON_stringify_2 payload_error))) /\
  template_text (JSON_stringify_2 payload_error)
    = js "{" ++ [newline] ++ js "  " ++ [dquote] ++ js "error" ++ [dquote]
        ++ js ": " ++ [dquote] ++ js "invalid password" ++ [dquote]
        ++ [newline] ++ js "}".
Proof.
  intros dump message.
  split; [|split; [|split; [|split; [|split; [|split; [|split; [|split; [|split]]]]]]]].
  - intros fv Hfv. apply (@verify_defined _ _ payload path expected fv Hfv).
  - apply getNestedValue_returns.
  - intros e He. now apply verify_throws.
  - intros other. unfold verifyResponseBodyValue.
    now destruct (getNestedValue payload path).
  - apply startsWith_app.
  - apply (includes_app [] path).
  - apply includes_spec.
    exists (path ++ js " is missing or undefined. Full response: "), [].
    unfold message. now rewrite app_nil_r, <- app_assoc.
  - reflexivity.
  - assert (Hfv : getNestedValue payload_error (js "token") = Ok VUndefined).
    { rewrite getNestedValue_inherited.
      - now rewrite inherited_suite_name.
      - vm_compute. intros H. repeat (destruct H as [H | H]; [discriminate|]).
        exact H.
      - reflexivity.
      - reflexivity. }
    now rewrite (@verify_defined _ _ payload_error (js "token") expected
                   VUndefined Hfv).
  - reflexivity.
Qed.

(** C10: leaving the comparison mode out is the same as passing 'contains',
    for every payload, field path and expected value; it is not the same as
    passing 'equals' (the text "invalid" is contained in, and differs from,
    "invalid password") nor as passing 'defined' (the field "error" is
    defined and does not contain "timeout"). *)
Theorem C10_default_mode_is_contains :
  (forall (payload : value) (path : jsstring) (expected : value),
     verifyResponseBodyValue payload path expected None
     = verifyResponseBodyValue payload path expected (Some Contains)) /\
  isValid_of (verifyResponseBodyValue payload_error (js "error")
                (VStr (js "invalid")) None) = Some true /\
  isValid_of (verifyResponseBodyValue payload_error (js "error")
                (VStr (js "invalid")) (Some Equals)) = Some false /\
  isValid_of (verifyResponseBodyValue payload_error (js "error")
                (VStr (js "timeout")) None) = Some false /\
  isValid_of (verifyResponseBodyValue payload_error (js "error")
                (VStr (js "timeout")) (Some Defined)) = Some true.
Proof.
  split; [intros payload path expected; reflexivity|].
  repeat split.
Qed.

(** C7 (amended): a path is cut at every dot and resolved key by key.  From
    [null] and [undefined] every further key resolves to [undefined].  From
    any other value a key resolves to the member the value has under it: the
    own property of an object; the length and the elements of a string or of
    an array (so "name.length" on {name: "xyz"} is 3); and, for a key the
    value does not own, the member inherited from the built-in prototypes,
    [undefined] only where there is none.  Resolution throws only where
    reading an inherited member throws, and returns a value where no key of
    the path names such a member.  The verifier throws what the
    resolution throws; it returns a verdict exactly when the resolution
    returns and the mode is 'defined', or the value is missing, or the mode
    is 'equals' and the values are strictly equal, or both values have a
    text; otherwise it throws the error of the coercion to a string, which
    for an object is a TypeError, thrown exactly when the object has an own
    [toString] property. *)
Theorem C7_resolution_total (payload : value) (path : jsstring) :
  (forall obj before after,
     getNestedValue obj (before ++ [cu "."] ++ after)
     = (v <~ getNestedValue obj before ;; getNestedValue v after)) /\
  (forall obj rest, is_nullish obj = true ->
     getNestedValue obj rest = Ok VUndefined) /\
  (forall r props key member,
     ~ In (cu ".") key -> own_property props key = Some member ->
     getNestedValue (VObj r props) key = Ok member) /\
  (forall s,
     getNestedValue (VStr s) (js "length") = Ok (VNum (number_of_nat (length s)))
     /\ forall i c, nth_error s i = Some c ->
          getNestedValue (VStr s) (index_key i) = Ok (VStr [c])) /\
  (forall r elems,
     getNestedValue (VArr r elems) (js "length")
       = Ok (VNum (number_of_nat (length elems)))
     /\ forall i element, nth_error elems i = Some element ->
          getNestedValue (VArr r elems) (index_key i) = Ok element) /\
  getNestedValue payload_name (js "name.length") = Ok (VNum (number_of_nat 3)) /\
  (forall obj key,
     ~ In (cu ".") key ->
     (exists r props, obj = VObj r props /\ own_property props key = None) \/
     (exists n, obj = VNum n) \/ (exists b, obj = VBool b) ->
     getNestedValue obj key
     = match inherited obj key with
       | Some member => member
       | None => Ok VUndefined
       end) /\
  (forall e, getNestedValue payload path = Throw e ->
     exists v key,
       In key (split_on (cu ".") path) /\ is_nullish v = false /\
       inherited v key = Some (Throw e)) /\
  ((forall v key e, In key (split_on (cu ".") path) ->
      inherited v key <> Some (Throw e)) ->
   exists fv, getNestedValue payload path = Ok fv) /\
  (forall expected mode e, getNestedValue payload path = Throw e ->
     verifyResponseBodyValue payload path expected mode = Throw e) /\
  (forall expected mode,
     (exists verdict,
        verifyResponseBodyValue payload path expected mode = Ok verdict) <->
     exists fv,
       getNestedValue payload path = Ok fv /\
       (mode = Some Defined \/ is_nullish fv = true \/
        (mode = Some Equals /\ strict_equals fv expected = true) \/
        ((exists t, to_string fv = Ok t) /\
         (exists t, to_string expected = Ok t)))) /\
  (forall expected mode e,
     verifyResponseBodyValue payload path expected mode = Throw e ->
     getNestedValue payload path = Throw e \/
     e = TypeError /\
     exists fv,
       getNestedValue payload path = Ok fv /\
       (to_string fv = Throw TypeError \/
        to_string expected = Throw TypeError)) /\
  (forall r props,
     to_string (VObj r props) = Throw TypeError
     <-> own_property props (js "toString") <> None).
Proof.
  assert (Hlength : ~ In (cu ".") (js "length")).
  { vm_compute. intros H. repeat (destruct H as [H | H]; [discriminate|]).
    exact H. }
  split; [apply getNestedValue_dot|].
  split; [apply getNestedValue_nullish|].
  split.
  { intros r props key member Hk Hown. now apply getNestedValue_own. }
  split.
  { intros s. split.
    - now apply getNestedValue_own.
    - intros i c Hc. apply getNestedValue_own;
        [apply index_key_plain | reflexivity|].
      now rewrite own_member_string_index, Hc. }
  split.
  { intros r elems. split.
    - now apply getNestedValue_own.
    - intros i element He. apply getNestedValue_own;
        [apply index_key_plain | reflexivity|].
      now rewrite own_member_array_index. }
  split; [reflexivity|].
  split.
  { intros obj key Hk [[r [props [-> Hown]]] | [[n ->] | [b ->]]];
      now apply getNestedValue_inherited. }
  split; [apply getNestedValue_throws|].
  split; [apply getNestedValue_returns|].
  split; [intros expected mode e; apply verify_throws|].
  split; [intros expected mode; apply verify_returns|].
  split; [intros expected mode e; apply verify_error|].
  apply to_string_object.
Qed.

End VerifierClaims.

(** C7 (counterexample): a string on the way is not an object, yet its
    [length] resolves to 3 and the field counts as defined; a key that an
    object does not own resolves to the inherited member, so that
    "constructor" counts as defined on the empty object, and so does a
    method of a number; and a payload whose field is an object with an own
    [toString] makes the 'contains' check throw instead of returning a
    verdict. *)
Lemma C7_string_member_and_throw :
  getNestedValue payload_name (js "name") = Ok (VStr (js "xyz")) /\
  getNestedValue payload_name (js "name.length") = Ok (VNum 3%Z) /\
  verifyResponseBodyValue payload_name (js "name.length") VNull (Some Defined)
    = Ok (mkVerification true []) /\
  getNestedValue (VObj 0 []) (js "constructor") = Ok (VBuiltin (js "Object")) /\
  verifyResponseBodyValue (VObj 0 []) (js "constructor") VNull (Some Defined)
    = Ok (mkVerification true []) /\
  getNestedValue (VObj 0 [(js "n", VNum 5%Z)]) (js "n.toFixed")
    = Ok (VBuiltin (js "Number.prototype.toFixed")) /\
  verifyResponseBodyValue payload_shadowed (js "user") (VStr (js "x"))
    (Some Contains) = Throw TypeError.
Proof. repeat split. Qed.

(** What the members of the built-in prototypes answer in the sample realm:
    the name of an inherited method and of a constructor are strings, the
    prototype of an object is reached through [__proto__], and the
    restricted accessor [caller] of a function throws, so that a path can
    make the resolution itself throw. *)
Example inherited_members_resolve :
  getNestedValue (VObj 0 []) (js "hasOwnProperty.name")
    = Ok (VStr (js "hasOwnProperty")) /\
  getNestedValue (VObj 0 []) (js "constructor.name") = Ok (VStr (js "Object")) /\
  getNestedValue (VObj 0 []) (js "__proto__")
    = Ok (VBuiltin (js "Object.prototype")) /\
  getNestedValue (VObj 0 []) (js "__proto__.__proto__") = Ok VNull /\
  getNestedValue (VObj 0 []) (js "toString")
    = Ok (VBuiltin (js "Object.prototype.toString")) /\
  getNestedValue (VStr (js "xyz")) (js "trim")
    = Ok (VBuiltin (js "String.prototype.trim")) /\
  getNestedValue (VArr 0 []) (js "map")
    = Ok (VBuiltin (js "Array.prototype.map")) /\
  getNestedValue (VObj 0 []) (js "constructor.caller") = Throw TypeError /\
  verifyResponseBodyValue (VObj 0 []) (js "constructor.caller") VNull
    (Some Defined) = Throw TypeError.
Proof. repeat split. Qed.

Lemma C5_equals_contains_witness :
  verifyResponseBodyValue payload_error (js "token") (VStr (js "x")) (Some Equals)
  = Ok (mkVerification false
          (msg_missing (js "token")
             (template_text (JSON_stringify (VStr (js "x"))))
             (template_text (JSON_stringify_2 payload_error)))).
Proof.
  destruct (@C5_equals_contains integer_numbers sample_realm payload_error
              (js "token") (VStr (js "x")))
    as [Hresolved _].
  destruct (Hresolved VUndefined eq_refl) as [_ [_ Hmissing]].
  exact (proj1 (Hmissing eq_refl Equals (or_introl eq_refl))).
Defined.

Lemma C7_resolution_total_witness :
  getNestedValue (VNull : value) (js "oauth.access_token") = Ok VUndefined /\
  getNestedValue payload_error (js "error") = Ok (VStr (js "invalid password")).
Proof.
  destruct (@C7_resolution_total integer_numbers sample_realm payload_error
              (js "token"))
    as [_ [Hnull [Hown _]]].
  split.
  - apply Hnull. reflexivity.
  - apply Hown; [|reflexivity].
    vm_compute. intros H. repeat (destruct H as [H | H]; [discriminate|]).
    exact H.
Defined.

(** ** The province catalog *)

Lemma find_map {A B : Type} (p : B -> bool) (f : A -> B) (l : list A) :
  find p (map f l) = option_map f (find (fun x => p (f x)) l).
Proof.
  induction l as [|x l IH]; simpl; [reflexivity|].
  destruct (p (f x)); [reflexivity | exact IH].
Qed.

(** The first entry a predicate accepts. *)
Lemma find_first {A : Type} (p : A -> bool) (l : list A) (x : A) :
  find p l = Some x ->
  p x = true /\
  exists before after,
    l = before ++ x :: after /\ forall y, In y before -> p y = false.
Proof.
  induction l as [|a l IH]; simpl; [discriminate|].
  destruct (p a) eqn:Ea.
  - intros E; injection E as ->. split; [assumption|].
    exists [], l. split; [reflexivity | intros y []].
  - intros E. destruct (IH E) as [Hx [before [after [-> Hb]]]].
    split; [assumption|]. exists (a :: before), after.
    split; [reflexivity|]. intros y [<- | Hy]; [assumption | now apply Hb].
Qed.

Lemma province_keys_complete (k : ProvinceKey) : In k province_keys.
Proof. destruct k; simpl; tauto. Qed.

Lemma PROVINCE_CODES_length (k : ProvinceKey) : length (PROVINCE_CODES k) = 2.
Proof. now destruct k. Qed.

(** The lookup is a search of the catalog, in its order, for a key the
    configuration names [provinceName]. *)
Lemma getProvinceCodeFromName_find (provinceName : jsstring)
    (localeConfig : ProvinceNames) :
  getProvinceCodeFromName provinceName localeConfig
  = match find (fun k => jsstring_eqb (provinces localeConfig k) provinceName)
            province_keys with
    | Some k => PROVINCE_CODES k
    | None => []
    end.
Proof.
  unfold getProvinceCodeFromName, getAllLocalizedProvinces.
  rewrite find_map. unfold getLocalizedProvince. cbn [name].
  generalize province_keys. intros keys.
  destruct (find _ keys) as [k|]; [|reflexivity].
  now destruct k.
Qed.

(** C8: the inverse lookup is a total function; a name that is no province's
    name in the configuration gives the empty string, and only such a name
    does; a name that is some province's name gives the two-letter code of a
    province with that name, the first one in the order of the catalog, and
    so the code of that very province when names are not shared. *)
Theorem C8_getProvinceCodeFromName_lookup (provinceName : jsstring)
    (localeConfig : ProvinceNames) :
  let result := getProvinceCodeFromName provinceName localeConfig in
  (result = [] <-> forall k, provinces localeConfig k <> provinceName) /\
  (forall k, provinces localeConfig k = provinceName ->
     exists k' before after,
       provinces localeConfig k' = provinceName /\
       result = PROVINCE_CODES k' /\ length result = 2 /\
       province_keys = before ++ k' :: after /\
       forall j, In j before -> provinces localeConfig j <> provinceName) /\
  ((forall k1 k2, provinces localeConfig k1 = provinces localeConfig k2 -> k1 = k2) ->
   forall k, provinces localeConfig k = provinceName ->
     result = PROVINCE_CODES k).
Proof.
  cbv zeta. rewrite getProvinceCodeFromName_find.
  set (p := fun k => jsstring_eqb (provinces localeConfig k) provinceName).
  assert (Hfound : forall k, provinces localeConfig k = provinceName ->
            exists k', find p province_keys = Some k').
  { intros k Hk. destruct (find p province_keys) as [k'|] eqn:E; [eauto|].
    pose proof (find_none p province_keys E k (province_keys_complete k)) as Hp.
    unfold p in Hp. rewrite Hk, jsstring_eqb_refl in Hp. discriminate. }
  split; [|split].
  - split.
    + intros Hres k Hk. destruct (Hfound k Hk) as [k' E]. rewrite E in Hres.
      now destruct k'.
    + intros Hnone. destruct (find p province_keys) as [k'|] eqn:E; [|reflexivity].
      apply find_first in E as [Hp _]. apply jsstring_eqb_eq in Hp.
      now apply Hnone in Hp.
  - intros k Hk. destruct (Hfound k Hk) as [k' E]. rewrite E.
    apply find_first in E as [Hp [before [after [Hsplit Hb]]]].
    exists k', before, after. repeat split.
    + now apply jsstring_eqb_eq.
    + apply PROVINCE_CODES_length.
    + assumption.
    + intros j Hj Hname. apply Hb in Hj. unfold p in Hj.
      rewrite Hname, jsstring_eqb_refl in Hj. discriminate.
  - intros Hinj k Hk. destruct (Hfound k Hk) as [k' E]. rewrite E.
    apply find_first in E as [Hp _]. apply jsstring_eqb_eq in Hp.
    f_equal. apply Hinj. congruence.
Qed.

Lemma english_names_distinct (k1 k2 : ProvinceKey) :
  provinces english_names k1 = provinces english_names k2 -> k1 = k2.
Proof.
  destruct k1, k2; try reflexivity; intros H; exfalso; revert H;
    apply jsstring_neq; vm_compute; reflexivity.
Qed.

Lemma C8_getProvinceCodeFromName_witness :
  getProvinceCodeFromName (js "Quebec") english_names = js "QC" /\
  getProvinceCodeFromName (js "Atlantis") english_names = [].
Proof.
  split.
  - exact (proj2 (proj2 (C8_getProvinceCodeFromName_lookup (js "Quebec")
                           english_names))
             english_names_distinct QUEBEC eq_refl).
  - apply (proj1 (C8_getProvinceCodeFromName_lookup (js "Atlantis")
                    english_names)).
    intros k. apply jsstring_neq. destruct k; vm_compute; reflexivity.
Defined.

(** ** The locale loader *)

Lemma endsWith_spec (s p : jsstring) :
  endsWith s p = true <-> exists t, s = t ++ p.
Proof.
  unfold endsWith. rewrite startsWith_spec. split.
  - intros [t Ht]. exists (rev t).
    rewrite <- (rev_involutive s), Ht, rev_app_distr, rev_involutive.
    reflexivity.
  - intros [t ->]. exists (rev t). apply rev_app_distr.
Qed.

(** One trailing slash is dropped; a base without one is kept. *)
Lemma normalize_base_spec (baseUrl : jsstring) :
  (forall b, baseUrl = b ++ js "/" -> normalize_base baseUrl = b) /\
  ((forall b, baseUrl <> b ++ js "/") -> normalize_base baseUrl = baseUrl).
Proof.
  unfold normalize_base, slice_0_m1. split.
  - intros b ->. rewrite (proj2 (endsWith_spec _ _)) by now exists b.
    apply removelast_last.
  - intros Hno. destruct (endsWith baseUrl (js "/")) eqn:E; [|reflexivity].
    apply endsWith_spec in E as [b Hb]. now apply Hno in Hb.
Qed.

Section LoaderFacts.

Context {NM : NumberModel} {R : Realm}.

(** Loading reads the store and leaves it as it was. *)
Lemma loadLocaleConfig_store (l : locale) (baseUrl : option jsstring)
    (fs : i18n_store) :
  snd (loadLocaleConfig l baseUrl fs) = fs.
Proof.
  unfold loadLocaleConfig, io_bind, loadJsonFile, io_lift.
  destruct (fs l (js "signup.json")); try reflexivity.
  destruct (fs l (js "provinces.json")); try reflexivity.
  destruct (fs l (js "urls.json")); try reflexivity.
  destruct baseUrl as [[|c rest]|]; reflexivity.
Qed.

(** The configuration depends on the store through the three sections of
    the locale only. *)
Lemma loadLocaleConfig_sections (l : locale) (baseUrl : option jsstring)
    (fs fs' : i18n_store) :
  fs l (js "signup.json") = fs' l (js "signup.json") ->
  fs l (js "provinces.json") = fs' l (js "provinces.json") ->
  fs l (js "urls.json") = fs' l (js "urls.json") ->
  fst (loadLocaleConfig l baseUrl fs) = fst (loadLocaleConfig l baseUrl fs').
Proof.
  intros H1 H2 H3.
  unfold loadLocaleConfig, io_bind, loadJsonFile, io_lift.
  rewrite H1, H2, H3.
  destruct (fs' l (js "signup.json")); try reflexivity.
  destruct (fs' l (js "provinces.json")); try reflexivity.
  destruct (fs' l (js "urls.json")); try reflexivity.
  destruct baseUrl as [[|c rest]|]; reflexivity.
Qed.

(** C9: loading the configuration of a locale twice in a row, with the same
    base URL, leaves the store untouched and returns the same outcome; when
    the loads succeed their signup, login, termsOfService and baseUrl fields
    are identical; and two stores with the same three sections for the
    locale give the same outcome. *)
Theorem C9_loading_is_repeatable (l : locale) (baseUrl : option jsstring)
    (fs : i18n_store) :
  let first := loadLocaleConfig l baseUrl fs in
  let second := loadLocaleConfig l baseUrl (snd first) in
  snd first = fs /\ snd second = fs /\
  fst second = fst first /\
  (forall c1 c2, fst first = Ok c1 -> fst second = Ok c2 ->
     url_field c1 (js "signup") = url_field c2 (js "signup") /\
     url_field c1 (js "login") = url_field c2 (js "login") /\
     url_field c1 (js "termsOfService") = url_field c2 (js "termsOfService") /\
     url_field c1 (js "baseUrl") = url_field c2 (js "baseUrl")) /\
  (forall fs' : i18n_store,
     fs l (js "signup.json") = fs' l (js "signup.json") ->
     fs l (js "provinces.json") = fs' l (js "provinces.json") ->
     fs l (js "urls.json") = fs' l (js "urls.json") ->
     fst (loadLocaleConfig l baseUrl fs') = fst first).
Proof.
  cbv zeta. rewrite !loadLocaleConfig_store.
  repeat split; try reflexivity.
  1-4: rewrite H in H0; injection H0 as <-; reflexivity.
  intros fs' H1 H2 H3. symmetry. now apply loadLocaleConfig_sections.
Qed.

(** C1 (amended): with a non-empty base URL and a [urls] section whose
    signup, login and termsOfService entries are strings, the loader drops
    one trailing slash from the base, returns signup and login as the
    normalized base followed by their templates (absolute or not), returns
    the normalized base as baseUrl, and returns termsOfService unchanged when
    it begins with "http" and prefixed by "https://www.nesto.ca" otherwise. *)
Theorem C1_resolved_urls (l : locale) (baseUrl : jsstring) (fs : i18n_store)
    (signupDoc provincesDoc urlsDoc : value) (signup login terms : jsstring) :
  baseUrl <> [] ->
  fs l (js "signup.json") = Document signupDoc ->
  fs l (js "provinces.json") = Document provincesDoc ->
  fs l (js "urls.json") = Document urlsDoc ->
  get_member urlsDoc (js "signup") = Ok (VStr signup) ->
  get_member urlsDoc (js "login") = Ok (VStr login) ->
  get_member urlsDoc (js "termsOfService") = Ok (VStr terms) ->
  let base := normalize_base baseUrl in
  fst (loadLocaleConfig l (Some baseUrl) fs)
    = Ok (mkLocaleConfig signupDoc provincesDoc
            [(js "signup", VStr (base ++ signup));
             (js "baseUrl", VStr base);
             (js "login", VStr (base ++ login));
             (js "termsOfService",
              VStr (if startsWith terms (js "http") then terms
                    else js "https://www.nesto.ca" ++ terms))]) /\
  (forall b, baseUrl = b ++ js "/" -> base = b) /\
  ((forall b, baseUrl <> b ++ js "/") -> base = baseUrl).
Proof.
  intros Hne Hs Hp Hu Gs Gl Gt base.
  split; [|apply normalize_base_spec].
  unfold loadLocaleConfig, io_bind, loadJsonFile, io_lift.
  rewrite Hs, Hp, Hu.
  destruct baseUrl as [|c rest]; [contradiction|].
  unfold resolve_urls. rewrite Gs, Gl, Gt.
  cbn [exn_bind to_string call_startsWith fst].
  destruct (startsWith terms (js "http")); reflexivity.
Qed.

End LoaderFacts.

Lemma C1_resolved_urls_witness :
  fst (loadLocaleConfig en (Some (js "https://app.qa.nesto.ca/")) sample_store)
  = Ok (mkLocaleConfig (VObj 1 []) (VObj 1 [])
          [(js "signup", VStr (js "https://app.qa.nesto.ca/signup"));
           (js "baseUrl", VStr (js "https://app.qa.nesto.ca"));
           (js "login",
            VStr (js "https://app.qa.nesto.cahttps://auth.nesto.ca/login"));
           (js "termsOfService", VStr (js "https://www.nesto.ca/terms"))]).
Proof.
  exact (proj1 (@C1_resolved_urls integer_numbers sample_realm en
                  (js "https://app.qa.nesto.ca/") sample_store
                  (VObj 1 []) (VObj 1 []) sample_urls
                  (js "/signup") (js "https://auth.nesto.ca/login") (js "/terms")
                  ltac:(discriminate) eq_refl eq_refl eq_refl
                  eq_refl eq_refl eq_refl)).
Defined.

(** C1 (counterexample): with the base "https://app.qa.nesto.ca/", the
    relative terms route is put on "https://www.nesto.ca", not on the base,
    and the absolute login route is appended to the base, not passed
    through. *)
Lemma C1_terms_and_absolute_login :
  let outcome :=
    fst (loadLocaleConfig en (Some (js "https://app.qa.nesto.ca/")) sample_store) in
  loaded_url outcome (js "termsOfService")
    = Some (VStr (js "https://www.nesto.ca/terms")) /\
  loaded_url outcome (js "login")
    = Some (VStr (js "https://app.qa.nesto.cahttps://auth.nesto.ca/login")) /\
  startsWith (js "https://auth.nesto.ca/login") (js "http") = true /\
  jsstring_eqb (js "https://www.nesto.ca/terms")
    (js "https://app.qa.nesto.ca" ++ js "/terms") = false.
Proof. repeat split. Qed.

Lemma C9_loading_is_repeatable_witness :
  fst (loadLocaleConfig fr (Some (js "https://app.dev.nesto.ca"))
         (fun l filename => if jsstring_eqb filename (js "urls.json")
                            then Document sample_urls
                            else Document (VObj 1 [])))
  = fst (loadLocaleConfig fr (Some (js "https://app.dev.nesto.ca")) sample_store).
Proof.
  exact (proj2 (proj2 (proj2 (proj2
           (@C9_loading_is_repeatable integer_numbers sample_realm fr
              (Some (js "https://app.dev.nesto.ca")) sample_store))))
           _ eq_refl eq_refl eq_refl).
Defined.

(** ** Further properties of the same functions *)

(** [getRandomValue] throws the "empty array" error on the empty array, and
    on any other array returns one of its elements. *)
Theorem getRandomValue_contract {T : Type} (src : random_source)
    (array : list T) (k : nat) :
  (forall i, in_unit_interval (src i)) ->
  (array = [] ->
   fst (getRandomValue src array k)
   = Throw (ErrorWith (js "Cannot get random value from empty array"))) /\
  (array <> [] ->
   exists x, fst (getRandomValue src array k) = Ok (Some x) /\ In x array).
Proof.
  intros Hsrc. pose proof (@getRandomValue_spec src Hsrc T array k) as H.
  destruct array as [|a array].
  - split; [intros _; now rewrite H | intros Hne; contradiction].
  - split; [discriminate|]. intros _. destruct H as [x [-> Hx]]. now exists x.
Qed.

Lemma getRandomValue_contract_witness :
  exists x,
    fst (getRandomValue sample_source [js "416"; js "647"; js "437"] 0)
    = Ok (Some x) /\
    In x [js "416"; js "647"; js "437"].
Proof.
  apply (proj2 (@getRandomValue_contract jsstring sample_source
                  [js "416"; js "647"; js "437"] 0 sample_source_unit)).
  discriminate.
Defined.

(** The code of a localized province is the catalog's code whatever the
    configuration; its name is the configuration's; the catalog lists
    thirteen provinces, and no two share a code. *)
Theorem getLocalizedProvince_code_is_stable (provinceKey : ProvinceKey)
    (localeConfig other : ProvinceNames) :
  code (getLocalizedProvince provinceKey localeConfig)
    = PROVINCE_CODES provinceKey /\
  code (getLocalizedProvince provinceKey localeConfig)
    = code (getLocalizedProvince provinceKey other) /\
  name (getLocalizedProvince provinceKey localeConfig)
    = provinces localeConfig provinceKey /\
  key (getLocalizedProvince provinceKey localeConfig) = provinceKey /\
  map key (getAllLocalizedProvinces localeConfig) = province_keys /\
  length (getAllLocalizedProvinces localeConfig) = 13 /\
  NoDup (map PROVINCE_CODES province_keys).
Proof.
  repeat split.
  repeat (constructor;
          [cbn [In map province_keys]; intros H;
           repeat (destruct H as [H | H];
                   [revert H; apply jsstring_neq; vm_compute; reflexivity|]);
           exact H|]).
  constructor.
Qed.

Section LoaderMore.

Context {NM : NumberModel} {R : Realm}.

Lemma own_property_set_other (props : list (jsstring * value))
    (k k' : jsstring) (v : value) :
  jsstring_eqb k k' = false ->
  own_property (set_property props k v) k' = own_property props k'.
Proof.
  intros Hk. induction props as [|[a x] props IH]; simpl.
  - now rewrite Hk.
  - destruct (jsstring_eqb a k) eqn:Ea; simpl.
    + apply jsstring_eqb_eq in Ea. subst a. now rewrite Hk.
    + now rewrite IH.
Qed.

Lemma own_property_set_same (props : list (jsstring * value))
    (k : jsstring) (v : value) :
  own_property (set_property props k v) k = Some v.
Proof.
  induction props as [|[a x] props IH]; simpl.
  - now rewrite jsstring_eqb_refl.
  - destruct (jsstring_eqb a k) eqn:Ea; simpl.
    + now rewrite jsstring_eqb_refl.
    + now rewrite Ea.
Qed.

(** Without a base URL, and with the empty one, the URL fields are the
    stored templates and [baseUrl] is the empty string. *)
Theorem loadLocaleConfig_unresolved (l : locale) (fs : i18n_store)
    (baseUrl : option jsstring) (signupDoc provincesDoc urlsDoc : value) :
  baseUrl = None \/ baseUrl = Some [] ->
  fs l (js "signup.json") = Document signupDoc ->
  fs l (js "provinces.json") = Document provincesDoc ->
  fs l (js "urls.json") = Document urlsDoc ->
  exists config,
    fst (loadLocaleConfig l baseUrl fs) = Ok config /\
    cfg_signup config = signupDoc /\
    cfg_provinces config = provincesDoc /\
    url_field config (js "baseUrl") = VStr [] /\
    forall field, jsstring_eqb (js "baseUrl") field = false ->
      url_field config field = or_undefined (own_property (spread urlsDoc) field).
Proof.
  intros Hb Hs Hp Hu.
  exists (mkLocaleConfig signupDoc provincesDoc
            (set_property (spread urlsDoc) (js "baseUrl") (VStr []))).
  split.
  - unfold loadLocaleConfig, io_bind, loadJsonFile, io_lift.
    rewrite Hs, Hp, Hu. destruct Hb as [-> | ->]; reflexivity.
  - repeat split.
    + unfold url_field; cbn [cfg_urls]. now rewrite own_property_set_same.
    + intros field Hf. unfold url_field; cbn [cfg_urls].
      now rewrite own_property_set_other.
Qed.

(** A section that is missing or is not JSON makes the load throw: no
    configuration is returned. *)
Theorem loadLocaleConfig_fails_closed (l : locale) (fs : i18n_store)
    (baseUrl : option jsstring) (filename : jsstring) :
  In filename [js "signup.json"; js "provinces.json"; js "urls.json"] ->
  fs l filename = Missing \/ fs l filename = Malformed ->
  fst (loadLocaleConfig l baseUrl fs) = Throw ENOENT \/
  fst (loadLocaleConfig l baseUrl fs) = Throw SyntaxError.
Proof.
  intros Hin Hbad.
  unfold loadLocaleConfig, io_bind, loadJsonFile, io_lift.
  destruct (fs l (js "signup.json")) eqn:E1; cbn [fst]; auto.
  destruct (fs l (js "provinces.json")) eqn:E2; cbn [fst]; auto.
  destruct (fs l (js "urls.json")) eqn:E3; cbn [fst]; auto.
  exfalso. cbn [In] in Hin.
  destruct Hin as [<- | [<- | [<- | []]]]; destruct Hbad; congruence.
Qed.

End LoaderMore.

Lemma loadLocaleConfig_unresolved_witness :
  exists config,
    fst (loadLocaleConfig en None sample_store) = Ok config /\
    url_field config (js "baseUrl") = VStr [] /\
    url_field config (js "signup") = VStr (js "/signup").
Proof.
  destruct (@loadLocaleConfig_unresolved integer_numbers sample_realm en sample_store None
              (VObj 1 []) (VObj 1 []) sample_urls
              (or_introl eq_refl) eq_refl eq_refl eq_refl)
    as [config [Hc [_ [_ [Hb Hf]]]]].
  exists config. split; [exact Hc|]. split; [exact Hb|].
  exact (Hf (js "signup") eq_refl).
Defined.

Lemma loadLocaleConfig_fails_closed_witness :
  fst (loadLocaleConfig fr (Some (js "https://app.dev.nesto.ca"))
         (fun l filename =>
            match l with
            | en => sample_store l filename
            | fr => Missing
            end))
  = Throw ENOENT \/
  fst (loadLocaleConfig fr (Some (js "https://app.dev.nesto.ca"))
         (fun l filename =>
            match l with
            | en => sample_store l filename
            | fr => Missing
            end))
  = Throw SyntaxError.
Proof.
  apply (@loadLocaleConfig_fails_closed integer_numbers sample_realm fr _ _ (js "urls.json")).
  - right. right. left. reflexivity.
  - left. reflexivity.
Defined.

(** ** The email and phone number generators *)

Lemma floor_scaled_range (r : Q) (n : Z) :
  in_unit_interval r -> (0 < n)%Z -> (0 <= Qfloor (r * inject_Z n) < n)%Z.
Proof.
  intros [H0 H1] Hn.
  assert (Hq : (0 < inject_Z n)%Q).
  { change 0%Q with (inject_Z 0). now rewrite <- Zlt_Qlt. }
  split.
  - change 0%Z with (Qfloor 0). apply Qfloor_resp_le.
    apply Qmult_le_0_compat; [assumption | now apply Qlt_le_weak].
  - rewrite Zlt_Qlt.
    apply Qle_lt_trans with (r * inject_Z n)%Q; [apply Qfloor_le|].
    rewrite <- (Qmult_1_l (inject_Z n)) at 2.
    apply Qmult_lt_compat_r; assumption.
Qed.

Lemma seven_digits_range (r : Q) :
  in_unit_interval r -> (1000000 <= seven_digits r < 10000000)%Z.
Proof.
  intros [H0 H1]. unfold seven_digits.
  assert (Hp : (0 <= r * inject_Z 9000000)%Q).
  { apply Qmult_le_0_compat; [assumption | discriminate]. }
  assert (Hq : (r * inject_Z 9000000 < inject_Z 9000000)%Q).
  { rewrite <- (Qmult_1_l (inject_Z 9000000)) at 2.
    apply Qmult_lt_compat_r; [reflexivity | assumption]. }
  split.
  - change 1000000%Z with (Qfloor (inject_Z 1000000)).
    apply Qfloor_resp_le.
    rewrite <- (Qplus_0_r (inject_Z 1000000)) at 1.
    apply Qplus_le_r. exact Hp.
  - rewrite Zlt_Qlt.
    apply Qle_lt_trans with (inject_Z 1000000 + r * inject_Z 9000000)%Q;
      [apply Qfloor_le|].
    change (inject_Z 10000000) with (inject_Z 1000000 + inject_Z 9000000)%Q.
    apply Qplus_lt_r. exact Hq.
Qed.

Lemma app_same_length {A : Type} (a b x y : list A) :
  length a = length b -> a ++ x = b ++ y -> a = b /\ x = y.
Proof.
  revert b; induction a as [|h a IH]; intros [|h' b] Hlen H;
    try discriminate; simpl in *.
  - now split.
  - injection H as -> H. injection Hlen as Hlen.
    destruct (IH b Hlen H) as [-> ->]. now split.
Qed.

(** Every generated address is one the email validator accepts: it reads
    testuser<timestamp><random>@example.com, whatever the clock and the draw
    are, and one draw is made. *)
Theorem generateUniqueEmail_is_valid (src : random_source) (timestamp : Z)
    (k : nat) :
  let email := fst (generateUniqueEmail src timestamp k) in
  isValidEmail email = true /\
  startsWith email (js "testuser") = true /\
  endsWith email (js "@example.com") = true /\
  snd (generateUniqueEmail src timestamp k) = S k.
Proof.
  cbv zeta. unfold generateUniqueEmail, bind, Math_random, ret; cbn [fst snd].
  set (random := Qfloor (src k * inject_Z 10000)).
  split; [|split; [|split]].
  - apply isValidEmail_shape.
    exists (js "testuser" ++ decimal timestamp ++ decimal random),
           (js "example"), (js "com").
    split; [now rewrite <- !app_assoc|].
    split; [discriminate|]. split; [discriminate|]. split; [discriminate|].
    split; [|split].
    + apply Forall_app. split.
      * repeat constructor; discriminate.
      * apply Forall_app. split; apply decimal_plain.
    + repeat constructor; discriminate.
    + repeat constructor; discriminate.
  - apply startsWith_app.
  - apply endsWith_spec.
    exists (js "testuser" ++ decimal timestamp ++ decimal random).
    now rewrite <- !app_assoc.
  - reflexivity.
Qed.

(** Two addresses generated at clock readings with the same number of
    digits are equal only if the readings and the random parts are equal;
    without that proviso the digits of the two numbers run together, and
    the readings 1 and 12 with the random parts 23 and 3 give one address. *)
Theorem generateUniqueEmail_distinct (src1 src2 : random_source)
    (t1 t2 : Z) (k1 k2 : nat) :
  length (decimal t1) = length (decimal t2) ->
  fst (generateUniqueEmail src1 t1 k1) = fst (generateUniqueEmail src2 t2 k2) ->
  t1 = t2 /\
  Qfloor (src1 k1 * inject_Z 10000) = Qfloor (src2 k2 * inject_Z 10000).
Proof.
  unfold generateUniqueEmail, bind, Math_random, ret; cbn [fst].
  intros Hlen H. apply app_inv_head in H.
  apply (app_same_length _ _ _ _ Hlen) in H as [Ht H].
  apply app_inv_tail in H.
  split; now apply decimal_inj.
Qed.

Lemma generateUniqueEmail_distinct_witness :
  1730000000000%Z = 1730000000000%Z /\
  Qfloor (sample_source 1 * inject_Z 10000)
  = Qfloor (sample_source 102 * inject_Z 10000).
Proof.
  apply (@generateUniqueEmail_distinct sample_source sample_source
           1730000000000 1730000000000 1 102); reflexivity.
Defined.

(** A generated phone number is one of the eleven area codes followed by
    seven digits: ten digits in all, after two draws. *)
Theorem generatePhoneNumber_shape (src : random_source) (k : nat) :
  (forall i, in_unit_interval (src i)) ->
  exists areaCode number,
    generatePhoneNumber src k = (Ok (areaCode ++ number), S (S k)) /\
    In areaCode areaCodes /\
    length areaCode = 3 /\ length number = 7 /\
    Forall is_digit (areaCode ++ number).
Proof.
  intros Hsrc. unfold generatePhoneNumber, bind.
  pose proof (@getRandomValue_spec src Hsrc jsstring areaCodes k) as Hpick.
  cbn [areaCodes] in Hpick. destruct Hpick as [areaCode [Hpick Hin]].
  fold areaCodes in Hpick, Hin. rewrite Hpick. cbn [Math_random ret element_text].
  pose proof (seven_digits_range (Hsrc (S k))) as Hrange.
  exists areaCode, (decimal (seven_digits (src (S k)))).
  split; [reflexivity|]. split; [exact Hin|].
  assert (Hcodes : Forall (fun a => length a = 3 /\ Forall is_digit a) areaCodes).
  { unfold areaCodes.
    repeat (constructor;
            [split; [reflexivity|];
             vm_compute;
             repeat (constructor; [split; discriminate|]); constructor|]).
    constructor. }
  rewrite Forall_forall in Hcodes. destruct (Hcodes areaCode Hin) as [H3 Hd].
  split; [exact H3|]. split.
  - apply (@decimal_length _ 6).
    change (10 ^ Z.of_nat 6)%Z with 1000000%Z.
    change (10 ^ Z.of_nat 7)%Z with 10000000%Z. exact Hrange.
  - apply Forall_app. split; [exact Hd|]. apply decimal_digits. lia.
Qed.

Lemma generatePhoneNumber_shape_witness :
  exists areaCode number,
    generatePhoneNumber sample_source 5 = (Ok (areaCode ++ number), 7) /\
    In areaCode areaCodes /\
    length areaCode = 3 /\ length number = 7 /\
    Forall is_digit (areaCode ++ number).
Proof.
  exact (@generatePhoneNumber_shape sample_source 5 sample_source_unit).
Defined.

(** ** Trimming, the selected province and the validation errors *)

Lemma trimStart_split (s : jsstring) :
  exists ws, s = ws ++ trimStart s /\ Forall blank ws.
Proof.
  induction s as [|c s [ws [E Hws]]]; simpl.
  - exists []. split; [reflexivity | constructor].
  - destruct (is_space c) eqn:Hc.
    + exists (c :: ws). split; [simpl; now rewrite <- E | now constructor].
    + exists []. split; [reflexivity | constructor].
Qed.

Lemma trimStart_head (s : jsstring) (c : code_unit) (r : jsstring) :
  trimStart s = c :: r -> is_space c = false.
Proof.
  induction s as [|x s IH]; simpl; [discriminate|].
  destruct (is_space x) eqn:Hx; [exact IH|].
  intros E. injection E as <- _. exact Hx.
Qed.

Lemma trimStart_blank (ws s : jsstring) :
  Forall blank ws -> trimStart (ws ++ s) = trimStart s.
Proof.
  induction 1 as [|c ws Hc _ IH]; simpl; [reflexivity|].
  unfold blank in Hc. now rewrite Hc.
Qed.

Lemma trimStart_fixed (s : jsstring) :
  (forall c r, s = c :: r -> is_space c = false) -> trimStart s = s.
Proof.
  destruct s as [|c r]; intros H; simpl; [reflexivity|].
  now rewrite (H c r eq_refl).
Qed.

(** [trim] cuts a string into white space, the result, white space; the
    result neither starts nor ends with white space. *)
Lemma trim_split (s : jsstring) :
  exists pre post,
    s = pre ++ trim s ++ post /\ Forall blank pre /\ Forall blank post /\
    (forall c r, trim s = c :: r -> is_space c = false) /\
    (forall c r, trim s = r ++ [c] -> is_space c = false).
Proof.
  unfold trim.
  destruct (trimStart_split s) as [pre [Es Hpre]].
  destruct (trimStart_split (rev (trimStart s))) as [ws [Er Hws]].
  set (t := trimStart s) in *. set (u := trimStart (rev t)) in *.
  assert (Et : t = rev u ++ rev ws).
  { rewrite <- (rev_involutive t), Er, rev_app_distr. reflexivity. }
  exists pre, (rev ws). repeat split.
  - now rewrite <- Et.
  - exact Hpre.
  - now apply Forall_rev.
  - intros c r Hc. apply (@trimStart_head s c (r ++ rev ws)).
    fold t. now rewrite Et, Hc.
  - intros c r Hc. apply (@trimStart_head (rev t) c (rev r)). fold u.
    rewrite <- (rev_involutive u), Hc, rev_app_distr. reflexivity.
Qed.

Lemma trim_fixed (s : jsstring) :
  (forall c r, s = c :: r -> is_space c = false) ->
  (forall c r, s = r ++ [c] -> is_space c = false) ->
  trim s = s.
Proof.
  intros Hhead Hlast. unfold trim. rewrite (@trimStart_fixed s Hhead).
  rewrite trimStart_fixed; [apply rev_involutive|].
  intros c r E. apply (Hlast c (rev r)).
  rewrite <- (rev_involutive s), E. reflexivity.
Qed.

Lemma trim_idempotent (s : jsstring) : trim (trim s) = trim s.
Proof.
  destruct (trim_split s) as [_ [_ [_ [_ [_ [Hh Hl]]]]]].
  now apply trim_fixed.
Qed.

(** White space around a trimmed text is all that [trim] removes. *)
Lemma trim_padded (pre text post : jsstring) :
  Forall blank pre -> Forall blank post -> trim text = text ->
  trim (pre ++ text ++ post) = text.
Proof.
  intros Hpre Hpost Ht.
  destruct (trim_split text) as [_ [_ [_ [_ [_ [Hh Hl]]]]]].
  rewrite Ht in Hh, Hl.
  unfold trim. rewrite (trimStart_blank _ Hpre).
  destruct text as [|c r].
  - simpl. rewrite <- (app_nil_r post), (trimStart_blank [] Hpost). reflexivity.
  - assert (E1 : trimStart ((c :: r) ++ post) = (c :: r) ++ post).
    { simpl. now rewrite (Hh c r eq_refl). }
    rewrite E1, rev_app_distr, trimStart_blank by now apply Forall_rev.
    rewrite trimStart_fixed; [apply rev_involutive|].
    intros x y E. apply (Hl x (rev y)).
    rewrite <- (rev_involutive (c :: r)), E. reflexivity.
Qed.

Lemma trim_nil_iff (s : jsstring) : trim s = [] <-> Forall blank s.
Proof.
  split.
  - intros E. destruct (trim_split s) as [pre [post [Es [Hpre [Hpost _]]]]].
    rewrite E in Es. rewrite Es. apply Forall_app. now split.
  - intros H. rewrite <- (app_nil_r s). change (s ++ []) with (s ++ [] ++ []).
    apply trim_padded; [assumption | constructor | reflexivity].
Qed.

(** The text read back from the province list is the trimmed text of the
    selected option: empty when no option is selected (index -1 or any index
    outside the list) and when the option has no text; never padded; and
    equal to a trimmed name whatever white space the page puts around it. *)
Theorem selectedText_reads_option (options : list (option jsstring))
    (selectedIndex : Z) :
  ((selectedIndex < 0)%Z \/ (Z.of_nat (length options) <= selectedIndex)%Z ->
   selectedText options selectedIndex = []) /\
  (element_at options selectedIndex = Some None ->
   selectedText options selectedIndex = []) /\
  (forall text, element_at options selectedIndex = Some (Some text) ->
     selectedText options selectedIndex = trim text) /\
  trim (selectedText options selectedIndex) = selectedText options selectedIndex /\
  (forall pre name post,
     Forall blank pre -> Forall blank post -> trim name = name ->
     element_at options selectedIndex = Some (Some (pre ++ name ++ post)) ->
     selectedText options selectedIndex = name).
Proof.
  assert (Hor : forall t : jsstring, or_empty (Some t) = t) by (now intros [|]).
  unfold selectedText. split; [|split; [|split; [|split]]].
  - intros H. unfold element_at.
    destruct (Z.ltb_spec selectedIndex 0) as [_|Hge]; [reflexivity|].
    destruct H as [H|H]; [lia|].
    destruct (nth_error options (Z.to_nat selectedIndex)) eqn:E; [|reflexivity].
    assert (Z.to_nat selectedIndex < length options)
      by (apply nth_error_Some; congruence).
    lia.
  - now intros ->.
  - intros text ->. apply Hor.
  - destruct (element_at options selectedIndex) as [[text|]|]; try reflexivity.
    cbn [option_map]. rewrite Hor. apply trim_idempotent.
  - intros pre name post Hpre Hpost Hname ->. cbn [option_map].
    rewrite Hor. now apply trim_padded.
Qed.

Lemma selectedText_reads_option_witness :
  selectedText [Some (js "Choose"); Some (js "  Ontario ")] 1 = js "Ontario" /\
  selectedText [Some (js "Choose"); Some (js "  Ontario ")] (-1) = [].
Proof.
  split.
  - apply (proj2 (proj2 (proj2 (proj2
             (selectedText_reads_option
                [Some (js "Choose"); Some (js "  Ontario ")] 1))))
             (js "  ") (js "Ontario") (js " "));
      try reflexivity; repeat constructor.
  - apply (proj1 (selectedText_reads_option
                    [Some (js "Choose"); Some (js "  Ontario ")] (-1))).
    left. reflexivity.
Defined.

Lemma push_text_shown (errors : list jsstring) (text : option jsstring) :
  push_text errors text = errors ++ shown_text text.
Proof.
  destruct text as [[|c t]|]; simpl; try now rewrite app_nil_r.
  destruct (trim (c :: t)); [now rewrite app_nil_r | reflexivity].
Qed.

Lemma fold_push_text (texts : list (option jsstring)) (errors : list jsstring) :
  fold_left push_text texts errors = errors ++ flat_map shown_text texts.
Proof.
  revert errors; induction texts as [|t texts IH]; intros errors; simpl.
  - now rewrite app_nil_r.
  - now rewrite IH, push_text_shown, app_assoc.
Qed.

Lemma getValidationErrors_flat (page : jsstring -> list (option jsstring)) :
  getValidationErrors page
  = flat_map (fun selector => flat_map shown_text (page selector)) errorSelectors.
Proof.
  unfold getValidationErrors.
  assert (H : forall selectors errors,
             fold_left
               (fun errors selector => fold_left push_text (page selector) errors)
               selectors errors
             = errors ++ flat_map (fun selector => flat_map shown_text (page selector))
                           selectors).
  { induction selectors as [|sel selectors IH]; intros errors; simpl.
    - now rewrite app_nil_r.
    - now rewrite IH, fold_push_text, app_assoc. }
  apply (H errorSelectors []).
Qed.

Lemma in_shown_text (e : jsstring) (text : option jsstring) :
  In e (shown_text text) <-> e <> [] /\ exists t, text = Some t /\ trim t = e.
Proof.
  destruct text as [t|]; simpl.
  - destruct (trim t) as [|c r] eqn:E; simpl.
    + split; [contradiction|]. intros [Hne [t' [Et Htrim]]].
      injection Et as <-. congruence.
    + split.
      * intros [<- | []]. split; [discriminate|]. now exists t.
      * intros [_ [t' [Et Htrim]]]. injection Et as <-. left. congruence.
  - split; [contradiction|]. intros [_ [t [Et _]]]. discriminate.
Qed.

(** The errors collected from the page are the trimmed, non-empty texts of
    the elements found under the four selectors, selector after selector and
    element after element: an element found under two selectors is listed
    twice, an element whose text is missing or blank is not listed, and no
    listed text is padded with white space. *)
Theorem getValidationErrors_collects (page : jsstring -> list (option jsstring)) :
  getValidationErrors page
    = flat_map (fun selector => flat_map shown_text (page selector)) errorSelectors /\
  (forall e, In e (getValidationErrors page) <->
     e <> [] /\
     exists selector text,
       In selector errorSelectors /\ In (Some text) (page selector) /\
       trim text = e) /\
  Forall (fun e => e <> [] /\ trim e = e) (getValidationErrors page) /\
  length (getValidationErrors page)
    <= list_sum (map (fun selector => length (page selector)) errorSelectors).
Proof.
  rewrite getValidationErrors_flat.
  assert (Hin : forall e,
            In e (flat_map (fun selector => flat_map shown_text (page selector))
                    errorSelectors) <->
            e <> [] /\
            exists selector text,
              In selector errorSelectors /\ In (Some text) (page selector) /\
              trim text = e).
  { intros e. rewrite in_flat_map. split.
    - intros [selector [Hsel He]]. apply in_flat_map in He as [text [Ht He]].
      apply in_shown_text in He as [Hne [t [-> Htrim]]].
      split; [exact Hne|]. now exists selector, t.
    - intros [Hne [selector [t [Hsel [Ht Htrim]]]]].
      exists selector. split; [exact Hsel|]. apply in_flat_map.
      exists (Some t). split; [exact Ht|]. apply in_shown_text.
      split; [exact Hne|]. now exists t. }
  split; [reflexivity|]. split; [exact Hin|]. split.
  - apply Forall_forall. intros e He. apply Hin in He
      as [Hne [selector [t [_ [_ <-]]]]].
    split; [exact Hne | apply trim_idempotent].
  - generalize errorSelectors. intros selectors.
    induction selectors as [|sel selectors IH]; simpl; [lia|].
    rewrite length_app.
    assert (Hl : forall texts, length (flat_map shown_text texts) <= length texts).
    { induction texts as [|t texts IHt]; simpl; [lia|].
      rewrite length_app.
      assert (length (shown_text t) <= 1)
        by (destruct t as [t|]; simpl; [destruct (trim t); simpl; lia | lia]).
      lia. }
    specialize (Hl (page sel)). lia.
Qed.

(** ** The response interceptor *)

Lemma includes_trans (a b c : jsstring) :
  includes a b = true -> includes b c = true -> includes a c = true.
Proof.
  rewrite !includes_spec.
  intros [x [y ->]] [u [v ->]]. exists (x ++ u), (v ++ y).
  now rewrite <- !app_assoc.
Qed.

Lemma find_none_iff {A : Type} (p : A -> bool) (l : list A) :
  find p l = None <-> forall x, In x l -> p x = false.
Proof.
  split; [apply find_none|].
  induction l as [|a l IH]; intros H; simpl; [reflexivity|].
  rewrite (H a (or_introl eq_refl)). apply IH. intros x Hx. apply H. now right.
Qed.

Lemma indexOf_includes (s text : jsstring) (k : nat) :
  indexOf s text = Some k -> includes s text = true.
Proof.
  revert k; induction s as [|c s IH]; intros k; cbn [indexOf includes].
  - destruct (startsWith [] text); [reflexivity | discriminate].
  - destruct (startsWith (c :: s) text); [reflexivity|]. simpl.
    destruct (indexOf s text) as [k'|]; [|discriminate].
    intros _. now apply (IH k').
Qed.

Lemma find_Some_iff {A : Type} (p : A -> bool) (l : list A) (x : A) :
  find p l = Some x <->
  exists before after,
    l = before ++ x :: after /\ p x = true /\
    forall b, In b before -> p b = false.
Proof.
  split.
  - intros E. apply find_first in E as [Hp [before [after [Hsplit Hb]]]].
    now exists before, after.
  - intros [before [after [-> [Hp Hb]]]].
    induction before as [|b before IH]; simpl.
    + now rewrite Hp.
    + rewrite (Hb b (or_introl eq_refl)). apply IH.
      intros y Hy. apply Hb. now right.
Qed.

Section CallerFacts.

Context {NM : NumberModel} {R : Realm}.

(** A predicate that leaves its state alone picks what [find] picks. *)
Lemma waitForResponse_pure {S : Type} (predicate : S -> Response -> bool * S)
    (accepts : Response -> bool) (state : S) (responses : list Response) :
  (forall resp, predicate state resp = (accepts resp, state)) ->
  waitForResponse predicate state responses = find accepts responses.
Proof.
  intros H. induction responses as [|resp rest IH]; simpl; [reflexivity|].
  rewrite H. now destruct (accepts resp).
Qed.

Lemma setupApiInterception_pure (responses : list Response) (fresh : ref)
    (urlPattern : url_pattern) (method_arg : option jsstring)
    (matches : jsstring -> bool) (result : ApiResponse) :
  let requestMethod := match method_arg with Some m => m | None => js "POST" end in
  (forall resp,
     interception_predicate urlPattern requestMethod resp
     = (matches (response_url resp)
        && jsstring_eqb (request_method resp) requestMethod, urlPattern)) ->
  setupApiInterception responses fresh urlPattern method_arg = Some result <->
  exists before response after,
    responses = before ++ response :: after /\
    result = to_ApiResponse fresh response /\
    (matches (response_url response) = true /\
     request_method response = requestMethod) /\
    forall earlier, In earlier before ->
      matches (response_url earlier) = false \/
      request_method earlier <> requestMethod.
Proof.
  intros requestMethod Hpure. unfold setupApiInterception.
  fold requestMethod.
  rewrite (@waitForResponse_pure _ _ _ _ responses Hpure).
  set (accepts := fun resp : Response =>
         matches (response_url resp)
         && jsstring_eqb (request_method resp) requestMethod).
  assert (Hacc : forall resp, accepts resp = true <->
            matches (response_url resp) = true /\
            request_method resp = requestMethod).
  { intros resp. unfold accepts. now rewrite andb_true_iff, jsstring_eqb_eq. }
  split.
  - destruct (find accepts responses) as [response|] eqn:E; [|discriminate].
    intros [= <-]. apply find_Some_iff in E as [before [after [-> [Hp Hb]]]].
    exists before, response, after. split; [reflexivity|].
    split; [reflexivity|]. split; [now apply Hacc|].
    intros earlier Hin. specialize (Hb earlier Hin).
    destruct (matches (response_url earlier)) eqn:Hm; [right | now left].
    intros Heq. assert (accepts earlier = true) by (apply Hacc; now split).
    congruence.
  - intros [before [response [after [-> [-> [Hp Hb]]]]]].
    assert (E : find accepts (before ++ response :: after) = Some response).
    { apply find_Some_iff. exists before, after. split; [reflexivity|].
      split; [now apply Hacc|]. intros b Hin.
      destruct (accepts b) eqn:Eb; [|reflexivity].
      apply Hacc in Eb as [Hm Hq].
      destruct (Hb b Hin) as [Hf | Hf]; [congruence | contradiction]. }
    now rewrite E.
Qed.

(** The interceptor settles on the first response whose URL matches the
    pattern and whose request method is exactly the requested one (POST when
    none is given), and on no response where none qualifies.  A text matches
    the URLs that contain it, so what is caught under a text is caught under
    every text contained in it; a RegExp without the flags g and y matches
    the URLs of which it matches some part.  A RegExp with the flag g is
    asked from where its last match ended: of two responses with the same
    URL that holds the text once, a GET and then a POST, the POST is let
    pass, though the same text given as a string catches it. *)
Theorem setupApiInterception_first_match (responses : list Response)
    (fresh : ref) (method_arg : option jsstring) :
  let requestMethod := match method_arg with Some m => m | None => js "POST" end in
  (forall text result,
     setupApiInterception responses fresh (UrlText text) method_arg = Some result <->
     exists before response after,
       responses = before ++ response :: after /\
       result = to_ApiResponse fresh response /\
       (includes (response_url response) text = true /\
        request_method response = requestMethod) /\
       forall earlier, In earlier before ->
         includes (response_url earlier) text = false \/
         request_method earlier <> requestMethod) /\
  (forall p result,
     setupApiInterception responses fresh (UrlRegExp (plain_regexp p)) method_arg
       = Some result <->
     exists before response after,
       responses = before ++ response :: after /\
       result = to_ApiResponse fresh response /\
       (Test p (response_url response) /\
        request_method response = requestMethod) /\
       forall earlier, In earlier before ->
         ~ Test p (response_url earlier) \/
         request_method earlier <> requestMethod) /\
  (forall wide narrow result,
     includes wide narrow = true ->
     setupApiInterception responses fresh (UrlText wide) method_arg = Some result ->
     exists result',
       setupApiInterception responses fresh (UrlText narrow) method_arg
       = Some result') /\
  (forall text url k status status' body body',
     indexOf url text = Some k ->
     indexOf (skipn (k + length text) url) text = None ->
     let get := mkResponse url (js "GET") status body in
     let post := mkResponse url (js "POST") status' body' in
     setupApiInterception [get; post] fresh
       (UrlRegExp (global_text_regexp text)) None = None /\
     setupApiInterception [get; post] fresh (UrlText text) None
       = Some (to_ApiResponse fresh post)).
Proof.
  intros requestMethod.
  assert (Htext : forall text result,
     setupApiInterception responses fresh (UrlText text) method_arg = Some result <->
     exists before response after,
       responses = before ++ response :: after /\
       result = to_ApiResponse fresh response /\
       (includes (response_url response) text = true /\
        request_method response = requestMethod) /\
       forall earlier, In earlier before ->
         includes (response_url earlier) text = false \/
         request_method earlier <> requestMethod).
  { intros text result.
    apply (@setupApiInterception_pure responses fresh (UrlText text) method_arg
             (fun url => includes url text) result).
    intros resp. reflexivity. }
  split; [exact Htext|]. split; [|split].
  - intros p result.
    pose proof (@setupApiInterception_pure responses fresh
                  (UrlRegExp (plain_regexp p)) method_arg
                  (fun url => regex_test p url) result) as H.
    cbv zeta in H. fold requestMethod in H.
    rewrite H by (intros resp; reflexivity). clear H.
    split; intros [before [response [after [Hs [Hr [[Hm Hq] Hb]]]]]];
      exists before, response, after; (split; [exact Hs|]);
      (split; [exact Hr|]); (split; [split; [|exact Hq]|]).
    + now apply regex_test_spec.
    + intros earlier Hin. destruct (Hb earlier Hin) as [Hf | Hf]; [left | now right].
      intros Ht. apply regex_test_spec in Ht. congruence.
    + now apply regex_test_spec.
    + intros earlier Hin. destruct (Hb earlier Hin) as [Hf | Hf]; [left | now right].
      destruct (regex_test p (response_url earlier)) eqn:E; [|reflexivity].
      apply regex_test_spec in E. contradiction.
  - intros wide narrow result Hin Hwide.
    apply Htext in Hwide as [before [response [after [Hs [_ [[Hm Hq] _]]]]]].
    assert (Hfound : find (fun resp =>
                includes (response_url resp) narrow
                && jsstring_eqb (request_method resp) requestMethod) responses
              <> None).
    { intros Hnone. rewrite find_none_iff in Hnone.
      specialize (Hnone response). rewrite Hs in Hnone.
      rewrite (includes_trans _ _ _ Hm Hin) in Hnone.
      rewrite (proj2 (jsstring_eqb_eq _ _) Hq) in Hnone.
      discriminate Hnone. apply in_elt. }
    unfold setupApiInterception. fold requestMethod.
    rewrite (@waitForResponse_pure _ _
               (fun resp => includes (response_url resp) narrow
                            && jsstring_eqb (request_method resp) requestMethod)
               (UrlText narrow) responses) by (intros resp; reflexivity).
    destruct (find _ responses) as [found|]; [|contradiction].
    eexists. reflexivity.
  - intros text url k status status' body body' Hk Hrest get post. split.
    + unfold setupApiInterception, waitForResponse, interception_predicate,
        global_text_regexp, get, post.
      cbn [response_url request_method regexp_test lastIndex skipn Nat.leb].
      rewrite Hk.
      change (jsstring_eqb (js "GET") (js "POST")) with false.
      cbn [andb Nat.add regexp_test lastIndex].
      destruct (Nat.leb (k + length text) (length url));
        [rewrite Hrest|]; reflexivity.
    + unfold setupApiInterception, waitForResponse, interception_predicate,
        get, post.
      cbn [response_url request_method].
      rewrite (indexOf_includes _ _ Hk).
      change (jsstring_eqb (js "GET") (js "POST")) with false.
      change (jsstring_eqb (js "POST") (js "POST")) with true.
      reflexivity.
Qed.

(** When the body of the intercepted response cannot be decoded, the body
    handed on is an empty object: the status is kept, and a path whose
    first key names no member that objects inherit resolves to [undefined],
    so that the 'defined' check on it fails with the dump [{}]. *)
Theorem undecodable_body_has_no_field (fresh : ref) (response : Response)
    (path : jsstring) (expected : value) :
  response_json response = None ->
  inherited (VObj fresh []) (hd [] (split_on (cu ".") path)) = None ->
  let api := to_ApiResponse fresh response in
  api_status api = response_status response /\
  JSON_stringify (api_body api) = Some (js "{}") /\
  getNestedValue (api_body api) path = Ok VUndefined /\
  verifyResponseBodyValue (api_body api) path expected (Some Defined)
    = Ok (mkVerification false
            (path ++ js " is missing or undefined. Full response: {}")).
Proof.
  intros Hjson Hkey. cbv zeta. unfold to_ApiResponse. rewrite Hjson.
  cbn [api_status api_body].
  assert (Hfv : getNestedValue (VObj fresh []) path = Ok VUndefined).
  { unfold getNestedValue.
    destruct (split_on (cu ".") path) as [|k keys] eqn:E.
    - now apply split_on_not_nil in E.
    - cbn [hd] in Hkey. cbn [reduce]. unfold optional_get.
      cbn [is_nullish get_member own_member own_property]. rewrite Hkey.
      cbn [exn_bind]. apply reduce_undefined. }
  split; [reflexivity|]. split; [reflexivity|].
  split; [exact Hfv|].
  rewrite (@verify_defined _ _ (VObj fresh []) path expected VUndefined Hfv).
  reflexivity.
Qed.

(** ** The test user *)

Lemma own_property_app (a b : list (jsstring * value)) (k : jsstring) :
  own_property (a ++ b) k
  = match own_property a k with
    | Some v => Some v
    | None => own_property b k
    end.
Proof.
  induction a as [|[k' v'] a IH]; simpl; [reflexivity|].
  destruct (jsstring_eqb k' k); [reflexivity | exact IH].
Qed.

Lemma own_property_set (props : list (jsstring * value)) (k k' : jsstring)
    (v : value) :
  own_property (set_property props k v) k'
  = if jsstring_eqb k k' then Some v else own_property props k'.
Proof.
  induction props as [|[a x] props IH]; simpl.
  - reflexivity.
  - destruct (jsstring_eqb a k) eqn:Ea; simpl.
    + apply jsstring_eqb_eq in Ea. subst a.
      now destruct (jsstring_eqb k k').
    + rewrite IH. destruct (jsstring_eqb k k') eqn:Ek; [|reflexivity].
      apply jsstring_eqb_eq in Ek. subst k'. now rewrite Ea.
Qed.

(** A property of the merged object is the one the source wrote last, and
    the target's where the source has none. *)
Lemma own_property_assign (target : list (jsstring * value)) (source : value)
    (k : jsstring) :
  own_property (assign target source) k
  = match own_property (rev (spread source)) k with
    | Some v => Some v
    | None => own_property target k
    end.
Proof.
  unfold assign. generalize (spread source). intros l. revert target.
  induction l as [|[k' v'] l IH]; intros target; simpl; [reflexivity|].
  rewrite IH, own_property_app, own_property_set. simpl.
  destruct (own_property (rev l) k); [reflexivity|].
  now destruct (jsstring_eqb k' k).
Qed.

Lemma set_property_keys (props : list (jsstring * value)) (k : jsstring)
    (v : value) :
  own_property props k <> None ->
  map fst (set_property props k v) = map fst props.
Proof.
  induction props as [|[a x] props IH]; simpl; [congruence|].
  destruct (jsstring_eqb a k) eqn:Ea; simpl.
  - intros _. apply jsstring_eqb_eq in Ea. now subst a.
  - intros H. now rewrite IH.
Qed.

End CallerFacts.

(** ** The test user *)

(** What the validator says of a generated password, for use by callers. *)
Lemma generateValidPassword_accepted (sort : shuffle_sort)
    (src : random_source) (k : nat) :
  (forall i, in_unit_interval (src i)) -> rearranges sort ->
  length (fst (generateValidPassword sort src k)) = 12 /\
  isValidPassword (fst (generateValidPassword sort src k))
    = mkPasswordCheck true [].
Proof.
  intros Hsrc Hsort.
  destruct (@generateValidPassword_shape src Hsrc sort Hsort k)
    as [u [l [d [rest [Hu [Hl [Hd [Hlen Hperm]]]]]]]].
  set (password := fst (generateValidPassword sort src k)) in *.
  destruct alphabet_classes as [Aup [Alow Adig]].
  rewrite Forall_forall in Aup, Alow, Adig.
  assert (Hlen12 : length password = 12).
  { rewrite <- (Permutation_length Hperm). simpl. now rewrite Hlen. }
  split; [exact Hlen12|].
  assert (Hv : violations password = []).
  { apply violations_nil. repeat split; try lia; apply regex_test_range.
    - exists u. split; [|now apply Aup].
      eapply Permutation_in; [exact Hperm | now left].
    - exists l. split; [|now apply Alow].
      eapply Permutation_in; [exact Hperm | right; now left].
    - exists d. split; [|now apply Adig].
      eapply Permutation_in; [exact Hperm | right; right; now left]. }
  pose proof (isValidPassword_errors password) as He.
  pose proof (isValidPassword_isValid password) as Hi.
  destruct (isValidPassword password) as [v e]; simpl in *.
  subst v e. rewrite Hv. reflexivity.
Qed.

Section TestUser.

Context {NM : NumberModel} {R : Realm}.

(** Every field of a test user is the override's when the override has the
    field (the last one written, even when it is [undefined]) and the
    generated default otherwise; building the user draws nothing beyond the
    password's draws. *)
Theorem createTestUser_overrides_win (sort : shuffle_sort) (src : random_source)
    (faker : FakerValues) (localeConfig : ProvinceNames) (overrides : value)
    (k : nat) (field : jsstring) :
  let user := fst (createTestUser sort src faker localeConfig overrides k) in
  let password := fst (generateValidPassword sort src k) in
  own_property user field
    = match own_property (rev (spread overrides)) field with
      | Some v => Some v
      | None => own_property (default_user faker localeConfig password) field
      end /\
  snd (createTestUser sort src faker localeConfig overrides k)
    = snd (generateValidPassword sort src k).
Proof.
  cbv zeta. unfold createTestUser, bind.
  destruct (generateValidPassword sort src k) as [password k'].
  cbn [ret fst snd]. split; [|reflexivity].
  apply own_property_assign.
Qed.

(** Without overrides the test user has the eight generated fields, with
    Ontario's name in the configuration as province, consent off, and one
    12-character password, accepted by the validator, as password and as
    confirmation; an override of the province alone changes that field and
    no other. *)
Theorem createTestUser_defaults (sort : shuffle_sort) (src : random_source)
    (faker : FakerValues) (localeConfig : ProvinceNames) (k : nat) :
  (forall i, in_unit_interval (src i)) ->
  rearranges sort ->
  exists password,
    isValidPassword password = mkPasswordCheck true [] /\
    length password = 12 /\
    fst (createTestUser sort src faker localeConfig VUndefined k)
      = default_user faker localeConfig password /\
    forall r province,
      fst (createTestUser sort src faker localeConfig
             (VObj r [(js "province", VStr province)]) k)
      = [(js "firstName", VStr (faker_firstName faker));
         (js "lastName", VStr (faker_lastName faker));
         (js "phoneNumber", VStr (faker_numeric10 faker));
         (js "province", VStr province);
         (js "email", VStr (faker_email faker));
         (js "password", VStr password);
         (js "confirmPassword", VStr password);
         (js "partnerContact", VBool false)].
Proof.
  intros Hsrc Hsort.
  destruct (@generateValidPassword_accepted sort src k Hsrc Hsort) as [Hlen Hvalid].
  exists (fst (generateValidPassword sort src k)).
  split; [exact Hvalid|]. split; [exact Hlen|].
  unfold createTestUser, bind.
  destruct (generateValidPassword sort src k) as [password k'].
  cbn [ret fst]. split; [reflexivity|]. intros r province. reflexivity.
Qed.

End TestUser.

Lemma createTestUser_defaults_witness :
  exists password,
    isValidPassword password = mkPasswordCheck true [] /\
    length password = 12 /\
    fst (createTestUser insertion_sort sample_source
           (mkFakerValues (js "Ada") (js "Byron") (js "4165550100")
              (js "ada@example.com"))
           english_names VUndefined 0)
    = default_user
        (mkFakerValues (js "Ada") (js "Byron") (js "4165550100")
           (js "ada@example.com"))
        english_names password.
Proof.
  destruct (@createTestUser_defaults integer_numbers insertion_sort sample_source
              (mkFakerValues (js "Ada") (js "Byron") (js "4165550100")
                 (js "ada@example.com"))
              english_names 0 sample_source_unit insertion_sort_rearranges)
    as [password [Hv [Hl [Hu _]]]].
  exists password. split; [exact Hv|]. split; [exact Hl | exact Hu].
Defined.

(** ** Field paths *)

Lemma join_split_on (sep : code_unit) (s : jsstring) :
  join [sep] (split_on sep s) = s.
Proof.
  induction s as [|c s IH]; [reflexivity|].
  cbn [split_on]. destruct (N.eqb_spec c sep) as [->|Hne].
  - destruct (split_on sep s) as [|w ws] eqn:E.
    + now apply split_on_not_nil in E.
    + change (join [sep] ([] :: w :: ws)) with ([] ++ [sep] ++ join [sep] (w :: ws)).
      now rewrite IH.
  - destruct (split_on sep s) as [|w ws] eqn:E.
    + now apply split_on_not_nil in E.
    + destruct ws as [|w' ws].
      * simpl in *. now rewrite IH.
      * change (join [sep] ((c :: w) :: w' :: ws))
          with (c :: (w ++ [sep] ++ join [sep] (w' :: ws))).
        change (join [sep] (w :: w' :: ws))
          with (w ++ [sep] ++ join [sep] (w' :: ws)) in IH.
        now rewrite IH.
Qed.

Lemma split_on_keys (sep : code_unit) (s : jsstring) :
  Forall (fun k => ~ In sep k) (split_on sep s).
Proof.
  induction s as [|c s IH]; simpl.
  - constructor; [intros [] | constructor].
  - destruct (N.eqb_spec c sep) as [->|Hne].
    + constructor; [intros [] | exact IH].
    + destruct (split_on sep s) as [|w ws]; [repeat constructor; intros [H|[]]; congruence|].
      inversion IH as [|? ? Hw Hws]; subst. constructor; [|exact Hws].
      intros [H | H]; [congruence | contradiction].
Qed.

Lemma split_on_length (sep : code_unit) (s : jsstring) :
  length (split_on sep s) = S (count_occ N.eq_dec s sep).
Proof.
  induction s as [|c s IH]; [reflexivity|].
  cbn [split_on count_occ]. destruct (N.eqb_spec c sep) as [->|Hne].
  - destruct (N.eq_dec sep sep); [|contradiction]. simpl. now rewrite IH.
  - destruct (N.eq_dec c sep); [contradiction|].
    destruct (split_on sep s); simpl in *; lia.
Qed.

Section MoreVerifierFacts.

Context {NM : NumberModel} {R : Realm}.

(** The keys a path is resolved through are the texts between its dots:
    joined by dots they give the path back, none of them contains a dot, and
    there is one more of them than there are dots.  A property whose own
    name contains a dot is therefore never read: where the object has
    nothing under the text before the first dot, and inherits nothing under
    it, the path resolves to [undefined] whatever the object holds under the
    whole name. *)
Theorem path_is_split_at_every_dot (path : jsstring) :
  join [cu "."] (split_on (cu ".") path) = path /\
  Forall (fun k => ~ In (cu ".") k) (split_on (cu ".") path) /\
  length (split_on (cu ".") path) = S (count_occ N.eq_dec path (cu ".")) /\
  (forall r props before after,
     path = before ++ [cu "."] ++ after ->
     ~ In (cu ".") before ->
     own_property props before = None ->
     inherited (VObj r props) before = None ->
     getNestedValue (VObj r props) path = Ok VUndefined).
Proof.
  split; [apply join_split_on|]. split; [apply split_on_keys|].
  split; [apply split_on_length|].
  intros r props before after -> Hb Hown Hinh.
  rewrite getNestedValue_dot.
  rewrite (@getNestedValue_inherited _ _ (VObj r props) before Hb eq_refl Hown).
  rewrite Hinh. cbn [exn_bind]. now apply getNestedValue_nullish.
Qed.

(** Every failure message ends with [. Full response: ] followed by the
    dump of the whole payload, and names the field path before that; a
    mismatch message also shows the texts of the expected and of the actual
    value. *)
Theorem failure_message_is_self_contained (payload : value) (path : jsstring)
    (expected : value) (mode : option comparison) (verdict : verification) :
  verifyResponseBodyValue payload path expected mode = Ok verdict ->
  isValid verdict = false ->
  (exists head,
     errorMessage verdict
       = head ++ js ". Full response: " ++ template_text (JSON_stringify_2 payload) /\
     includes head path = true) /\
  (forall fv fieldText expectedText,
     getNestedValue payload path = Ok fv -> is_nullish fv = false ->
     mode <> Some Defined ->
     to_string fv = Ok fieldText -> to_string expected = Ok expectedText ->
     includes (errorMessage verdict) ([dquote] ++ expectedText ++ [dquote]) = true /\
     includes (errorMessage verdict) ([dquote] ++ fieldText ++ [dquote]) = true).
Proof.
  intros Hv Hinvalid.
  destruct (getNestedValue payload path) as [fv|e] eqn:Hfv.
  2: { rewrite (@verify_throws _ _ payload path expected mode e Hfv) in Hv.
       discriminate. }
  set (dump := template_text (JSON_stringify_2 payload)) in *.
  assert (Hmode : exists m,
             verifyResponseBodyValue payload path expected mode
             = verifyResponseBodyValue payload path expected (Some m) /\
             (mode <> Some Defined -> m <> Defined)).
  { destruct mode as [m|].
    - exists m. split; [reflexivity | congruence].
    - exists Contains. split; [reflexivity | discriminate]. }
  destruct Hmode as [m [Em Hm]]. rewrite Em in Hv. clear Em.
  assert (Hmis : forall verb et ft,
             msg_mismatch verb path et ft dump
             = (js "Expected " ++ path ++ js " to " ++ verb ++ js " " ++ [dquote]
                  ++ et ++ [dquote] ++ js ", but got " ++ [dquote] ++ ft ++ [dquote])
               ++ js ". Full response: " ++ dump).
  { intros verb et ft. unfold msg_mismatch. now rewrite <- !app_assoc. }
  assert (Hshow : forall verb et ft,
             includes (msg_mismatch verb path et ft dump)
               ([dquote] ++ et ++ [dquote]) = true /\
             includes (msg_mismatch verb path et ft dump)
               ([dquote] ++ ft ++ [dquote]) = true).
  { intros verb et ft. unfold msg_mismatch. split; apply includes_spec.
    - exists (js "Expected " ++ path ++ js " to " ++ verb ++ js " "),
             (js ", but got " ++ [dquote] ++ ft ++ [dquote]
                ++ js ". Full response: " ++ dump).
      now rewrite <- !app_assoc.
    - exists (js "Expected " ++ path ++ js " to " ++ verb ++ js " " ++ [dquote]
                ++ et ++ [dquote] ++ js ", but got "),
             (js ". Full response: " ++ dump).
      now rewrite <- !app_assoc. }
  assert (Hhead : forall verb et ft,
             includes (js "Expected " ++ path ++ js " to " ++ verb ++ js " "
                         ++ [dquote] ++ et ++ [dquote] ++ js ", but got "
                         ++ [dquote] ++ ft ++ [dquote]) path = true).
  { intros. apply includes_app. }
  destruct (is_nullish fv) eqn:Hn.
  - (* the field is missing *)
    split.
    + destruct m.
      * rewrite (@verify_missing _ _ payload path expected fv Equals Hfv Hn) in Hv
          by discriminate. injection Hv as <-. cbn [errorMessage].
        exists (path ++ js " is missing. Expected: "
                  ++ template_text (JSON_stringify expected)
                  ++ js ", but field is undefined").
        split; [unfold msg_missing; now rewrite <- !app_assoc|].
        apply (includes_app [] path).
      * rewrite (@verify_missing _ _ payload path expected fv Contains Hfv Hn) in Hv
          by discriminate. injection Hv as <-. cbn [errorMessage].
        exists (path ++ js " is missing. Expected: "
                  ++ template_text (JSON_stringify expected)
                  ++ js ", but field is undefined").
        split; [unfold msg_missing; now rewrite <- !app_assoc|].
        apply (includes_app [] path).
      * rewrite (@verify_defined _ _ payload path expected fv Hfv), Hn in Hv.
        injection Hv as <-. cbn [errorMessage].
        exists (path ++ js " is missing or undefined").
        split; [unfold msg_not_defined; now rewrite <- !app_assoc|].
        apply (includes_app [] path).
    + intros fv' ft et Hfv' Hn'. assert (E : fv = fv') by congruence. subst fv'.
      congruence.
  - destruct m.
    + rewrite (@verify_equals _ _ payload path expected fv Hfv Hn) in Hv.
      destruct (strict_equals fv expected).
      { injection Hv as <-. discriminate. }
      destruct (to_string expected) as [et|] eqn:Ee; simpl in Hv; [|discriminate].
      destruct (to_string fv) as [ft|] eqn:Ef; simpl in Hv; [|discriminate].
      injection Hv as <-. cbn [errorMessage]. split.
      * eexists. split; [apply Hmis | apply Hhead].
      * intros fv' ft' et' Hfv' _ _ Hft Het.
        assert (E : fv = fv') by congruence. subst fv'.
        assert (E1 : ft = ft') by congruence.
        assert (E2 : et = et') by congruence. subst ft' et'.
        apply Hshow.
    + rewrite (@verify_contains _ _ payload path expected fv Hfv Hn) in Hv.
      destruct (to_string fv) as [ft|] eqn:Ef; simpl in Hv; [|discriminate].
      destruct (to_string expected) as [et|] eqn:Ee; simpl in Hv; [|discriminate].
      destruct (includes ft et).
      { injection Hv as <-. discriminate. }
      injection Hv as <-. cbn [errorMessage]. split.
      * eexists. split; [apply Hmis | apply Hhead].
      * intros fv' ft' et' Hfv' _ _ Hft Het.
        assert (E : fv = fv') by congruence. subst fv'.
        assert (E1 : ft = ft') by congruence.
        assert (E2 : et = et') by congruence. subst ft' et'.
        apply Hshow.
    + rewrite (@verify_defined _ _ payload path expected fv Hfv), Hn in Hv.
      injection Hv as <-. discriminate.
Qed.

(** The modes are ordered: a field that passes 'equals' or 'contains' passes
    'defined'; a string field that passes 'equals' passes 'contains'; and a
    field that has a text passes 'contains' against the empty string. *)
Theorem modes_are_ordered (payload : value) (path : jsstring) (expected : value) :
  let ok := Ok (mkVerification true []) in
  (verifyResponseBodyValue payload path expected (Some Equals) = ok ->
   verifyResponseBodyValue payload path expected (Some Defined) = ok) /\
  (verifyResponseBodyValue payload path expected (Some Contains) = ok ->
   verifyResponseBodyValue payload path expected (Some Defined) = ok) /\
  (forall s, getNestedValue payload path = Ok (VStr s) ->
     verifyResponseBodyValue payload path expected (Some Equals) = ok ->
     verifyResponseBodyValue payload path expected (Some Contains) = ok) /\
  (forall fv t, getNestedValue payload path = Ok fv -> is_nullish fv = false ->
     to_string fv = Ok t ->
     verifyResponseBodyValue payload path (VStr []) (Some Contains) = ok).
Proof.
  cbv zeta. destruct (getNestedValue payload path) as [fv|e] eqn:Hfv.
  2: { rewrite !(fun mode => @verify_throws _ _ payload path expected mode e Hfv).
       repeat split; intros; discriminate. }
  rewrite (@verify_defined _ _ payload path expected fv Hfv).
  destruct (is_nullish fv) eqn:Hn.
  - rewrite (@verify_missing _ _ payload path expected fv Equals Hfv Hn)
      by discriminate.
    rewrite (@verify_missing _ _ payload path expected fv Contains Hfv Hn)
      by discriminate.
    split; [discriminate|]. split; [discriminate|]. split.
    + intros s Hs. assert (E : fv = VStr s) by congruence. subst fv. discriminate.
    + intros fv' t Hfv'. assert (E : fv = fv') by congruence. subst fv'.
      congruence.
  - split; [reflexivity|]. split; [reflexivity|]. split.
    + intros s Hs. assert (E : fv = VStr s) by congruence. subst fv.
      rewrite (@verify_equals _ _ payload path expected (VStr s) Hfv Hn).
      rewrite (@verify_contains _ _ payload path expected (VStr s) Hfv Hn).
      destruct (strict_equals (VStr s) expected) eqn:Eq.
      * assert (E : expected = VStr s).
        { destruct expected; simpl in Eq; try discriminate.
          apply jsstring_eqb_eq in Eq. now subst. }
        subst expected. intros _. cbn [to_string exn_bind].
        now rewrite includes_refl.
      * destruct (to_string expected); cbn [to_string exn_bind]; discriminate.
    + intros fv' t Hfv' _ Ht. assert (E : fv = fv') by congruence. subst fv'.
      rewrite (@verify_contains _ _ payload path (VStr []) fv Hfv Hn), Ht.
      cbn [to_string exn_bind].
      assert (Hi : includes t [] = true) by (apply includes_spec; now exists [], t).
      now rewrite Hi.
Qed.

End MoreVerifierFacts.

Lemma path_is_split_at_every_dot_witness :
  getNestedValue (VObj 0 [(js "user.name", VStr (js "Ada"))]) (js "user.name")
  = Ok VUndefined.
Proof.
  apply (proj2 (proj2 (proj2 (@path_is_split_at_every_dot integer_numbers
                                sample_realm (js "user.name"))))
           0 [(js "user.name", VStr (js "Ada"))] (js "user") (js "name"));
    [reflexivity | | reflexivity | reflexivity].
  vm_compute. intros H. repeat (destruct H as [H | H]; [discriminate|]). exact H.
Defined.

Lemma failure_message_is_self_contained_witness :
  exists head,
    js "Expected error to equal " ++ [dquote] ++ js "timeout" ++ [dquote]
      ++ js ", but got " ++ [dquote] ++ js "invalid password" ++ [dquote]
      ++ js ". Full response: " ++ template_text (JSON_stringify_2 payload_error)
    = head ++ js ". Full response: "
        ++ template_text (JSON_stringify_2 payload_error) /\
    includes head (js "error") = true.
Proof.
  exact (proj1 (@failure_message_is_self_contained integer_numbers sample_realm payload_error
                  (js "error") (VStr (js "timeout")) (Some Equals)
                  (mkVerification false
                     (js "Expected error to equal " ++ [dquote] ++ js "timeout"
                        ++ [dquote] ++ js ", but got " ++ [dquote]
                        ++ js "invalid password" ++ [dquote]
                        ++ js ". Full response: "
                        ++ template_text (JSON_stringify_2 payload_error)))
                  eq_refl eq_refl)).
Defined.

Lemma modes_are_ordered_witness :
  verifyResponseBodyValue payload_error (js "error")
    (VStr (js "invalid password")) (Some Contains)
  = Ok (mkVerification true []).
Proof.
  exact (proj1 (proj2 (proj2 (@modes_are_ordered integer_numbers sample_realm payload_error
                                (js "error") (VStr (js "invalid password")))))
           (js "invalid password") eq_refl eq_refl).
Defined.

(** ** The password validator again *)

Lemma existsb_permutation {A : Type} (p : A -> bool) (l l' : list A) :
  Permutation l l' -> existsb p l = existsb p l'.
Proof.
  induction 1; simpl.
  - reflexivity.
  - now rewrite IHPermutation.
  - now rewrite !orb_assoc, (orb_comm (p y)).
  - congruence.
Qed.

(** The verdict on a password depends on its characters, not on their
    order; and since a password is not both too short and too long, at most
    four of the five rules are ever reported broken. *)
Theorem isValidPassword_ignores_order (password : jsstring) :
  length (pw_errors (isValidPassword password)) <= 4 /\
  ~ (In msg_min_length (pw_errors (isValidPassword password)) /\
     In msg_max_length (pw_errors (isValidPassword password))) /\
  forall shuffled, Permutation password shuffled ->
    isValidPassword shuffled = isValidPassword password.
Proof.
  split; [|split].
  - rewrite isValidPassword_errors. unfold violations.
    destruct (Nat.ltb_spec (length password) 12),
      (Nat.ltb_spec 32 (length password)),
      (regex_test has_upper_re password), (regex_test has_lower_re password),
      (regex_test has_digit_re password); simpl; lia.
  - rewrite isValidPassword_errors, !in_violations.
    intros [H1 H2]. msg_cases. lia.
  - intros shuffled Hperm.
    assert (Hv : violations shuffled = violations password).
    { unfold violations, has_upper_re, has_lower_re, has_digit_re.
      rewrite !regex_test_class.
      rewrite <- (Permutation_length Hperm).
      now rewrite !(existsb_permutation _ Hperm). }
    pose proof (isValidPassword_errors password) as He.
    pose proof (isValidPassword_isValid password) as Hi.
    pose proof (isValidPassword_errors shuffled) as He'.
    pose proof (isValidPassword_isValid shuffled) as Hi'.
    destruct (isValidPassword password) as [v e],
             (isValidPassword shuffled) as [v' e']; simpl in *.
    subst. now rewrite Hv.
Qed.

Lemma isValidPassword_ignores_order_witness :
  isValidPassword (js "4321drowssaP") = isValidPassword (js "Password1234").
Proof.
  apply (proj2 (proj2 (isValidPassword_ignores_order (js "Password1234")))).
  change (js "4321drowssaP") with (rev (js "Password1234")).
  apply Permutation_rev.
Defined.

(** ** The locale loader again *)

Section MoreLoaderFacts.

Context {NM : NumberModel} {R : Realm}.

Lemma resolve_urls_base (urls : value) (b1 b2 : jsstring) :
  normalize_base b1 = normalize_base b2 -> resolve_urls urls b1 = resolve_urls urls b2.
Proof. intros H. unfold resolve_urls. now rewrite H. Qed.

(** A base URL gives the same configuration with and without one trailing
    slash. *)
Theorem loadLocaleConfig_ignores_one_slash (l : locale) (baseUrl : jsstring)
    (fs : i18n_store) :
  baseUrl <> [] ->
  endsWith baseUrl (js "/") = false ->
  loadLocaleConfig l (Some (baseUrl ++ js "/")) fs
  = loadLocaleConfig l (Some baseUrl) fs.
Proof.
  intros Hne Hslash.
  assert (Hb : normalize_base (baseUrl ++ js "/") = normalize_base baseUrl).
  { rewrite (proj1 (normalize_base_spec (baseUrl ++ js "/")) baseUrl eq_refl).
    unfold normalize_base. now rewrite Hslash. }
  unfold loadLocaleConfig, io_bind, loadJsonFile, io_lift.
  destruct (fs l (js "signup.json")); try reflexivity.
  destruct (fs l (js "provinces.json")); try reflexivity.
  destruct (fs l (js "urls.json")); try reflexivity.
  destruct baseUrl as [|c rest]; [contradiction|].
  cbn [app]. change (c :: rest ++ js "/") with ((c :: rest) ++ js "/").
  now rewrite (@resolve_urls_base _ _ _ Hb).
Qed.

(** With a base URL, a [urls] section whose termsOfService entry is absent or
    is not a string makes the load throw a TypeError, whereas an absent
    signup entry does not: the signup URL is then the normalized base
    followed by the text "undefined". *)
Theorem loadLocaleConfig_incomplete_urls (l : locale) (baseUrl : jsstring)
    (fs : i18n_store) (signupDoc provincesDoc : value) (r : ref)
    (props : list (jsstring * value)) :
  baseUrl <> [] ->
  fs l (js "signup.json") = Document signupDoc ->
  fs l (js "provinces.json") = Document provincesDoc ->
  fs l (js "urls.json") = Document (VObj r props) ->
  ((forall t, own_property props (js "termsOfService") <> Some (VStr t)) ->
   fst (loadLocaleConfig l (Some baseUrl) fs) = Throw TypeError) /\
  (forall login terms,
     own_property props (js "signup") = None ->
     own_property props (js "login") = Some (VStr login) ->
     own_property props (js "termsOfService") = Some (VStr terms) ->
     loaded_url (fst (loadLocaleConfig l (Some baseUrl) fs)) (js "signup")
     = Some (VStr (normalize_base baseUrl ++ js "undefined"))).
Proof.
  intros Hne Hs Hp Hu.
  assert (Hload : fst (loadLocaleConfig l (Some baseUrl) fs)
                  = (resolved <~ resolve_urls (VObj r props) baseUrl ;;
                     Ok (mkLocaleConfig signupDoc provincesDoc resolved))).
  { unfold loadLocaleConfig, io_bind, loadJsonFile, io_lift.
    rewrite Hs, Hp, Hu. destruct baseUrl; [contradiction | reflexivity]. }
  rewrite Hload. unfold resolve_urls.
  rewrite !(fun key H => @get_member_suite_name _ _ r props key H) by reflexivity.
  cbn [exn_bind]. split.
  - intros Hterms.
    destruct (to_string_throws_TypeError
                (or_undefined (own_property props (js "signup"))))
      as [[s ->] | ->]; [|reflexivity].
    destruct (to_string_throws_TypeError
                (or_undefined (own_property props (js "login"))))
      as [[s' ->] | ->]; [|reflexivity].
    cbn [exn_bind].
    destruct (own_property props (js "termsOfService")) as [v|] eqn:E;
      [|reflexivity].
    destruct v; try reflexivity. now destruct (Hterms s0).
  - intros login terms -> -> ->. cbn [or_undefined to_string exn_bind call_startsWith].
    destruct (startsWith terms (js "http")); reflexivity.
Qed.

(** The fixture always hands the loader a non-empty base URL, so the URLs of
    its configuration are always resolved; with [BASE_URL] unset or empty
    the base is [https://app.<ENV>.nesto.ca], [dev] standing for an unset or
    empty [ENV], and that is the configuration's [baseUrl] as it stands. *)
Theorem fixture_localeConfig_is_resolved (l : locale)
    (BASE_URL ENV : option jsstring) (fs : i18n_store)
    (signupDoc provincesDoc urlsDoc : value) (signup login terms : jsstring) :
  fs l (js "signup.json") = Document signupDoc ->
  fs l (js "provinces.json") = Document provincesDoc ->
  fs l (js "urls.json") = Document urlsDoc ->
  get_member urlsDoc (js "signup") = Ok (VStr signup) ->
  get_member urlsDoc (js "login") = Ok (VStr login) ->
  get_member urlsDoc (js "termsOfService") = Ok (VStr terms) ->
  let base := normalize_base (fixture_baseUrl BASE_URL ENV) in
  fixture_baseUrl BASE_URL ENV <> [] /\
  loaded_url (fst (fixture_localeConfig l BASE_URL ENV fs)) (js "baseUrl")
    = Some (VStr base) /\
  loaded_url (fst (fixture_localeConfig l BASE_URL ENV fs)) (js "signup")
    = Some (VStr (base ++ signup)) /\
  (BASE_URL = None \/ BASE_URL = Some [] ->
   base = js "https://app." ++ fixture_environment ENV ++ js ".nesto.ca") /\
  (ENV = None \/ ENV = Some [] -> fixture_environment ENV = js "dev").
Proof.
  intros Hs Hp Hu Gs Gl Gt base.
  assert (Hne : fixture_baseUrl BASE_URL ENV <> []).
  { unfold fixture_baseUrl, env_or. destruct BASE_URL as [[|c s]|]; discriminate. }
  assert (Hload : fst (fixture_localeConfig l BASE_URL ENV fs)
                  = Ok (mkLocaleConfig signupDoc provincesDoc
                          [(js "signup", VStr (base ++ signup));
                           (js "baseUrl", VStr base);
                           (js "login", VStr (base ++ login));
                           (js "termsOfService",
                            VStr (if startsWith terms (js "http") then terms
                                  else js "https://www.nesto.ca" ++ terms))])).
  { unfold fixture_localeConfig, loadLocaleConfig, io_bind, loadJsonFile, io_lift.
    rewrite Hs, Hp, Hu.
    destruct (fixture_baseUrl BASE_URL ENV) as [|c rest] eqn:E; [contradiction|].
    unfold resolve_urls. rewrite Gs, Gl, Gt.
    cbn [exn_bind to_string call_startsWith fst]. fold base.
    destruct (startsWith terms (js "http")); reflexivity. }
  split; [exact Hne|]. rewrite Hload. split; [reflexivity|]. split; [reflexivity|].
  split.
  - intros Hb. unfold base.
    assert (E : fixture_baseUrl BASE_URL ENV
                = js "https://app." ++ fixture_environment ENV ++ js ".nesto.ca")
      by (destruct Hb as [-> | ->]; reflexivity).
    rewrite E. unfold normalize_base.
    assert (Hend : endsWith (js "https://app." ++ fixture_environment ENV
                               ++ js ".nesto.ca") (js "/") = false).
    { unfold endsWith. rewrite !rev_app_distr. reflexivity. }
    now rewrite Hend.
  - intros [-> | ->]; reflexivity.
Qed.

(** ** Arrays on a field path *)

(** On an array a path made of an index resolves to the element at that
    index, [undefined] past the end, and the path [length] to the number of
    elements. *)
Theorem getNestedValue_array_index (r : ref) (elems : list value) (i : nat) :
  getNestedValue (VArr r elems) (index_key i) = Ok (or_undefined (nth_error elems i)) /\
  (length elems <= i -> getNestedValue (VArr r elems) (index_key i) = Ok VUndefined) /\
  getNestedValue (VArr r elems) (js "length")
    = Ok (VNum (number_of_nat (length elems))) /\
  (forall obj before, getNestedValue obj before = Ok (VArr r elems) ->
     getNestedValue obj (before ++ [cu "."] ++ index_key i)
     = Ok (or_undefined (nth_error elems i))).
Proof.
  destruct (index_key_plain i) as [Hdot Hlen].
  assert (H : getNestedValue (VArr r elems) (index_key i)
              = Ok (or_undefined (nth_error elems i))).
  { destruct (nth_error elems i) as [element|] eqn:E.
    - apply getNestedValue_own; [exact Hdot | reflexivity |].
      now rewrite own_member_array_index.
    - rewrite getNestedValue_inherited;
        [| exact Hdot | reflexivity | now rewrite own_member_array_index].
      now rewrite (inherited_index _ _ (array_index_index_key i)). }
  split; [exact H|]. split; [|split].
  - intros Hi. rewrite H. apply nth_error_None in Hi. now rewrite Hi.
  - reflexivity.
  - intros obj before Hb. rewrite getNestedValue_dot, Hb. exact H.
Qed.

End MoreLoaderFacts.

Lemma loadLocaleConfig_ignores_one_slash_witness :
  loadLocaleConfig en (Some (js "https://app.qa.nesto.ca" ++ js "/")) sample_store
  = loadLocaleConfig en (Some (js "https://app.qa.nesto.ca")) sample_store.
Proof.
  apply (@loadLocaleConfig_ignores_one_slash integer_numbers sample_realm en
           (js "https://app.qa.nesto.ca") sample_store);
    [discriminate | reflexivity].
Defined.

Lemma loadLocaleConfig_incomplete_urls_witness :
  fst (loadLocaleConfig en (Some (js "https://app.qa.nesto.ca"))
         (fun _ filename =>
            if jsstring_eqb filename (js "urls.json")
            then Document (VObj 0 [(js "signup", VStr (js "/signup"));
                                   (js "login", VStr (js "/login"))])
            else Document (VObj 1 [])))
  = Throw TypeError.
Proof.
  apply (proj1 (@loadLocaleConfig_incomplete_urls integer_numbers sample_realm en
                  (js "https://app.qa.nesto.ca")
                  (fun _ filename =>
                     if jsstring_eqb filename (js "urls.json")
                     then Document (VObj 0 [(js "signup", VStr (js "/signup"));
                                            (js "login", VStr (js "/login"))])
                     else Document (VObj 1 []))
                  (VObj 1 []) (VObj 1 []) 0
                  [(js "signup", VStr (js "/signup"));
                   (js "login", VStr (js "/login"))]
                  ltac:(discriminate) eq_refl eq_refl eq_refl)).
  intros t. discriminate.
Defined.

Lemma fixture_localeConfig_is_resolved_witness :
  loaded_url (fst (fixture_localeConfig en None (Some (js "qa")) sample_store))
    (js "signup")
  = Some (VStr (normalize_base (fixture_baseUrl None (Some (js "qa")))
                  ++ js "/signup")).
Proof.
  exact (proj1 (proj2 (proj2
           (@fixture_localeConfig_is_resolved integer_numbers sample_realm en None
              (Some (js "qa")) sample_store (VObj 1 []) (VObj 1 []) sample_urls
              (js "/signup") (js "https://auth.nesto.ca/login") (js "/terms")
              eq_refl eq_refl eq_refl eq_refl eq_refl eq_refl)))).
Defined.

Lemma getNestedValue_array_index_witness :
  getNestedValue (VObj 0 [(js "items", VArr 1 [VStr (js "a"); VStr (js "b")])])
    (js "items" ++ [cu "."] ++ index_key 1)
  = Ok (VStr (js "b")).
Proof.
  exact (proj2 (proj2 (proj2
           (@getNestedValue_array_index integer_numbers sample_realm 1
              [VStr (js "a"); VStr (js "b")] 1)))
           (VObj 0 [(js "items", VArr 1 [VStr (js "a"); VStr (js "b")])])
           (js "items") eq_refl).
Defined.

(** A GET and then a POST to the same account URL: asked through [/\/api\//g]
    the interceptor lets the POST pass, asked through the text [/api/] it
    settles on it. *)
Lemma setupApiInterception_first_match_witness :
  let url := js "https://app.qa.nesto.ca/api/account" in
  let get := mkResponse url (js "GET") 200 None in
  let post := mkResponse url (js "POST") 201 None in
  setupApiInterception [get; post] 0
    (UrlRegExp (global_text_regexp (js "/api/"))) None = None /\
  setupApiInterception [get; post] 0 (UrlText (js "/api/")) None
    = Some (to_ApiResponse 0 post).
Proof.
  exact (proj2 (proj2 (proj2
           (@setupApiInterception_first_match integer_numbers [] 0 None)))
           (js "/api/") (js "https://app.qa.nesto.ca/api/account") 23
           200%Z 201%Z None None eq_refl eq_refl).
Defined.

Lemma undecodable_body_has_no_field_witness :
  verifyResponseBodyValue
    (api_body (to_ApiResponse 0
                 (mkResponse (js "https://app.qa.nesto.ca/oauth/token")
                    (js "POST") 502 None)))
    (js "access_token") VNull (Some Defined)
  = Ok (mkVerification false
          (js "access_token" ++ js " is missing or undefined. Full response: {}")).
Proof.
  exact (proj2 (proj2 (proj2
           (@undecodable_body_has_no_field integer_numbers sample_realm 0
              (mkResponse (js "https://app.qa.nesto.ca/oauth/token")
                 (js "POST") 502 None)
              (js "access_token") VNull eq_refl eq_refl)))).
Defined.

(** Without the proviso on the digits, two readings can give one address:
    the reading 1 with the random part 23, and the reading 12 with the
    random part 3. *)
Example generateUniqueEmail_collision :
  fst (generateUniqueEmail (fun _ => (23 # 10000)%Q) 1 0)
  = fst (generateUniqueEmail (fun _ => (3 # 10000)%Q) 12 0).
Proof. reflexivity. Qed.
